(** * The Referee: the generic comparison engine (referee-engine.js)

    A shallow embedding of [RefereeEngine] and the proofs of the properties
    its specification states about it, followed by the caller of the
    engine, [Referee.compareOptions] (index.js), and by further properties
    of the engine and of this caller.

    JavaScript values are embedded as follows.
    - A Number is an IEEE 754 binary64 value: Rocq's primitive [float], whose
      operations are the processor's and so round exactly as the engine's do.
    - An optional property ([constraints.maxCost], [option.cost], ...) is an
      [option]: [None] stands for [undefined].
    - A plain object used as a dictionary keeps its own properties in the
      order [Object.keys] lists them (module [Obj]).  Reading a name the
      object does not own goes on to [Object.prototype], taken as the
      language defines it: its properties ([constructor], [toString], ...)
      are functions, and [__proto__] is the accessor of the prototype, which
      an assignment of an object replaces (module [Scores]).
    - A thrown exception is the [Throw] case of [result].
    - Object identity ([!==]) is the [ref] carried by each evaluated option. *)

From Stdlib Require Import Floats ZArith NArith Zpower List String Ascii Bool Lia.
From Stdlib Require Uint63.
From stdpp Require Import base option list gmap strings.

Set Default Proof Using "Type".
Set Warnings "-inexact-float".

(** ** Exceptions *)

Inductive exn := TypeError.

Inductive result (A : Type) : Type :=
| Ok (a : A)
| Throw (e : exn).
Arguments Ok {A} a.
Arguments Throw {A} e.

Definition bind {A B} (r : result A) (k : A → result B) : result B :=
  match r with
  | Ok a => k a
  | Throw e => Throw e
  end.

Notation "'do' x <- r ; k" := (bind r (fun x => k))
  (at level 10, x pattern, r at level 100, k at level 200,
   format "'[v' 'do'  x  <-  r ; '/' k ']'").

(** [for (const x of l) { s = f(s, x) }] where the body may throw. *)
Fixpoint forEach {A S} (f : S → A → result S) (l : list A) (s : S) : result S :=
  match l with
  | [] => Ok s
  | x :: l' => do s' <- f s x; forEach f l' s'
  end.

(** [l.reduce(f)] without an initial value: a TypeError on the empty array. *)
Definition reduce1 {A} (f : A → A → A) (l : list A) : result A :=
  match l with
  | [] => Throw TypeError
  | x :: l' => Ok (fold_left f l' x)
  end.

(** ** Numbers *)

Module Number.
Local Open Scope float_scope.

(** ToBoolean on a Number: [0], [-0] and [NaN] are falsy. *)
Definition truthy (x : float) : bool := negb (is_zero x || is_nan x).

(** [x > y] *)
Definition gt (x y : float) : bool := y <? x.

(** [Math.min(x, y)]: NaN if either is NaN, and [-0] below [+0]. *)
Definition min (x y : float) : float :=
  if is_nan x || is_nan y then nan
  else if x <? y then x
  else if y <? x then y
  else if get_sign x then x else y.

(** [a > y] where [a] may be undefined: ToNumber(undefined) is NaN. *)
Definition gt_opt (a : option float) (y : float) : bool :=
  match a with
  | Some x => gt x y
  | None => false
  end.

(** ToNumber of a Number that may be undefined: NaN for [undefined]. *)
Definition orNaN (a : option float) : float :=
  match a with
  | Some x => x
  | None => nan
  end.

(** The Number of an array length (lengths are below 2^32). *)
Definition of_nat (n : nat) : float := of_uint63 (Uint63Axioms.of_Z (Z.of_nat n)).
End Number.

(** ** Binary64 numbers as the specification of the float operations sees them *)

Module Binary64.
Local Open Scope Z_scope.

(** The rank of a number in the order [SFcompare] decides: by sign, then
    exponent, then mantissa. *)
Definition key (x : spec_float) : Z * Z * Z :=
  match x with
  | S754_zero _ => (0, 0, 0)
  | S754_infinity s => (if s then -2 else 2, 0, 0)
  | S754_nan => (0, 0, 0)
  | S754_finite false m e => (1, e, Zpos m)
  | S754_finite true m e => (-1, - e, Zneg m)
  end.

Definition lex (a b : Z * Z * Z) : Datatypes.comparison :=
  let '(a1, a2, a3) := a in
  let '(b1, b2, b3) := b in
  match a1 ?= b1 with
  | Eq => match a2 ?= b2 with Eq => a3 ?= b3 | c => c end
  | c => c
  end.

Definition rank (x : float) : Z * Z * Z := key (Prim2SF x).

Definition isNaN (x : spec_float) : bool :=
  match x with S754_nan => true | _ => false end.

(** Zero, positive or [+infinity]. *)
Definition nonneg (x : spec_float) : bool :=
  match x with
  | S754_zero _ | S754_infinity false | S754_finite false _ _ => true
  | _ => false
  end.

(** Zero or finite. *)
Definition finite (x : spec_float) : bool :=
  match x with
  | S754_zero _ | S754_finite _ _ _ => true
  | _ => false
  end.

(** 0.5 *)
Definition half : spec_float := S754_finite false 4503599627370496 (-53).
End Binary64.

(** ** Plain objects as ordered dictionaries *)

Module Obj.
Local Open Scope N_scope.

Definition t (V : Type) : Type := list (string * V).

Definition digit (c : ascii) : option N :=
  let n := N_of_ascii c in
  if (48 <=? n) && (n <=? 57) then Some (n - 48) else None.

Fixpoint digits (s : string) (acc : N) : option N :=
  match s with
  | EmptyString => Some acc
  | String c s' =>
      match digit c with
      | Some d => digits s' (10 * acc + d)
      | None => None
      end
  end.

(** An array index: the canonical decimal form of an integer below 2^32 - 1. *)
Definition array_index (s : string) : option N :=
  match s with
  | EmptyString => None
  | String "0" EmptyString => Some 0
  | String "0" _ => None
  | _ =>
      match digits s 0 with
      | Some n => if n <? 4294967295 then Some n else None
      | None => None
      end
  end.

(** Own keys are listed with the array indices first, ascending, then the
    other names in the order of their creation. *)
Definition before (k k' : string) : bool :=
  match array_index k, array_index k' with
  | Some n, Some n' => n <? n'
  | Some _, None => true
  | None, _ => false
  end.

Fixpoint get {V} (k : string) (o : t V) : option V :=
  match o with
  | [] => None
  | (k', v) :: o' => if String.eqb k' k then Some v else get k o'
  end.

Fixpoint update {V} (k : string) (v : V) (o : t V) : t V :=
  match o with
  | [] => []
  | (k', v') :: o' =>
      if String.eqb k' k then (k', v) :: o' else (k', v') :: update k v o'
  end.

Fixpoint create {V} (k : string) (v : V) (o : t V) : t V :=
  match o with
  | [] => [(k, v)]
  | (k', v') :: o' =>
      if before k k' then (k, v) :: o else (k', v') :: create k v o'
  end.

(** The names of the properties of [Object.prototype], which every plain
    object inherits. *)
Definition inherited (k : string) : bool :=
  existsb (String.eqb k)
    ["constructor"; "__defineGetter__"; "__defineSetter__"; "hasOwnProperty";
     "__lookupGetter__"; "__lookupSetter__"; "isPrototypeOf";
     "propertyIsEnumerable"; "toString"; "valueOf"; "__proto__";
     "toLocaleString"]%string.

(** [o[k] = v] for a value [v] that is not an object.  A name the object
    does not own is created, except [__proto__]: there the assignment goes
    to the accessor of [Object.prototype], which ignores such a value. *)
Definition set {V} (k : string) (v : V) (o : t V) : t V :=
  match get k o with
  | Some _ => update k v o
  | None => if String.eqb k "__proto__" then o else create k v o
  end.

(** [Object.keys(o)] and [Object.entries(o)] *)
Definition keys {V} (o : t V) : list string := map fst o.
Definition entries {V} (o : t V) : list (string * V) := o.
End Obj.

(** ** Values read from a dictionary of Numbers *)

Module Value.
Local Open Scope float_scope.

(** [o[k]] on a plain object whose own properties are Numbers: a Number,
    the property of that name of [Object.prototype] (a function, or for
    [__proto__] the prototype itself), or [undefined]. *)
Inductive t :=
| Undefined
| Number (x : float)
| Inherited (name : string).

(** [own] is the own property of the name, if there is one. *)
Definition read (name : string) (own : option float) : t :=
  match own with
  | Some x => Number x
  | None => if Obj.inherited name then Inherited name else Undefined
  end.

(** ToBoolean: functions and objects are truthy. *)
Definition truthy (v : t) : bool :=
  match v with
  | Undefined => false
  | Number x => Number.truthy x
  | Inherited _ => true
  end.

(** [a || b] *)
Definition or (a b : t) : t := if truthy a then a else b.

(** ToNumber: NaN for [undefined], and for a function or [Object.prototype],
    whose primitive value is a string that is no numeral. *)
Definition toNumber (v : t) : float :=
  match v with
  | Number x => x
  | Undefined | Inherited _ => nan
  end.
End Value.

(** ** The data model *)

(** An option as the caller passes it.  The engine reads [name], [cost] and
    [features]; whatever else the object holds is copied along unread. *)
Record InputOption := {
  name : string;
  cost : option float;
  features : option (list string)
}.

Record Constraints := {
  maxCost : option float;
  requiredFeatures : option (list string);
  weights : option (gmap string float)
}.

(** What [generateCriterionExplanation] returns: a text, or the property of
    [Object.prototype] that the name of the criterion designates. *)
Inductive Explanation :=
| Text (text : string)
| InheritedProperty (name : string).

Record CriterionScore := {
  raw : float;
  weighted : float;
  explanation : Explanation
}.

(** The object [scores] of an evaluated option. *)
Module Scores.

(** The own properties, and the score that an assignment to [__proto__]
    made the prototype of the object; without one the prototype is
    [Object.prototype]. *)
Record t := {
  own : Obj.t CriterionScore;
  proto : option CriterionScore
}.

(** [{}] *)
Definition empty : t := {| own := []; proto := None |}.

(** [Object.keys(scores)] and [Object.entries(scores)] *)
Definition keys (s : t) : list string := Obj.keys (own s).
Definition entries (s : t) : list (string * CriterionScore) := Obj.entries (own s).

(** The names of the own properties of a score. *)
Definition field (k : string) : bool :=
  existsb (String.eqb k) ["raw"; "weighted"; "explanation"]%string.

(** What [scores[k]] evaluates to: a score, another value (a Number or an
    explanation of the prototype score, a function of [Object.prototype],
    or [Object.prototype] itself), or [undefined]. *)
Inductive value :=
| Score (score : CriterionScore)
| Other
| Undefined.

(** The own property first, then the prototype chain. *)
Definition get (k : string) (s : t) : value :=
  match Obj.get k (own s) with
  | Some score => Score score
  | None =>
      if String.eqb k "__proto__" then
        match proto s with
        | Some score => Score score
        | None => Other
        end
      else if match proto s with Some _ => field k | None => false end then Other
      else if Obj.inherited k then Other
      else Undefined
  end.

(** The score that [scores[k]] is, if it is one. *)
Definition find (k : string) (s : t) : option CriterionScore :=
  match get k s with
  | Score score => Some score
  | Other | Undefined => None
  end.

(** [scores[k].raw]: [undefined] on a value that is no score, a TypeError
    on [undefined]. *)
Definition rawOf (k : string) (s : t) : result (option float) :=
  match get k s with
  | Score score => Ok (Some (raw score))
  | Other => Ok None
  | Undefined => Throw TypeError
  end.

(** [scores[k] = score]: an own property is overwritten; otherwise the
    name [__proto__] reaches the accessor, which makes [score] the
    prototype, and any other name becomes a new own property. *)
Definition set (k : string) (score : CriterionScore) (s : t) : t :=
  match Obj.get k (own s) with
  | Some _ => {| own := Obj.update k score (own s); proto := proto s |}
  | None =>
      if String.eqb k "__proto__" then {| own := own s; proto := Some score |}
      else {| own := Obj.create k score (own s); proto := proto s |}
  end.
End Scores.

(** [{ ...option, scores, totalScore, meetsConstraints }], a fresh object
    whose identity is [ref]. *)
Record EvaluatedOption := {
  ref : nat;
  props : InputOption;
  scores : Scores.t;
  totalScore : float;
  meetsConstraints : bool
}.

(** The two shapes [generateRecommendation] returns: [choice: null] with
    [alternatives], or a choice with its [confidence]. *)
Record Recommendation := {
  choice : option EvaluatedOption;
  reason : string;
  alternatives : option (list EvaluatedOption);
  confidence : option float
}.

Record Tradeoff := {
  hasTradeoff : bool;
  optionA : string;
  optionB : string;
  aStrengths : list string;
  bStrengths : list string;
  tradeoff_summary : string
}.

Record TopChoice := {
  top_name : string;
  top_score : string;
  keyStrength : string
}.

Record Summary := {
  totalOptions : nat;
  validOptions : nat;
  topChoices : list TopChoice;
  keyInsight : string
}.

Record ComparisonResult := {
  comparison : list EvaluatedOption;
  recommendation : Recommendation;
  tradeoffs : list Tradeoff;
  summary : Summary
}.

(** ** The engine *)

Module RefereeEngine.
Section Engine.
Local Open Scope float_scope.
Local Open Scope string_scope.

(** [random i k] is the value [Math.random()] returns in the call that
    scores option number [i] on the [k]-th entry of the criteria. *)
Variable random : nat → nat → float.
(** [Number.prototype.toFixed] *)
Variable toFixed : float → nat → string.
(** [Array.prototype.sort] with a comparator *)
Variable sort : ∀ A : Type, (A → A → float) → list A → list A.

Definition defaultWeights : gmap string float :=
  list_to_map [
    ("performance", 0.3);
    ("cost", 0.25);
    ("ease_of_use", 0.2);
    ("scalability", 0.15);
    ("community_support", 0.1)
  ].

Definition explanations (score : float) : Obj.t string := [
  ("performance",
    if Number.gt score 7 then "Excellent response times and throughput"
    else if Number.gt score 5 then "Good performance for most use cases"
    else "May have performance limitations");
  ("cost",
    if Number.gt score 7 then "Very cost-effective solution"
    else if Number.gt score 5 then "Reasonable pricing for features offered"
    else "Higher cost may impact budget");
  ("ease_of_use",
    if Number.gt score 7 then "Intuitive and well-documented"
    else if Number.gt score 5 then "Moderate learning curve"
    else "Complex setup and configuration");
  ("scalability",
    if Number.gt score 7 then "Scales seamlessly with growth"
    else if Number.gt score 5 then "Handles moderate scale well"
    else "Limited scalability options")
].

(** [explanations[criterion] || `Score: ...`].  Every entry of the table
    is a non-empty string, hence truthy, and so is the function, or the
    object, that a name inherited from [Object.prototype] designates. *)
Definition generateCriterionExplanation
    (option : InputOption) (criterion : string) (score : float) : Explanation :=
  match Obj.get criterion (explanations score) with
  | Some text => Text text
  | None =>
      if Obj.inherited criterion then InheritedProperty criterion
      else Text ("Score: " ++ toFixed score 1 ++ "/10")
  end.

(** The [weight] of [evaluateCriterion]:
    [constraints.weights?.[criterion] || this.defaultWeights[criterion] || 0.1] *)
Definition criterionWeight (constraints : Constraints) (criterion : string) : Value.t :=
  Value.or
    (Value.or
       match weights constraints with
       | Some given => Value.read criterion (given !! criterion)
       | None => Value.Undefined
       end
       (Value.read criterion (defaultWeights !! criterion)))
    (Value.Number 0.1).

(** [r] is the value of [Math.random()]. *)
Definition evaluateCriterion (r : float)
    (option : InputOption) (criterion : string) (constraints : Constraints)
    : CriterionScore :=
  let baseScore := r * 10 in
  let weight := criterionWeight constraints criterion in
  {| raw := baseScore;
     weighted := baseScore * Value.toNumber weight;
     explanation := generateCriterionExplanation option criterion baseScore |}.

Definition checkConstraints (option : InputOption) (constraints : Constraints) : bool :=
  if match maxCost constraints with
     | Some m => Number.truthy m && Number.gt_opt (cost option) m
     | None => false
     end
  then false
  else match requiredFeatures constraints with
       | Some required =>
           forallb (fun feature =>
             match features option with
             | Some present => existsb (String.eqb feature) present
             | None => false
             end) required
       | None => true
       end.

(** The loop of [evaluateOptions] over the criteria: the state is
    [scores], [totalScore] and the position in the list. *)
Definition scoreStep (i : nat) (option : InputOption) (constraints : Constraints)
    (st : Scores.t * float * nat) (criterion : string)
    : Scores.t * float * nat :=
  let '(scores, totalScore, k) := st in
  let score := evaluateCriterion (random i k) option criterion constraints in
  (Scores.set criterion score scores, totalScore + weighted score, S k).

Definition evaluateOption (criteria : list string) (constraints : Constraints)
    (i : nat) (option : InputOption) : EvaluatedOption :=
  let '(scores, totalScore, _) :=
    fold_left (scoreStep i option constraints) criteria (Scores.empty, 0, 0%nat) in
  {| ref := i;
     props := option;
     scores := scores;
     totalScore := totalScore;
     meetsConstraints := checkConstraints option constraints |}.

Definition evaluateOptions (options : list InputOption) (criteria : list string)
    (constraints : Constraints) : list EvaluatedOption :=
  imap (evaluateOption criteria constraints) options.

Definition generateRecommendationReason
    (topOption : EvaluatedOption) (allOptions : list EvaluatedOption) : string :=
  let strengths :=
    map fst (List.filter (fun '(_, score) => Number.gt (raw score) 7)
                         (Scores.entries (scores topOption))) in
  "Best overall choice due to strong " ++ String.concat ", " strengths
    ++ " with total score of " ++ toFixed (totalScore topOption) 2.

(** [(best, current) => current.totalScore > best.totalScore ? current : best] *)
Definition better (best current : EvaluatedOption) : EvaluatedOption :=
  if Number.gt (totalScore current) (totalScore best) then current else best.

(** [opt !== topOption] *)
Definition other_than (topOption opt : EvaluatedOption) : bool :=
  negb (Nat.eqb (ref opt) (ref topOption)).

Definition calculateConfidence
    (topOption : EvaluatedOption) (allOptions : list EvaluatedOption) : result float :=
  if (length allOptions <? 2)%nat then Ok 1.0
  else
    do secondBest <-
      reduce1 better (List.filter (other_than topOption) allOptions);
    let scoreDiff := totalScore topOption - totalScore secondBest in
    Ok (Number.min (0.5 + scoreDiff / 10) 1.0).

Definition generateRecommendation
    (evaluatedOptions : list EvaluatedOption) (constraints : Constraints)
    : result Recommendation :=
  let validOptions := List.filter meetsConstraints evaluatedOptions in
  if (length validOptions =? 0)%nat then
    Ok {| choice := None;
          reason := "No options meet the specified constraints";
          alternatives := Some (take 2 evaluatedOptions);
          confidence := None |}
  else
    do topOption <- reduce1 better validOptions;
    let reason := generateRecommendationReason topOption validOptions in
    do confidence <- calculateConfidence topOption validOptions;
    Ok {| choice := Some topOption;
          reason := reason;
          alternatives := None;
          confidence := Some confidence |}.

(** The body of the loop of [compareTwo] over [Object.keys(optionA.scores)];
    the state is [aStrengths] and [bStrengths]. *)
Definition strengthStep (optionA optionB : EvaluatedOption)
    (st : list string * list string) (criterion : string)
    : result (list string * list string) :=
  let '(aStrengths, bStrengths) := st in
  do a <- Scores.rawOf criterion (scores optionA);
  do b <- Scores.rawOf criterion (scores optionB);
  let aDiff := Number.orNaN a - Number.orNaN b in
  if Number.gt (abs aDiff) 1 then
    if Number.gt aDiff 0 then Ok ((aStrengths ++ [criterion])%list, bStrengths)
    else Ok (aStrengths, (bStrengths ++ [criterion])%list)
  else Ok (aStrengths, bStrengths).

Definition compareTwo (optionA optionB : EvaluatedOption) : result Tradeoff :=
  do (aStrengths, bStrengths) <-
    forEach (strengthStep optionA optionB) (Scores.keys (scores optionA)) ([], []);
  Ok {| hasTradeoff := (0 <? length aStrengths)%nat && (0 <? length bStrengths)%nat;
        optionA := name (props optionA);
        optionB := name (props optionB);
        aStrengths := aStrengths;
        bStrengths := bStrengths;
        tradeoff_summary :=
          name (props optionA) ++ " excels in " ++ String.concat ", " aStrengths
            ++ " while " ++ name (props optionB) ++ " is better for "
            ++ String.concat ", " bStrengths |}.

(** The inner loop of [analyzeTradeoffs], over [evaluatedOptions.slice(i + 1)]. *)
Definition pushTradeoff (option : EvaluatedOption)
    (tradeoffs : list Tradeoff) (other : EvaluatedOption) : result (list Tradeoff) :=
  do comparison <- compareTwo option other;
  if hasTradeoff comparison then Ok (tradeoffs ++ [comparison])%list else Ok tradeoffs.

Definition analyzeTradeoffs (evaluatedOptions : list EvaluatedOption)
    : result (list Tradeoff) :=
  forEach (fun tradeoffs '(i, option) =>
             forEach (pushTradeoff option) (drop (i + 1) evaluatedOptions) tradeoffs)
          (imap pair evaluatedOptions) [].

(** The reducer of [getKeyStrength] and of [generateKeyInsight], started
    from [{ criterion: '', score: 0 }]. *)
Definition strongest (best : string * float) (entry : string * float) : string * float :=
  if Number.gt (snd entry) (snd best) then entry else best.

Definition getKeyStrength (option : EvaluatedOption) : string :=
  let bestCriterion :=
    fold_left (fun best '(criterion, score) => strongest best (criterion, raw score))
              (Scores.entries (scores option)) ("", 0) in
  fst bestCriterion.

Definition generateKeyInsight
    (evaluatedOptions : list EvaluatedOption) (constraints : Constraints)
    : result string :=
  do first <- match evaluatedOptions !! 0%nat with
              | Some first => Ok first
              | None => Throw TypeError
              end;
  let criteria := Scores.keys (scores first) in
  do avgScores <-
    forEach (fun avgScores criterion =>
               do total <-
                 forEach (fun sum opt =>
                            do score <- Scores.rawOf criterion (scores opt);
                            Ok (sum + Number.orNaN score))
                         evaluatedOptions 0;
               Ok (Obj.set criterion
                     (total / Number.of_nat (length evaluatedOptions)) avgScores))
            criteria [];
  let strongestArea := fold_left strongest (Obj.entries avgScores) ("", 0) in
  Ok ("Overall, options perform best in " ++ fst strongestArea
        ++ " (avg: " ++ toFixed (snd strongestArea) 1 ++ "/10)").

Definition generateSummary
    (evaluatedOptions : list EvaluatedOption) (constraints : Constraints)
    : result Summary :=
  let topThree :=
    take 3 (sort _ (fun a b => totalScore b - totalScore a)
                   (List.filter meetsConstraints evaluatedOptions)) in
  let totalOptions := length evaluatedOptions in
  let validOptions := length (List.filter meetsConstraints evaluatedOptions) in
  let topChoices :=
    map (fun opt => {| top_name := name (props opt);
                       top_score := toFixed (totalScore opt) 2;
                       keyStrength := getKeyStrength opt |}) topThree in
  do keyInsight <- generateKeyInsight evaluatedOptions constraints;
  Ok {| totalOptions := totalOptions;
        validOptions := validOptions;
        topChoices := topChoices;
        keyInsight := keyInsight |}.

Definition compare (options : list InputOption) (criteria : list string)
    (constraints : Constraints) : result ComparisonResult :=
  let weights := default defaultWeights (weights constraints) in
  let evaluatedOptions := evaluateOptions options criteria constraints in
  do recommendation <- generateRecommendation evaluatedOptions constraints;
  do tradeoffs <- analyzeTradeoffs evaluatedOptions;
  do summary <- generateSummary evaluatedOptions constraints;
  Ok {| comparison := evaluatedOptions;
        recommendation := recommendation;
        tradeoffs := tradeoffs;
        summary := summary |}.
End Engine.
End RefereeEngine.

(** ** Notions the properties are stated with *)

Module Spec.
Local Open Scope float_scope.

(** [((0 + scores[c1].weighted) + scores[c2].weighted) + ...] along the
    criteria list; [None] if some [scores[c]] is missing. *)
Fixpoint sumWeighted (scores : Scores.t) (criteria : list string)
    (acc : float) : option float :=
  match criteria with
  | [] => Some acc
  | c :: criteria' =>
      match Scores.find c scores with
      | Some score => sumWeighted scores criteria' (acc + weighted score)
      | None => None
      end
  end.

(** The sum invariant of an evaluated option. *)
Definition sumInvariant (criteria : list string) (e : EvaluatedOption) : Prop :=
  sumWeighted (scores e) criteria 0 = Some (totalScore e).

(** The pairs [(l[i], l[j])] with [i < j], by [i] and then by [j]. *)
Fixpoint pairs {A} (l : list A) : list (A * A) :=
  match l with
  | [] => []
  | x :: l' => map (pair x) l' ++ pairs l'
  end.

(** [raw(A, c) - raw(B, c)] *)
Definition rawDiff (A B : EvaluatedOption) (c : string) : option float :=
  match Scores.find c (scores A), Scores.find c (scores B) with
  | Some a, Some b => Some (raw a - raw b)
  | _, _ => None
  end.

(** [X]'s raw score exceeds [Y]'s by strictly more than 1 on criterion [c]. *)
Definition leads (X Y : EvaluatedOption) (c : string) : bool :=
  match rawDiff X Y c with
  | Some d => 1 <? d
  | None => false
  end.

(** [|raw(A, c) - raw(B, c)| > 1] *)
Definition differs (A B : EvaluatedOption) (c : string) : bool :=
  match rawDiff A B c with
  | Some d => 1 <? abs d
  | None => false
  end.

(** The record of the pair as the specification describes it: the criteria
    of [A.scores] on which [A] leads and those on which [B] leads, and a
    trade-off when neither list is empty. *)
Definition expectedTradeoff (A B : EvaluatedOption) : Tradeoff :=
  let criteria := Scores.keys (scores A) in
  let strengthsA := List.filter (leads A B) criteria in
  let strengthsB := List.filter (leads B A) criteria in
  {| hasTradeoff := existsb (leads A B) criteria && existsb (leads B A) criteria;
     optionA := name (props A);
     optionB := name (props B);
     aStrengths := strengthsA;
     bStrengths := strengthsB;
     tradeoff_summary :=
       (name (props A) ++ " excels in " ++ String.concat ", " strengthsA
          ++ " while " ++ name (props B) ++ " is better for "
          ++ String.concat ", " strengthsB)%string |}.

(** Every option carries a score for every criterion any of them was scored
    on, as the options [evaluateOptions] returns do. *)
Definition sameCriteria (l : list EvaluatedOption) : Prop :=
  ∀ A B c, A ∈ l → B ∈ l → In c (Scores.keys (scores A)) → is_Some (Scores.find c (scores B)).

(** The entries of the list are distinct objects. *)
Definition distinct (l : list EvaluatedOption) : Prop := NoDup (map ref l).

(** The options that meet the constraints, in the order of the list. *)
Definition valid (l : list EvaluatedOption) : list EvaluatedOption :=
  List.filter meetsConstraints l.

(** [top] is a valid option of [l] that no valid option outscores, and the
    valid options before it in [l] score strictly less. *)
Definition firstBestValid (l : list EvaluatedOption) (top : EvaluatedOption) : Prop :=
  ∃ l1 l2,
    l = l1 ++ top :: l2 ∧ meetsConstraints top = true
    ∧ (∀ o, o ∈ l1 → meetsConstraints o = true → (totalScore o <? totalScore top) = true)
    ∧ (∀ o, o ∈ l2 → meetsConstraints o = true → (totalScore o <=? totalScore top) = true).

(** The constraints with [maxCost] set to [m]. *)
Definition withMaxCost (m : option float) (constraints : Constraints) : Constraints :=
  {| maxCost := m;
     requiredFeatures := requiredFeatures constraints;
     weights := weights constraints |}.

(** [1/|criteria|] *)
Definition reciprocalWeight (criteria : list string) : float :=
  1 / Number.of_nat (length criteria).

(** The size of the valid set. *)
Definition validCount (options : list InputOption) (constraints : Constraints) : nat :=
  length (List.filter (fun o => RefereeEngine.checkConstraints o constraints) options).
End Spec.

(** ** A comparison to evaluate

    The options and the criteria of the general comparison of test.js, with a
    fixed run of [Math.random]. *)

Module Sample.
Local Open Scope float_scope.
Local Open Scope string_scope.

Definition optionA : InputOption :=
  {| name := "Option A"; cost := Some 100; features := None |}.
Definition optionB : InputOption :=
  {| name := "Option B"; cost := Some 150; features := None |}.
Definition optionC : InputOption :=
  {| name := "Option C"; cost := Some 80; features := None |}.

Definition options : list InputOption := [optionA; optionB; optionC].

Definition criteria : list string := ["performance"; "cost"; "ease_of_use"].

Definition noConstraints : Constraints :=
  {| maxCost := None; requiredFeatures := None; weights := None |}.

(** Options B and C draw the same values, and so tie. *)
Definition random (i k : nat) : float :=
  match i, k with
  | 0%nat, 0%nat => 0.25
  | 0%nat, 1%nat => 0.5
  | 0%nat, _ => 0.625
  | _, 0%nat => 0.875
  | _, 1%nat => 0.125
  | _, _ => 0.5
  end.

(** Stand-ins for [toFixed] and [sort], of which no property is used. *)
Definition toFixed (x : float) (digits : nat) : string := "".

Fixpoint insert {A} (compareFn : A → A → float) (x : A) (l : list A) : list A :=
  match l with
  | [] => [x]
  | y :: l' =>
      if Number.gt (compareFn x y) 0 then y :: insert compareFn x l' else x :: l
  end.

Definition sort (A : Type) (compareFn : A → A → float) (l : list A) : list A :=
  fold_right (insert compareFn) [] l.

Definition evaluated : list EvaluatedOption :=
  RefereeEngine.evaluateOptions random toFixed options criteria noConstraints.

(** The same options when none is within the budget. *)
Definition overBudget : list EvaluatedOption :=
  RefereeEngine.evaluateOptions random toFixed options criteria
    (Spec.withMaxCost (Some 50) noConstraints).
End Sample.

(** ** The caller of the engine

    [Referee.compareOptions] (index.js) hands its arguments on to
    [engine.compare]. *)

(** An argument that may be left out ([undefined]) or be [null]. *)
Inductive argument (A : Type) : Type :=
| Undefined
| Null
| Given (a : A).
Arguments Undefined {A}.
Arguments Null {A}.
Arguments Given {A} a.

Module Referee.
Section Referee.
Variable random : nat → nat → float.
Variable toFixed : float → nat → string.
Variable sort : ∀ A : Type, (A → A → float) → list A → list A.

(** [{}] *)
Definition empty : Constraints :=
  {| maxCost := None; requiredFeatures := None; weights := None |}.

(** A parameter declared [constraints = {}]: the default stands in for
    [undefined] only, [null] goes through. *)
Definition orEmpty (constraints : argument Constraints) : argument Constraints :=
  match constraints with
  | Undefined => Given empty
  | _ => constraints
  end.

(** [engine.compare(options, criteria, constraints)] as a caller reaches it:
    on [null] the first statement, which reads [constraints.weights], throws. *)
Definition engineCompare (options : list InputOption) (criteria : list string)
    (constraints : argument Constraints) : result ComparisonResult :=
  match orEmpty constraints with
  | Given constraints => RefereeEngine.compare random toFixed sort options criteria constraints
  | _ => Throw TypeError
  end.

Definition compareOptions (options : list InputOption) (criteria : list string)
    (constraints : argument Constraints) : result ComparisonResult :=
  engineCompare options criteria (orEmpty constraints).
End Referee.
End Referee.

(** ** Further notions *)

Module Notions.
Local Open Scope float_scope.

(** [raw * weight] of the score of [criterion] drawn at position [k]. *)
Definition weightedAt (random : nat → nat → float) (toFixed : float → nat → string)
    (i : nat) (option : InputOption) (constraints : Constraints)
    (k : nat) (criterion : string) : float :=
  weighted (RefereeEngine.evaluateCriterion toFixed (random i k) option criterion constraints).

(** [B] has a score for every criterion of [A.scores]. *)
Definition covers (A B : EvaluatedOption) : Prop :=
  ∀ c, In c (Scores.keys (scores A)) → is_Some (Scores.find c (scores B)).

(** For every criterion of [A.scores], [B.scores[criterion]] is other than
    [undefined]. *)
Definition defined (A B : EvaluatedOption) : Prop :=
  ∀ c, In c (Scores.keys (scores A)) → Scores.get c (scores B) ≠ Scores.Undefined.

(** The record of [B] against [A] is the record of [A] against [B] with the
    two sides exchanged. *)
Definition mirrored (t t' : Tradeoff) : Prop :=
  hasTradeoff t' = hasTradeoff t
  ∧ optionA t' = optionB t ∧ optionB t' = optionA t
  ∧ aStrengths t' = bStrengths t ∧ bStrengths t' = aStrengths t.

(** Every required feature is among the features of the option. *)
Definition hasFeatures (option : InputOption) (required : list string) : Prop :=
  ∀ feature, In feature required →
    ∃ present, features option = Some present ∧ In feature present.

(** The constraints with [requiredFeatures] set to [required]. *)
Definition withFeatures (required : option (list string)) (constraints : Constraints)
    : Constraints :=
  {| maxCost := maxCost constraints;
     requiredFeatures := required;
     weights := weights constraints |}.

(** A record with strengths on both sides, and no criterion on both. *)
Definition twoSided (t : Tradeoff) : Prop :=
  hasTradeoff t = true ∧ aStrengths t ≠ [] ∧ bStrengths t ≠ []
  ∧ ∀ c, In c (aStrengths t) → ¬ In c (bStrengths t).
End Notions.

(** ** More comparisons to evaluate *)

Module Cases.
Local Open Scope float_scope.
Local Open Scope string_scope.

Definition managed : InputOption :=
  {| name := "Managed"; cost := Some 120; features := Some ["sso"; "backup"; "audit"] |}.

Definition needsAll : Constraints :=
  {| maxCost := Some 200;
     requiredFeatures := Some ["sso"; "backup"];
     weights := None |}.

(** Weights from the caller, one of them 0. *)
Definition ownWeights : Constraints :=
  {| maxCost := None;
     requiredFeatures := None;
     weights := Some (list_to_map [("performance", 1); ("cost", 0)]) |}.

(** The first option draws high, the others low. *)
Definition random (i k : nat) : float :=
  match i with
  | 0%nat => 0.875
  | _ => 0.125
  end.

(** One option far ahead of the other. *)
Definition decisive : list EvaluatedOption :=
  RefereeEngine.evaluateOptions random Sample.toFixed
    [Sample.optionA; Sample.optionB] ["performance"] ownWeights.

(** Weights so large that a weighted score overflows, with opposite signs. *)
Definition opposedWeights : Constraints :=
  {| maxCost := None;
     requiredFeatures := None;
     weights := Some (list_to_map [("performance", 1e308); ("cost", -1e308)]) |}.

(** The first option draws 0.5 throughout, the others 0. *)
Definition halfThenZero (i k : nat) : float :=
  match i with
  | 0%nat => 0.5
  | _ => 0
  end.

(** One weight so large that the weighted scores overflow. *)
Definition hugeWeight : Constraints :=
  {| maxCost := None;
     requiredFeatures := None;
     weights := Some (list_to_map [("performance", 1e308)]) |}.

(** Every draw is 0.5. *)
Definition half (i k : nat) : float := 0.5.

(** The same evaluated object listed twice. *)
Definition twice : list EvaluatedOption :=
  let e := RefereeEngine.evaluateOption Sample.random Sample.toFixed
             Sample.criteria Sample.noConstraints 0 Sample.optionA in
  [e; e].
End Cases.

(** ** The order of binary64 numbers

    [SFcompare], which specifies the comparisons of the primitive floats,
    orders the numbers other than NaN by sign, then exponent, then mantissa. *)

Module SF.
Import Binary64.
Lemma compare_key x y :
  isNaN x = false → isNaN y = false →
  SFcompare x y = Some (lex (key x) (key y)).
Proof.
  destruct x as [sx|sx| |sx mx ex], y as [sy|sy| |sy my ey];
    try discriminate; intros _ _; simpl;
    try destruct sx; try destruct sy; try reflexivity.
  - unfold lex. rewrite Z.compare_refl, Z.compare_opp, (Z.compare_antisym ex ey).
    destruct (ex ?= ey)%Z; reflexivity.
Qed.

Lemma lex_refl a : lex a a = Eq.
Proof. destruct a as [[a1 a2] a3]; simpl. now rewrite !Z.compare_refl. Qed.

Lemma lex_antisym a b : lex b a = CompOpp (lex a b).
Proof.
  destruct a as [[a1 a2] a3], b as [[b1 b2] b3]; simpl.
  rewrite (Z.compare_antisym a1 b1), (Z.compare_antisym a2 b2), (Z.compare_antisym a3 b3).
  destruct (a1 ?= b1)%Z, (a2 ?= b2)%Z, (a3 ?= b3)%Z; reflexivity.
Qed.

Ltac lex_cases :=
  repeat match goal with
  | |- context [(?a ?= ?b)%Z] => destruct (Z.compare_spec a b)
  | H : context [(?a ?= ?b)%Z] |- _ => destruct (Z.compare_spec a b)
  end; try discriminate; try reflexivity; try lia.

(** [lex] is a total preorder: a strict step on either side of a chain
    makes the whole chain strict. *)
Lemma lex_le_lt_trans a b c : lex a b ≠ Gt → lex b c = Lt → lex a c = Lt.
Proof.
  destruct a as [[a1 a2] a3], b as [[b1 b2] b3], c as [[c1 c2] c3]; simpl.
  intros H1 H2. lex_cases; congruence.
Qed.

Lemma lex_lt_le_trans a b c : lex a b = Lt → lex b c ≠ Gt → lex a c = Lt.
Proof.
  destruct a as [[a1 a2] a3], b as [[b1 b2] b3], c as [[c1 c2] c3]; simpl.
  intros H1 H2. lex_cases; congruence.
Qed.

Lemma compare_nan x y : isNaN x || isNaN y = true → SFcompare x y = None.
Proof. destruct x as [| | |[]], y as [| | |[]]; simpl; try discriminate; reflexivity. Qed.
End SF.

(** ** Signs and rounding of binary64 arithmetic

    What the score gap and the confidence need of [SFsub], [SFdiv] and
    [SFadd], the specifications of the primitive operations. *)

Module SFArith.
Import Binary64.
Local Open Scope Z_scope.

Lemma digits2_pos_bounds m :
  2 ^ (Zpos (digits2_pos m) - 1) ≤ Zpos m < 2 ^ Zpos (digits2_pos m).
Proof.
  induction m as [m IH|m IH|]; simpl digits2_pos.
  - rewrite Pos2Z.inj_succ, Z.pow_succ_r by lia.
    replace (Z.succ (Zpos (digits2_pos m)) - 1) with (Z.succ (Zpos (digits2_pos m) - 1)) by lia.
    rewrite Z.pow_succ_r by lia. lia.
  - rewrite Pos2Z.inj_succ, Z.pow_succ_r by lia.
    replace (Z.succ (Zpos (digits2_pos m)) - 1) with (Z.succ (Zpos (digits2_pos m) - 1)) by lia.
    rewrite Z.pow_succ_r by lia. lia.
  - simpl. lia.
Qed.

Lemma digits2_pos_unique m k :
  2 ^ (k - 1) ≤ Zpos m < 2 ^ k → Zpos (digits2_pos m) = k.
Proof.
  intros [Hlo Hhi]. pose proof (digits2_pos_bounds m) as [Dlo Dhi].
  assert (0 < k).
  { destruct (Z.lt_trichotomy k 0) as [?|[->|?]]; [|simpl in Hhi; lia|assumption].
    rewrite Z.pow_neg_r in Hhi by assumption. lia. }
  destruct (Z.lt_trichotomy (Zpos (digits2_pos m)) k) as [Hlt|[?|Hgt]]; [|assumption|].
  - assert (2 ^ Zpos (digits2_pos m) ≤ 2 ^ (k - 1)) by (apply Z.pow_le_mono_r; lia). lia.
  - assert (2 ^ k ≤ 2 ^ (Zpos (digits2_pos m) - 1)) by (apply Z.pow_le_mono_r; lia). lia.
Qed.

Lemma iter_xO m d : Zpos (Pos.iter xO m d) = Zpos m * 2 ^ Zpos d.
Proof.
  change (Pos.iter xO m d) with (shift_pos d m).
  rewrite shift_pos_correct, Z.pow_pos_fold. lia.
Qed.

(** Aligning a mantissa to a smaller exponent keeps the value. *)
Lemma shl_align_value m e e' :
  e' ≤ e → Zpos (fst (shl_align m e e')) = Zpos m * 2 ^ (e - e').
Proof.
  intros H. unfold shl_align. destruct (e' - e) as [|d|d] eqn:E; simpl.
  - replace (e - e') with 0 by lia. simpl. lia.
  - lia.
  - rewrite iter_xO. f_equal. f_equal. lia.
Qed.

Lemma shr_1_m r : 0 ≤ shr_m r → shr_m (shr_1 r) = shr_m r / 2.
Proof.
  destruct r as [m rb sb]. simpl. intros H.
  destruct m as [|[p|p|]|p]; cbn [shr_m]; try lia; try reflexivity.
  - apply Z.div_unique with 1; lia.
  - apply Z.div_unique with 0; lia.
Qed.

Lemma iter_shr_1_m p : ∀ r, 0 ≤ shr_m r → shr_m (SpecFloat.iter_pos shr_1 p r) = shr_m r / 2 ^ Zpos p.
Proof.
  assert (∀ q, 0 < 2 ^ Zpos q) as Hpow by (intros; apply Z.pow_pos_nonneg; lia).
  induction p as [p IH|p IH|]; intros r Hr; simpl SpecFloat.iter_pos.
  - pose proof (Hpow p).
    assert (0 ≤ shr_m (shr_1 r)) by (rewrite shr_1_m by assumption; apply Z.div_pos; lia).
    assert (0 ≤ shr_m (SpecFloat.iter_pos shr_1 p (shr_1 r))) by (rewrite IH by assumption; apply Z.div_pos; lia).
    rewrite !IH, shr_1_m by assumption.
    rewrite !Z.div_div by lia. f_equal.
    replace (Zpos p~1) with (1 + Zpos p + Zpos p) by lia.
    rewrite !Z.pow_add_r by lia. change (2 ^ 1) with 2. ring.
  - pose proof (Hpow p).
    assert (0 ≤ shr_m (SpecFloat.iter_pos shr_1 p r)) by (rewrite IH by assumption; apply Z.div_pos; lia).
    rewrite !IH by assumption. rewrite Z.div_div by lia. f_equal.
    replace (Zpos p~0) with (Zpos p + Zpos p) by lia.
    now rewrite Z.pow_add_r by lia.
  - now apply shr_1_m.
Qed.

Lemma shr_spec r e n :
  0 ≤ shr_m r →
  shr_m (fst (shr r e n)) = shr_m r / 2 ^ Z.max 0 n ∧ snd (shr r e n) = e + Z.max 0 n.
Proof.
  intros H. destruct n as [|p|p]; simpl.
  - rewrite Z.div_1_r. lia.
  - split; [now apply iter_shr_1_m | lia].
  - rewrite Z.div_1_r. lia.
Qed.

Lemma shr_record_of_loc_m m l : shr_m (shr_record_of_loc m l) = m.
Proof. now destruct l as [|[]]. Qed.

(** Shifting a mantissa to the exponent of its format. *)
Lemma shr_fexp_spec m e l r e' :
  0 ≤ m → shr_fexp prec emax m e l = (r, e') →
  let n := Z.max 0 (fexp prec emax (Zdigits2 m + e) - e) in
  shr_m r = m / 2 ^ n ∧ e' = e + n.
Proof.
  intros Hm E. unfold shr_fexp in E.
  destruct (shr_spec (shr_record_of_loc m l) e (fexp prec emax (Zdigits2 m + e) - e)) as [H1 H2].
  { now rewrite shr_record_of_loc_m. }
  rewrite E, shr_record_of_loc_m in *. now simpl in *.
Qed.

Lemma round_nearest_even_bounds m l :
  m ≤ round_nearest_even m l ≤ m + 1.
Proof. destruct l as [|[]]; simpl; try destruct (Z.even m); lia. Qed.

(** Rounding a mantissa that is not negative gives no negative number. *)
Lemma binary_round_aux_nonneg m e l :
  0 ≤ m → nonneg (binary_round_aux prec emax false m e l) = true.
Proof.
  intros Hm. unfold binary_round_aux.
  destruct (shr_fexp prec emax m e l) as [r1 e1] eqn:E1.
  destruct (shr_fexp_spec _ _ _ _ _ Hm E1) as [H1 _].
  assert (0 ≤ shr_m r1) as Hr1.
  { rewrite H1. apply Z.div_pos; [assumption|]. apply Z.pow_pos_nonneg; lia. }
  pose proof (round_nearest_even_bounds (shr_m r1) (loc_of_shr_record r1)) as Hrne.
  destruct (shr_fexp prec emax (round_nearest_even _ _) e1 loc_Exact) as [r2 e2] eqn:E2.
  apply shr_fexp_spec in E2 as [H2 _]; [|lia].
  assert (0 ≤ shr_m r2) as Hr2.
  { rewrite H2. apply Z.div_pos; [lia|]. apply Z.pow_pos_nonneg; lia. }
  destruct (shr_m r2); [reflexivity | now destruct (_ <=? _) | lia].
Qed.

Lemma binary_normalize_nonneg m e :
  0 ≤ m → nonneg (binary_normalize prec emax m e false) = true.
Proof.
  intros Hm. destruct m as [|p|p]; simpl; [reflexivity | | lia].
  unfold binary_round. destruct (shl_align _ _ _) as [mz ez].
  now apply binary_round_aux_nonneg.
Qed.

(** What [valid_binary] says of a binary64 mantissa and exponent: at most 53
    digits, and exactly 53 above the least exponent. *)
Lemma valid_finite s m e :
  valid_binary (S754_finite s m e) = true →
  -1074 ≤ e ∧ Zpos (digits2_pos m) ≤ 53 ∧ (-1074 < e → Zpos (digits2_pos m) = 53).
Proof.
  unfold SpecFloat.valid_binary, bounded, canonical_mantissa, fexp, SpecFloat.emin, prec, emax.
  intros [H _]%andb_prop. apply Z.eqb_eq in H. lia.
Qed.

(** Among valid numbers the order by exponent, then mantissa, is the order
    of the mantissas aligned to the smaller exponent. *)
Lemma aligned_le s1 m1 e1 s2 m2 e2 ez :
  valid_binary (S754_finite s1 m1 e1) = true →
  valid_binary (S754_finite s2 m2 e2) = true →
  e1 < e2 ∨ (e1 = e2 ∧ Zpos m1 ≤ Zpos m2) →
  ez = Z.min e1 e2 →
  Zpos (fst (shl_align m1 e1 ez)) ≤ Zpos (fst (shl_align m2 e2 ez)).
Proof.
  intros (L1 & D1 & _)%valid_finite (_ & _ & F2)%valid_finite H ->.
  rewrite !shl_align_value by lia.
  destruct H as [Hlt|[-> Hle]].
  - rewrite Z.min_l by lia. rewrite Z.sub_diag, Z.mul_1_r.
    pose proof (digits2_pos_bounds m1) as [_ U1].
    pose proof (digits2_pos_bounds m2) as [L2 _].
    rewrite F2 in L2 by lia. change (2 ^ (53 - 1)) with 4503599627370496 in L2.
    assert (Zpos m1 < 9007199254740992).
    { eapply Z.lt_le_trans; [exact U1|]. change 9007199254740992 with (2 ^ 53).
      apply Z.pow_le_mono_r; lia. }
    assert (2 ^ 1 ≤ 2 ^ (e2 - e1)) by (apply Z.pow_le_mono_r; lia).
    change (2 ^ 1) with 2 in *. nia.
  - rewrite Z.min_id, Z.sub_diag. lia.
Qed.

Ltac sf_compare_cases :=
  repeat match goal with
  | H : context [(?a ?= ?b)%Z] |- _ => destruct (Z.compare_spec a b)
  | H : context [Pos.compare_cont Eq ?a ?b] |- _ =>
      change (Pos.compare_cont Eq a b) with (a ?= b)%positive in H;
      destruct (Pos.compare_spec a b)
  end.

(** [x - y] is not negative when [y <= x], for finite [x] and [y]. *)
Lemma SFsub_nonneg x y :
  valid_binary x = true → valid_binary y = true →
  finite x = true → finite y = true →
  SFleb y x = true →
  nonneg (SF64sub x y) = true.
Proof.
  intros Vx Vy Fx Fy Hle. unfold SFleb in Hle.
  destruct x as [sx|sx| |sx mx ex], y as [sy|sy| |sy my ey]; try discriminate.
  - now destruct sx, sy.
  - simpl in *. now destruct sy.
  - simpl in *. now destruct sx.
  - unfold SF64sub, SFsub. apply binary_normalize_nonneg.
    destruct sx, sy; simpl in *; try discriminate.
    + (* both negative: the mantissas compare the other way round *)
      enough (Zpos (fst (shl_align mx ex (Z.min ex ey)))
                ≤ Zpos (fst (shl_align my ey (Z.min ex ey)))) by lia.
      apply aligned_le with true true; try assumption; [|reflexivity].
      sf_compare_cases; try discriminate; subst; lia.
    + enough (Zpos (fst (shl_align my ey (Z.min ex ey)))
                ≤ Zpos (fst (shl_align mx ex (Z.min ex ey)))) by lia.
      apply aligned_le with false false; try assumption; [|apply Z.min_comm].
      sf_compare_cases; try discriminate; subst; lia.
Qed.

(** Dividing by a positive number keeps a number that is not negative so. *)
Lemma SFdiv_nonneg x my ey :
  nonneg x = true → nonneg (SF64div x (S754_finite false my ey)) = true.
Proof.
  destruct x as [sx|[]| |[] mx ex]; try discriminate; intros _; try reflexivity.
  unfold SF64div, SFdiv. 
  destruct (SFdiv_core_binary _ _ _ _ _ _) as [[mz ez] lz] eqn:E. simpl xorb.
  apply binary_round_aux_nonneg.
  unfold SFdiv_core_binary in E.
  set (m' := match _ with Zpos _ => _ | Z0 => _ | Zneg _ => _ end) in E.
  assert (0 ≤ m') as Hm'.
  { subst m'. destruct (_ - _ - _); [lia | apply Z.shiftl_nonneg; lia | lia]. }
  pose proof (Z.div_pos m' (Zpos my) Hm' eq_refl) as Hq.
  unfold Z.div in Hq. destruct (Z.div_eucl m' (Zpos my)) as [q r].
  now injection E as <- _ _.
Qed.

Lemma half_leb_finite p e :
  -53 < e ∨ (e = -53 ∧ 4503599627370496 ≤ Zpos p) →
  SFleb half (S754_finite false p e) = true.
Proof.
  intros H. unfold SFleb, half, SFcompare.
  remember 4503599627370496%positive as h eqn:Eh.
  destruct (Z.compare_spec (-53) e); [|reflexivity|lia].
  change (Pos.compare_cont Eq h p) with (h ?= p)%positive.
  destruct (Pos.compare_spec h p); [reflexivity|reflexivity|lia].
Qed.

(** Rounding a mantissa of at least 53 digits whose value is at least 0.5
    gives at least 0.5. *)
Lemma binary_round_aux_ge_half m e l :
  53 ≤ Zpos (digits2_pos m) → 0 ≤ Zpos (digits2_pos m) + e →
  SFleb half (binary_round_aux prec emax false (Zpos m) e l) = true.
Proof.
  intros Hd He. unfold binary_round_aux.
  pose proof (digits2_pos_bounds m) as [Lm Um].
  set (d := Zpos (digits2_pos m)) in *.
  destruct (shr_fexp prec emax (Zpos m) e l) as [r1 e1] eqn:E1.
  apply shr_fexp_spec in E1 as [H1 ->]; [|lia].
  simpl Zdigits2 in *. fold d in H1 |- *.
  assert (Z.max 0 (fexp prec emax (d + e) - e) = d - 53) as En
    by (unfold fexp, SpecFloat.emin, prec, emax; lia).
  rewrite En in *.
  (* the shifted mantissa has exactly 53 digits *)
  assert (0 < 2 ^ (d - 53)) as Hpow by (apply Z.pow_pos_nonneg; lia).
  assert (4503599627370496 ≤ shr_m r1 < 9007199254740992) as [L1 U1].
  { rewrite H1. split.
    - apply Z.div_le_lower_bound; [assumption|].
      change 4503599627370496 with (2 ^ 52). rewrite <- Z.pow_add_r by lia.
      now replace (d - 53 + 52) with (d - 1) by lia.
    - apply Z.div_lt_upper_bound; [assumption|].
      change 9007199254740992 with (2 ^ 53). rewrite <- Z.pow_add_r by lia.
      now replace (d - 53 + 53) with d by lia. }
  pose proof (round_nearest_even_bounds (shr_m r1) (loc_of_shr_record r1)) as [L2 U2].
  set (m2 := round_nearest_even _ _) in *.
  destruct (shr_fexp prec emax m2 (e + (d - 53)) loc_Exact) as [r2 e2] eqn:E2.
  apply shr_fexp_spec in E2 as [H2 ->]; [|lia].
  destruct m2 as [|p2|p2]; [lia| |lia]. simpl Zdigits2 in *.
  destruct (Z.eq_dec (Zpos p2) 9007199254740992) as [E|N].
  - (* the rounding carried into a 54th digit *)
    assert (Zpos (digits2_pos p2) = 54) as D2
      by (apply digits2_pos_unique; rewrite E; simpl; lia).
    rewrite D2 in *.
    assert (Z.max 0 (fexp prec emax (54 + (e + (d - 53))) - (e + (d - 53))) = 1) as En2
      by (unfold fexp, SpecFloat.emin, prec, emax; lia).
    rewrite En2, E in *. change (9007199254740992 / 2 ^ 1) with 4503599627370496 in H2.
    rewrite H2. destruct (_ <=? _); [|reflexivity].
    apply half_leb_finite. lia.
  - assert (Zpos (digits2_pos p2) = 53) as D2
      by (apply digits2_pos_unique; simpl; lia).
    rewrite D2 in *.
    assert (Z.max 0 (fexp prec emax (53 + (e + (d - 53))) - (e + (d - 53))) = 0) as En2
      by (unfold fexp, SpecFloat.emin, prec, emax; lia).
    rewrite En2, Z.div_1_r in *.
    rewrite H2. destruct (_ <=? _); [|reflexivity].
    apply half_leb_finite. lia.
Qed.

(** [0.5 + y] is at least 0.5 when [y] is not negative. *)
Lemma SFadd_half_ge y :
  nonneg y = true → SFleb half (SF64add half y) = true.
Proof.
  destruct y as [sy|[]| |[] my ey]; try discriminate; intros _; try reflexivity.
  unfold SF64add, SFadd, half.
  set (ez := Z.min (-53) ey).
  pose proof (shl_align_value 4503599627370496 (-53) ez ltac:(lia)) as Hh.
  pose proof (shl_align_value my ey ez ltac:(lia)) as Hy.
  simpl cond_Zopp. rewrite <- Pos2Z.inj_add.
  set (M := (fst (shl_align 4503599627370496 (-53) ez) + fst (shl_align my ey ez))%positive).
  assert (2 ^ (-1 - ez) < Zpos M) as HM.
  { subst M. rewrite Pos2Z.inj_add, Hh. change 4503599627370496 with (2 ^ 52).
    rewrite <- Z.pow_add_r by lia. replace (52 + (-53 - ez)) with (-1 - ez) by lia. lia. }
  pose proof (digits2_pos_bounds M) as [_ UM].
  assert (- ez ≤ Zpos (digits2_pos M)) as HdM.
  { destruct (Z.le_gt_cases (- ez) (Zpos (digits2_pos M))); [assumption|].
    assert (2 ^ Zpos (digits2_pos M) ≤ 2 ^ (-1 - ez)) by (apply Z.pow_le_mono_r; lia). lia. }
  simpl binary_normalize. unfold binary_round.
  assert (shl_align M ez (fexp prec emax (Zpos (digits2_pos M) + ez)) = (M, ez)) as ->.
  { unfold shl_align.
    assert (0 ≤ fexp prec emax (Zpos (digits2_pos M) + ez) - ez) as Hn
      by (unfold fexp, SpecFloat.emin, prec, emax; lia).
    destruct (fexp prec emax (Zpos (digits2_pos M) + ez) - ez);
      [reflexivity|reflexivity|lia]. }
  apply binary_round_aux_ge_half; lia.
Qed.

(** Rounding is symmetric in the sign. *)
Lemma binary_round_aux_opp m e l :
  binary_round_aux prec emax true m e l = SFopp (binary_round_aux prec emax false m e l).
Proof.
  unfold binary_round_aux.
  destruct (shr_fexp prec emax m e l) as [r1 e1].
  destruct (shr_fexp prec emax _ e1 loc_Exact) as [r2 e2].
  destruct (shr_m r2); [reflexivity | now destruct (_ <=? _) | reflexivity].
Qed.

Lemma binary_normalize_opp m e :
  m ≠ 0 →
  binary_normalize prec emax (- m) e false = SFopp (binary_normalize prec emax m e false).
Proof.
  intros Hm. destruct m as [|p|p]; [congruence| |]; simpl; unfold binary_round;
    destruct (shl_align _ _ _) as [mz ez]; rewrite binary_round_aux_opp.
  - reflexivity.
  - now destruct (binary_round_aux prec emax false (Zpos mz) ez loc_Exact) as [[]|[]| |[]].
Qed.

(** [y - x] is the opposite of [x - y], or both are [+0]. *)
Lemma SFsub_swap x y :
  SF64sub y x = SFopp (SF64sub x y)
  ∨ (SF64sub y x = S754_zero false ∧ SF64sub x y = S754_zero false).
Proof.
  destruct x as [sx|sx| |sx mx ex], y as [sy|sy| |sy my ey];
    try (left; reflexivity);
    try (destruct sx, sy; (left; reflexivity) || (right; split; reflexivity)).
  unfold SF64sub, SFsub. rewrite (Z.min_comm ey ex).
  set (a := cond_Zopp sx (Zpos (fst (shl_align mx ex (Z.min ex ey))))).
  set (b := cond_Zopp sy (Zpos (fst (shl_align my ey (Z.min ex ey))))).
  destruct (Z.eq_dec (a - b) 0) as [E|N].
  - right. replace (b - a) with 0 by lia. rewrite E. split; reflexivity.
  - left. replace (b - a) with (- (a - b)) by lia. now apply binary_normalize_opp.
Qed.

Lemma SFcompare_opp x y : SFcompare (SFopp x) (SFopp y) = SFcompare y x.
Proof.
  destruct x as [[]|[]| |[] mx ex], y as [[]|[]| |[] my ey]; try reflexivity; simpl;
    rewrite (Z.compare_antisym ex ey);
    change (Pos.compare_cont Eq mx my) with (mx ?= my)%positive;
    change (Pos.compare_cont Eq my mx) with (my ?= mx)%positive;
    rewrite (Pos.compare_antisym mx my);
    destruct (ex ?= ey), (mx ?= my)%positive; reflexivity.
Qed.

(** [y - x < -c] exactly when [c < x - y], for a positive [c]. *)
Lemma SFsub_swap_ltb x y (h : positive) (e : Z) :
  SFltb (SF64sub y x) (S754_finite true h e) = SFltb (S754_finite false h e) (SF64sub x y).
Proof.
  unfold SFltb. destruct (SFsub_swap x y) as [->|[-> ->]]; [|reflexivity].
  change (S754_finite true h e) with (SFopp (S754_finite false h e)).
  now rewrite SFcompare_opp.
Qed.
End SFArith.

Module Float64.
Local Open Scope float_scope.

Lemma is_nan_spec x : is_nan x = Binary64.isNaN (Prim2SF x).
Proof.
  unfold is_nan. rewrite FloatAxioms.eqb_spec. unfold SFeqb.
  destruct (Binary64.isNaN (Prim2SF x)) eqn:E.
  - rewrite SF.compare_nan; [reflexivity | now rewrite E].
  - rewrite SF.compare_key, SF.lex_refl by assumption. reflexivity.
Qed.

Lemma compare_by_key x y :
  is_nan x = false → is_nan y = false →
  SFcompare (Prim2SF x) (Prim2SF y) = Some (Binary64.lex (Binary64.rank x) (Binary64.rank y)).
Proof. rewrite !is_nan_spec. apply SF.compare_key. Qed.

Lemma compare_with_nan x y :
  is_nan x || is_nan y = true → SFcompare (Prim2SF x) (Prim2SF y) = None.
Proof. rewrite !is_nan_spec. apply SF.compare_nan. Qed.

Lemma ltb_true x y :
  (x <? y) = true ↔ is_nan x = false ∧ is_nan y = false ∧ Binary64.lex (Binary64.rank x) (Binary64.rank y) = Lt.
Proof.
  rewrite FloatAxioms.ltb_spec. unfold SFltb.
  destruct (is_nan x) eqn:Ex; [|destruct (is_nan y) eqn:Ey].
  - rewrite compare_with_nan by now rewrite Ex. intuition discriminate.
  - rewrite compare_with_nan by (rewrite Ey; apply orb_true_r). intuition discriminate.
  - rewrite compare_by_key by assumption.
    destruct (Binary64.lex (Binary64.rank x) (Binary64.rank y)); intuition discriminate.
Qed.

Lemma leb_true x y :
  (x <=? y) = true ↔ is_nan x = false ∧ is_nan y = false ∧ Binary64.lex (Binary64.rank x) (Binary64.rank y) ≠ Gt.
Proof.
  rewrite FloatAxioms.leb_spec. unfold SFleb.
  destruct (is_nan x) eqn:Ex; [|destruct (is_nan y) eqn:Ey].
  - rewrite compare_with_nan by now rewrite Ex. intuition discriminate.
  - rewrite compare_with_nan by (rewrite Ey; apply orb_true_r). intuition discriminate.
  - rewrite compare_by_key by assumption.
    destruct (Binary64.lex (Binary64.rank x) (Binary64.rank y)); intuition (discriminate || congruence).
Qed.

(** Among numbers, [x < y] fails exactly when [y <= x]. *)
Lemma ltb_false x y :
  is_nan x = false → is_nan y = false → (x <? y) = false → (y <=? x) = true.
Proof.
  intros Hx Hy H. apply leb_true. repeat split; try assumption.
  rewrite SF.lex_antisym. intros E.
  assert (Binary64.lex (Binary64.rank x) (Binary64.rank y) = Lt) by (destruct (Binary64.lex (Binary64.rank x) (Binary64.rank y)); now try discriminate).
  assert ((x <? y) = true) by now apply ltb_true. congruence.
Qed.

Lemma ltb_leb x y : (x <? y) = true → (x <=? y) = true.
Proof.
  intros (Hx & Hy & H)%ltb_true. apply leb_true. repeat split; try assumption. congruence.
Qed.

Lemma leb_refl x : is_nan x = false → (x <=? x) = true.
Proof. intros H. apply leb_true. rewrite SF.lex_refl. now repeat split. Qed.

Lemma leb_ltb_trans x y z : (x <=? y) = true → (y <? z) = true → (x <? z) = true.
Proof.
  intros (Hx & Hy & H1)%leb_true (_ & Hz & H2)%ltb_true. apply ltb_true.
  repeat split; try assumption. now apply SF.lex_le_lt_trans with (Binary64.rank y).
Qed.

Lemma ltb_leb_trans x y z : (x <? y) = true → (y <=? z) = true → (x <? z) = true.
Proof.
  intros (Hx & Hy & H1)%ltb_true (_ & Hz & H2)%leb_true. apply ltb_true.
  repeat split; try assumption. now apply SF.lex_lt_le_trans with (Binary64.rank y).
Qed.

Lemma Prim2SF_half : Prim2SF 0.5 = Binary64.half.
Proof. reflexivity. Qed.

Lemma Prim2SF_ten : Prim2SF 10 = S754_finite false 5629499534213120 (-49).
Proof. reflexivity. Qed.

Lemma is_finite_spec x : is_finite x = true → Binary64.finite (Prim2SF x) = true.
Proof.
  unfold is_finite, is_infinity. rewrite is_nan_spec, FloatAxioms.eqb_spec, abs_spec.
  change (Prim2SF infinity) with (S754_infinity false).
  now destruct (Prim2SF x).
Qed.

(** The gap between two finite scores is not negative when taken from the
    larger one. *)
Lemma gap_nonneg t s :
  is_finite t = true → is_finite s = true → (s <=? t) = true →
  Binary64.nonneg (Prim2SF (t - s)) = true.
Proof.
  intros Ht Hs Hle. rewrite sub_spec.
  apply SFArith.SFsub_nonneg; auto using Prim2SF_valid, is_finite_spec.
  now rewrite <- FloatAxioms.leb_spec.
Qed.

Lemma spread_ge_half g :
  Binary64.nonneg (Prim2SF g) = true → (0.5 <=? 0.5 + g / 10) = true.
Proof.
  intros Hg. rewrite FloatAxioms.leb_spec, add_spec, div_spec, Prim2SF_half, Prim2SF_ten.
  apply SFArith.SFadd_half_ge. now apply SFArith.SFdiv_nonneg.
Qed.

(** [Math.min(x, hi)] stays between a lower bound of both and [hi]. *)
Lemma min_bounds lo x hi :
  (lo <=? x) = true → (lo <=? hi) = true →
  (lo <=? Number.min x hi) = true ∧ (Number.min x hi <=? hi) = true.
Proof.
  intros Hx Hhi. unfold Number.min.
  pose proof Hx as (_ & Nx & _)%leb_true. pose proof Hhi as (_ & Nhi & _)%leb_true.
  rewrite Nx, Nhi. simpl.
  destruct (x <? hi) eqn:E1; [split; [assumption | now apply ltb_leb]|].
  destruct (hi <? x) eqn:E2; [split; [assumption | now apply leb_refl]|].
  destruct (get_sign x); split; try assumption; [now apply ltb_false | now apply leb_refl].
Qed.

(** The confidence computed from the scores of the best and the second best
    option lies between 0.5 and 1. *)
Lemma confidence_bounds t s :
  is_finite t = true → is_finite s = true → (s <=? t) = true →
  (0.5 <=? Number.min (0.5 + (t - s) / 10) 1) = true
  ∧ (Number.min (0.5 + (t - s) / 10) 1 <=? 1) = true.
Proof.
  intros Ht Hs Hle. apply min_bounds; [|reflexivity].
  apply spread_ge_half. now apply gap_nonneg.
Qed.

(** A difference above 1 in absolute value is above 1 or below -1,
    according to its sign. *)
Lemma SFabs_gt_one (h : positive) (e1 : Z) D :
  let one := S754_finite false h e1 in
  SFltb one (SFabs D) && SFltb (S754_zero false) D = SFltb one D
  ∧ SFltb one (SFabs D) && negb (SFltb (S754_zero false) D) = SFltb D (SFopp one).
Proof.
  destruct D as [[]|[]| |[] m e]; try (split; reflexivity); unfold SFltb; simpl;
    split; rewrite ?andb_true_r, ?andb_false_r; try reflexivity.
  rewrite (Z.compare_antisym e1 e).
  change (Pos.compare_cont Eq m h) with (m ?= h)%positive.
  change (Pos.compare_cont Eq h m) with (h ?= m)%positive.
  rewrite (Pos.compare_antisym h m).
  destruct (e1 ?= e)%Z, (h ?= m)%positive; reflexivity.
Qed.

Lemma abs_gt_one_pos d : (1 <? abs d) && (0 <? d) = (1 <? d).
Proof.
  rewrite !FloatAxioms.ltb_spec, abs_spec.
  change (Prim2SF 1) with (S754_finite false 4503599627370496 (-52)).
  change (Prim2SF 0) with (S754_zero false).
  apply SFabs_gt_one.
Qed.

Lemma abs_gt_one_neg d : (1 <? abs d) && negb (0 <? d) = (d <? -1).
Proof.
  rewrite !FloatAxioms.ltb_spec, abs_spec.
  change (Prim2SF 1) with (S754_finite false 4503599627370496 (-52)).
  change (Prim2SF 0) with (S754_zero false).
  change (Prim2SF (-1)) with (SFopp (S754_finite false 4503599627370496 (-52))).
  apply SFabs_gt_one.
Qed.

(** NaN absorbs. *)
Lemma mul_nan x : x * nan = nan.
Proof.
  apply Prim2SF_inj. rewrite mul_spec. change (Prim2SF nan) with S754_nan.
  now destruct (Prim2SF x).
Qed.

Lemma sub_nan_l x : nan - x = nan.
Proof.
  apply Prim2SF_inj. rewrite sub_spec. change (Prim2SF nan) with S754_nan.
  reflexivity.
Qed.

Lemma sub_nan_r x : x - nan = nan.
Proof.
  apply Prim2SF_inj. rewrite sub_spec. change (Prim2SF nan) with S754_nan.
  now destruct (Prim2SF x).
Qed.

(** [y - x < -1] exactly when [x - y > 1]. *)
Lemma sub_swap_ltb x y : (y - x <? -1) = (1 <? x - y).
Proof.
  rewrite !FloatAxioms.ltb_spec, !sub_spec.
  change (Prim2SF 1) with (S754_finite false 4503599627370496 (-52)).
  change (Prim2SF (-1)) with (S754_finite true 4503599627370496 (-52)).
  apply SFArith.SFsub_swap_ltb.
Qed.
End Float64.

(** ** Reading and writing properties *)

Module ObjFacts.
Section Facts.
Context {V : Type}.
Implicit Types (o : Obj.t V) (k : string) (v : V).

Lemma get_update_eq k v o :
  is_Some (Obj.get k o) → Obj.get k (Obj.update k v o) = Some v.
Proof.
  induction o as [|[k' v'] o IH]; simpl; intros H.
  - now destruct H.
  - destruct (String.eqb k' k) eqn:E; simpl; rewrite E; auto.
Qed.

Lemma get_update_ne k k' v o : k ≠ k' → Obj.get k' (Obj.update k v o) = Obj.get k' o.
Proof.
  intros Hne. induction o as [|[k0 v0] o IH]; simpl; [reflexivity|].
  destruct (String.eqb k0 k) eqn:E; simpl.
  - apply String.eqb_eq in E as ->.
    now destruct (String.eqb_spec k k').
  - now rewrite IH.
Qed.

Lemma get_create_eq k v o : Obj.get k o = None → Obj.get k (Obj.create k v o) = Some v.
Proof.
  induction o as [|[k' v'] o IH]; simpl.
  - now rewrite String.eqb_refl.
  - destruct (String.eqb k' k) eqn:E; [discriminate|]. intros H.
    destruct (Obj.before k k'); simpl.
    + now rewrite String.eqb_refl.
    + rewrite E. auto.
Qed.

Lemma get_create_ne k k' v o : k ≠ k' → Obj.get k' (Obj.create k v o) = Obj.get k' o.
Proof.
  intros Hne. induction o as [|[k0 v0] o IH]; simpl.
  - now destruct (String.eqb_spec k k').
  - destruct (Obj.before k k0); simpl.
    + now destruct (String.eqb_spec k k').
    + now rewrite IH.
Qed.

Lemma get_is_Some k o : is_Some (Obj.get k o) ↔ In k (Obj.keys o).
Proof.
  induction o as [|[k' v'] o IH]; simpl.
  - split; [intros [? [=]] | intros []].
  - destruct (String.eqb_spec k' k) as [->|Hne].
    + split; eauto.
    + rewrite IH. intuition congruence.
Qed.

Lemma get_None k o : Obj.get k o = None ↔ ¬ In k (Obj.keys o).
Proof.
  rewrite <- get_is_Some. destruct (Obj.get k o) as [w|]; split.
  - discriminate.
  - intros H. exfalso. apply H. eauto.
  - intros _ [? [=]].
  - reflexivity.
Qed.

Lemma keys_update k v o : Obj.keys (Obj.update k v o) = Obj.keys o.
Proof.
  unfold Obj.keys. induction o as [|[k' v'] o IH]; simpl; [reflexivity|].
  destruct (String.eqb k' k); simpl; [reflexivity|]. now rewrite IH.
Qed.

(** Where [create] puts a new key depends on the keys alone. *)
Lemma keys_create_ext k v1 v2 o1 : ∀ o2,
  Obj.keys o1 = Obj.keys o2 →
  Obj.keys (Obj.create k v1 o1) = Obj.keys (Obj.create k v2 o2).
Proof.
  unfold Obj.keys.
  induction o1 as [|[k1 w1] o1 IH]; intros [|[k2 w2] o2]; simpl; intros H;
    try discriminate; [reflexivity|].
  injection H as -> H. destruct (Obj.before k k2); simpl.
  - now rewrite H.
  - f_equal. now apply IH.
Qed.

Lemma keys_create_perm k v o : Obj.keys (Obj.create k v o) ≡ₚ k :: Obj.keys o.
Proof.
  unfold Obj.keys. induction o as [|[k' v'] o IH]; simpl; [reflexivity|].
  destruct (Obj.before k k'); simpl; [reflexivity|].
  rewrite IH. apply Permutation_swap.
Qed.

Lemma keys_create k k' v o : In k' (Obj.keys (Obj.create k v o)) ↔ k' = k ∨ In k' (Obj.keys o).
Proof.
  rewrite <- !list_elem_of_In, keys_create_perm, elem_of_cons. reflexivity.
Qed.
End Facts.
End ObjFacts.

(** ** Reading and writing scores *)

Module ScoresFacts.
Implicit Types (s : Scores.t) (k : string) (v : CriterionScore).

(** Only the own properties and, for [__proto__], the prototype are scores. *)
Lemma find_own k s :
  Scores.find k s =
  match Obj.get k (Scores.own s) with
  | Some score => Some score
  | None => if String.eqb k "__proto__" then Scores.proto s else None
  end.
Proof.
  unfold Scores.find, Scores.get. destruct (Obj.get k (Scores.own s)); [reflexivity|].
  destruct (String.eqb k "__proto__"); [now destruct (Scores.proto s)|].
  destruct (match Scores.proto s with Some _ => _ | None => _ end); [reflexivity|].
  now destruct (Obj.inherited k).
Qed.

Lemma find_key k s : In k (Scores.keys s) → is_Some (Scores.find k s).
Proof.
  intros [score H]%ObjFacts.get_is_Some. rewrite find_own, H. eauto.
Qed.

Lemma get_key k s :
  In k (Scores.keys s) → ∃ score, Scores.get k s = Scores.Score score.
Proof.
  intros [score H]%ObjFacts.get_is_Some. unfold Scores.get. rewrite H. eauto.
Qed.

Lemma get_find k s score : Scores.find k s = Some score → Scores.get k s = Scores.Score score.
Proof. unfold Scores.find. destruct (Scores.get k s); congruence. Qed.

Lemma find_set_eq k v s : Scores.find k (Scores.set k v s) = Some v.
Proof.
  rewrite find_own. unfold Scores.set. destruct (Obj.get k (Scores.own s)) eqn:E.
  - cbn [Scores.own Scores.proto]. rewrite ObjFacts.get_update_eq; [reflexivity | rewrite E; eauto].
  - destruct (String.eqb k "__proto__") eqn:Ek; cbn [Scores.own Scores.proto].
    + now rewrite E.
    + now rewrite ObjFacts.get_create_eq.
Qed.

Lemma find_set_ne k k' v s : k ≠ k' → Scores.find k' (Scores.set k v s) = Scores.find k' s.
Proof.
  intros Hne. rewrite !find_own. unfold Scores.set.
  destruct (Obj.get k (Scores.own s)) eqn:E; cbn [Scores.own Scores.proto].
  - now rewrite ObjFacts.get_update_ne.
  - destruct (String.eqb_spec k "__proto__") as [->|Hk]; cbn [Scores.own Scores.proto].
    + destruct (Obj.get k' (Scores.own s)); [reflexivity|].
      destruct (String.eqb_spec k' "__proto__"); [congruence | reflexivity].
    + now rewrite ObjFacts.get_create_ne.
Qed.

(** The keys of [scores] after [scores[k] = v] are its keys and [k], unless
    [k] is [__proto__]. *)
Lemma keys_set k k' v s :
  In k' (Scores.keys (Scores.set k v s))
    ↔ (k' = k ∧ k ≠ "__proto__"%string) ∨ In k' (Scores.keys s).
Proof.
  unfold Scores.set, Scores.keys. destruct (Obj.get k (Scores.own s)) eqn:E; cbn [Scores.own Scores.proto].
  - rewrite ObjFacts.keys_update. split; [auto|]. intros [[-> _]|H]; [|exact H].
    apply ObjFacts.get_is_Some. rewrite E. eauto.
  - destruct (String.eqb_spec k "__proto__") as [->|Hk]; cbn [Scores.own Scores.proto].
    + intuition congruence.
    + rewrite ObjFacts.keys_create. intuition congruence.
Qed.

(** The keys after an assignment depend on the keys before it alone. *)
Lemma keys_set_ext k v1 v2 s1 s2 :
  Scores.keys s1 = Scores.keys s2 →
  Scores.keys (Scores.set k v1 s1) = Scores.keys (Scores.set k v2 s2).
Proof.
  unfold Scores.keys. intros H. unfold Scores.set.
  pose proof (ObjFacts.get_is_Some k (Scores.own s1)) as H1.
  pose proof (ObjFacts.get_is_Some k (Scores.own s2)) as H2. rewrite <- H in H2.
  destruct (Obj.get k (Scores.own s1)) as [w1|], (Obj.get k (Scores.own s2)) as [w2|]; cbn [Scores.own Scores.proto].
  - now rewrite !ObjFacts.keys_update.
  - exfalso. assert (is_Some (@None CriterionScore)) as [? [=]]. apply H2, H1. eauto.
  - exfalso. assert (is_Some (@None CriterionScore)) as [? [=]]. apply H1, H2. eauto.
  - destruct (String.eqb k "__proto__"); cbn [Scores.own Scores.proto]; [exact H|].
    now apply ObjFacts.keys_create_ext.
Qed.

(** An assignment never lists a key twice. *)
Lemma keys_set_NoDup k v s :
  NoDup (Scores.keys s) → NoDup (Scores.keys (Scores.set k v s)).
Proof.
  unfold Scores.keys. intros Hnd. unfold Scores.set.
  destruct (Obj.get k (Scores.own s)) eqn:E; cbn [Scores.own Scores.proto].
  - now rewrite ObjFacts.keys_update.
  - destruct (String.eqb k "__proto__"); cbn [Scores.own Scores.proto]; [exact Hnd|].
    rewrite ObjFacts.keys_create_perm. apply NoDup_cons. split; [|exact Hnd].
    intros Hin%list_elem_of_In. now apply ObjFacts.get_None in E.
Qed.

(** The entries after an assignment are entries from before it, or hold the
    score assigned. *)
Lemma entries_set k v s e :
  e ∈ Scores.entries (Scores.set k v s) → e.2 = v ∨ e ∈ Scores.entries s.
Proof.
  unfold Scores.entries, Obj.entries, Scores.set.
  destruct (Obj.get k (Scores.own s)) as [_|]; cbn [Scores.own Scores.proto].
  - induction (Scores.own s) as [|[k' v'] o IH]; simpl; [auto|].
    destruct (String.eqb k' k).
    + intros [->|H]%elem_of_cons; [now left | right; now constructor].
    + intros [->|H]%elem_of_cons; [right; constructor|].
      destruct (IH H); [now left | right; now constructor].
  - destruct (String.eqb k "__proto__"); cbn [Scores.own Scores.proto]; [auto|].
    induction (Scores.own s) as [|[k' v'] o IH]; simpl.
    + intros ->%list_elem_of_singleton. now left.
    + destruct (Obj.before k k').
      * intros [->|H]%elem_of_cons; [now left | now right].
      * intros [->|H]%elem_of_cons; [right; constructor|].
        destruct (IH H); [now left | right; now constructor].
Qed.
End ScoresFacts.

(** ** Properties of the engine *)

Module RefereeFacts.
Import RefereeEngine Spec.

Section Properties.
Local Open Scope float_scope.

Variable random : nat → nat → float.
Variable toFixed : float → nat → string.
Variable sort : ∀ A : Type, (A → A → float) → list A → list A.

Local Abbreviation evaluateCriterion := (RefereeEngine.evaluateCriterion toFixed).
Local Abbreviation scoreStep := (RefereeEngine.scoreStep random toFixed).
Local Abbreviation evaluateOption := (RefereeEngine.evaluateOption random toFixed).
Local Abbreviation evaluateOptions := (RefereeEngine.evaluateOptions random toFixed).
Local Abbreviation generateRecommendation := (RefereeEngine.generateRecommendation toFixed).
Local Abbreviation generateKeyInsight := (RefereeEngine.generateKeyInsight toFixed).
Local Abbreviation generateSummary := (RefereeEngine.generateSummary toFixed sort).
Local Abbreviation compare := (RefereeEngine.compare random toFixed sort).

(** *** The total score *)

Lemma sumWeighted_ext scores1 scores2 criteria acc :
  (∀ c, In c criteria → Scores.find c scores1 = Scores.find c scores2) →
  sumWeighted scores1 criteria acc = sumWeighted scores2 criteria acc.
Proof.
  revert acc. induction criteria as [|c criteria IH]; simpl; intros acc H; [reflexivity|].
  rewrite (H c) by auto. destruct (Scores.find c scores2); [|reflexivity].
  apply IH. auto.
Qed.

Lemma sumWeighted_app scores l1 l2 acc :
  sumWeighted scores (l1 ++ l2) acc =
  match sumWeighted scores l1 acc with
  | Some acc' => sumWeighted scores l2 acc'
  | None => None
  end.
Proof.
  revert acc. induction l1 as [|c l1 IH]; simpl; intros acc; [reflexivity|].
  destruct (Scores.find c scores); [apply IH | reflexivity].
Qed.

(** The criteria loop keeps [totalScore] equal to the sum over the criteria
    seen so far, as long as none of them comes twice. *)
Lemma scoreLoop_sum i option constraints rest :
  ∀ seen scores total k,
    NoDup (seen ++ rest) →
    sumWeighted scores seen 0 = Some total →
    ∀ scores' total' k',
      fold_left (scoreStep i option constraints) rest (scores, total, k)
        = (scores', total', k') →
      sumWeighted scores' (seen ++ rest) 0 = Some total'.
Proof.
  induction rest as [|c rest IH]; simpl; intros seen scores total k Hnd Hsum scores' total' k' Hfold.
  - injection Hfold as <- <- <-. now rewrite app_nil_r.
  - replace (seen ++ c :: rest) with ((seen ++ [c]) ++ rest) in * by now rewrite <- app_assoc.
    eapply IH; [exact Hnd | | exact Hfold].
    rewrite sumWeighted_app.
    rewrite sumWeighted_ext with (scores2 := scores).
    + rewrite Hsum. simpl. now rewrite ScoresFacts.find_set_eq.
    + intros c' Hc'. apply ScoresFacts.find_set_ne. intros ->.
      apply NoDup_app in Hnd as [Hnd _]. apply NoDup_app in Hnd as (_ & Hnd & _).
      apply (Hnd c'); [now apply list_elem_of_In | apply list_elem_of_In; simpl; auto].
Qed.

Lemma compare_comparison options criteria constraints r :
  compare options criteria constraints = Ok r →
  comparison r = evaluateOptions options criteria constraints.
Proof.
  unfold RefereeEngine.compare.
  destruct (generateRecommendation _ _); [|discriminate].
  destruct (analyzeTradeoffs _); [|discriminate].
  destruct (generateSummary _ _); [|discriminate].
  now intros [= <-].
Qed.

(** C1, amended: when no criterion is listed twice, the [totalScore] of every
    option [evaluateOptions] returns, and so of every entry of the
    [comparison] that [compare] returns, is the sum of [scores[c].weighted]
    over the criteria [c], accumulated from 0 in the order of the list. *)
Theorem totalScore_is_sum options criteria constraints :
  NoDup criteria →
  (∀ e, e ∈ evaluateOptions options criteria constraints → sumInvariant criteria e)
  ∧ (∀ r, compare options criteria constraints = Ok r →
       ∀ e, e ∈ comparison r → sumInvariant criteria e).
Proof.
  intros Hnd.
  assert (∀ e, e ∈ evaluateOptions options criteria constraints → sumInvariant criteria e)
    as Hsum.
  { intros e (i & option & -> & _)%elem_of_lookup_imap.
    unfold sumInvariant, RefereeEngine.evaluateOption.
    destruct (fold_left _ _ _) as [[scores' total'] k'] eqn:Hfold. simpl.
    eapply (scoreLoop_sum i option constraints criteria [] Scores.empty 0 0%nat);
      [exact Hnd | reflexivity | exact Hfold]. }
  split; [exact Hsum|].
  intros r Hr e He. apply Hsum. now rewrite <- (compare_comparison _ _ _ _ Hr).
Qed.

(** *** Weights *)

Lemma defaultWeights_truthy criterion w :
  defaultWeights !! criterion = Some w → Number.truthy w = true.
Proof.
  intros H. apply elem_of_list_to_map_2 in H.
  repeat (apply elem_of_cons in H as [[= -> ->]|H]; [reflexivity|]).
  now apply elem_of_nil in H.
Qed.

Lemma defaultWeights_own criterion w :
  defaultWeights !! criterion = Some w → Obj.inherited criterion = false.
Proof.
  intros H. apply elem_of_list_to_map_2 in H.
  repeat (apply elem_of_cons in H as [[= -> ->]|H]; [reflexivity|]).
  now apply elem_of_nil in H.
Qed.

(** C8, amended: for a criterion without an entry in [constraints.weights],
    the weight [evaluateCriterion] multiplies the raw score by is the entry
    of the engine's [defaultWeights] table for that criterion, and 0.1 for a
    criterion that the table does not name and that is no property name of
    [Object.prototype]; the number of criteria plays no part.  For a
    property name of [Object.prototype] the weight is the function, or the
    object, of that name, and the weighted score is NaN. *)
Theorem default_weight constraints criterion :
  weights constraints ≫= (.!! criterion) = None →
  (Obj.inherited criterion = false →
     criterionWeight constraints criterion
       = Value.Number (default 0.1 (defaultWeights !! criterion))
     ∧ ∀ r option,
         weighted (evaluateCriterion r option criterion constraints)
           = r * 10 * default 0.1 (defaultWeights !! criterion))
  ∧ (Obj.inherited criterion = true →
     criterionWeight constraints criterion = Value.Inherited criterion
     ∧ ∀ r option,
         weighted (evaluateCriterion r option criterion constraints) = nan).
Proof.
  intros H.
  assert (match weights constraints with
          | Some given => Value.read criterion (given !! criterion)
          | None => Value.Undefined
          end
          = if Obj.inherited criterion && bool_decide (is_Some (weights constraints))
            then Value.Inherited criterion else Value.Undefined) as Hgiven.
  { destruct (weights constraints) as [given|]; simpl in *.
    - rewrite H. unfold Value.read. now destruct (Obj.inherited criterion).
    - now rewrite andb_false_r. }
  split; intros Hin.
  - assert (criterionWeight constraints criterion
              = Value.Number (default 0.1 (defaultWeights !! criterion))) as E.
    { unfold criterionWeight. rewrite Hgiven, Hin. simpl.
      unfold Value.read. rewrite Hin.
      destruct (defaultWeights !! criterion) as [w|] eqn:Hw; simpl; [|reflexivity].
      unfold Value.or. simpl. now rewrite (defaultWeights_truthy _ _ Hw). }
    split; [exact E|]. intros r option. simpl. now rewrite E.
  - assert (criterionWeight constraints criterion = Value.Inherited criterion) as E.
    { unfold criterionWeight. rewrite Hgiven, Hin. simpl.
      destruct (bool_decide _); [reflexivity|].
      unfold Value.read. rewrite Hin.
      destruct (defaultWeights !! criterion) as [w|] eqn:Hw; [|reflexivity].
      apply defaultWeights_own in Hw. congruence. }
    split; [exact E|]. intros r option. simpl. rewrite E. apply Float64.mul_nan.
Qed.

(** *** Constraints *)

Lemma filter_length_mono {A} (f g : A → bool) (l : list A) :
  (∀ x, f x = true → g x = true) →
  length (List.filter f l) ≤ length (List.filter g l).
Proof.
  intros H. induction l as [|x l IH]; simpl; [lia|].
  destruct (f x) eqn:E.
  - rewrite (H x E). simpl. lia.
  - destruct (g x); simpl; lia.
Qed.

Lemma checkConstraints_maxCost_mono option constraints m1 m2 :
  (m1 <=? m2) = true → is_zero m1 = false →
  checkConstraints option (withMaxCost (Some m1) constraints) = true →
  checkConstraints option (withMaxCost (Some m2) constraints) = true.
Proof.
  intros Hle Hnz. unfold checkConstraints. simpl.
  assert (Number.truthy m1 = true) as ->.
  { apply Float64.leb_true in Hle as (Hnan & _). unfold Number.truthy. now rewrite Hnz, Hnan. }
  destruct (cost option) as [c|]; simpl.
  - unfold Number.gt. destruct (m1 <? c) eqn:E1; [discriminate|].
    destruct (m2 <? c) eqn:E2.
    + now rewrite (Float64.leb_ltb_trans _ _ _ Hle E2) in E1.
    + now rewrite andb_false_r.
  - now rewrite andb_false_r.
Qed.

(** C9, amended: for cost bounds [m1 <= m2] with [m1] other than 0, no more
    options pass [checkConstraints] under [maxCost = m1] than under
    [maxCost = m2], the other constraints being the same. *)
Theorem maxCost_monotone options constraints m1 m2 :
  (m1 <=? m2) = true → is_zero m1 = false →
  validCount options (withMaxCost (Some m1) constraints)
    ≤ validCount options (withMaxCost (Some m2) constraints).
Proof.
  intros Hle Hnz. apply filter_length_mono. intros option.
  now apply checkConstraints_maxCost_mono.
Qed.

(** C10: with [maxCost] equal to 0, [checkConstraints] answers for every
    option, whatever its cost, what it answers when [maxCost] is absent. *)
Theorem maxCost_zero_unconstrained option constraints m :
  (m =? 0) = true →
  checkConstraints option (withMaxCost (Some m) constraints)
    = checkConstraints option (withMaxCost None constraints).
Proof.
  intros Hz. unfold checkConstraints, Number.truthy, is_zero. simpl.
  change PrimFloat.zero with 0%float. now rewrite Hz.
Qed.

(** *** The recommendation *)

Lemma filter_none {A} (f : A → bool) (l : list A) :
  (∀ x, x ∈ l → f x = false) → List.filter f l = [].
Proof.
  induction l as [|x l IH]; simpl; intros H; [reflexivity|].
  rewrite (H x) by constructor. apply IH. intros y Hy. apply H. now constructor.
Qed.

(** C5: when no option meets the constraints, [generateRecommendation]
    returns (it does not throw) a null choice, the reason that no options
    meet the constraints, and as alternatives the first two entries of the
    whole list: two of them as soon as the list has two. *)
Theorem no_valid_option evaluatedOptions constraints :
  (∀ o, o ∈ evaluatedOptions → meetsConstraints o = false) →
  generateRecommendation evaluatedOptions constraints
    = Ok {| choice := None;
            reason := "No options meet the specified constraints";
            alternatives := Some (take 2 evaluatedOptions);
            confidence := None |}
  ∧ ((2 ≤ length evaluatedOptions)%nat → length (take 2 evaluatedOptions) = 2%nat).
Proof.
  intros H. split.
  - unfold RefereeEngine.generateRecommendation. now rewrite (filter_none _ _ H).
  - intros Hlen. rewrite length_take. lia.
Qed.

(** [better] keeps the first of the highest scores. *)
Lemma fold_better_first_max rest :
  ∀ l1 best l2,
    (∀ o, o ∈ l1 ++ best :: l2 ++ rest → is_nan (totalScore o) = false) →
    (∀ o, o ∈ l1 → (totalScore o <? totalScore best) = true) →
    (∀ o, o ∈ l2 → (totalScore o <=? totalScore best) = true) →
    ∃ l1' l2',
      l1 ++ best :: l2 ++ rest = l1' ++ fold_left better rest best :: l2'
      ∧ (∀ o, o ∈ l1' → (totalScore o <? totalScore (fold_left better rest best)) = true)
      ∧ (∀ o, o ∈ l2' → (totalScore o <=? totalScore (fold_left better rest best)) = true).
Proof.
  induction rest as [|c rest IH]; intros l1 best l2 Hnan H1 H2; simpl.
  - exists l1, l2. now rewrite app_nil_r.
  - unfold better at 2 4 6. unfold Number.gt.
    destruct (totalScore best <? totalScore c) eqn:E.
    + (* [c] outscores everything seen so far *)
      destruct (IH (l1 ++ best :: l2) c []) as (l1' & l2' & Heq & H1' & H2').
      * intros o Ho. apply Hnan. rewrite <- app_assoc in Ho. exact Ho.
      * intros o [Ho|[->|Ho]%elem_of_cons]%elem_of_app.
        -- apply Float64.ltb_leb_trans with (totalScore best); [auto|now apply Float64.ltb_leb].
        -- exact E.
        -- now apply Float64.leb_ltb_trans with (totalScore best); auto.
      * intros o Ho. now apply elem_of_nil in Ho.
      * exists l1', l2'. split; [|now split]. rewrite <- Heq, <- app_assoc. reflexivity.
    + destruct (IH l1 best (l2 ++ [c])) as (l1' & l2' & Heq & H1' & H2').
      * intros o Ho. apply Hnan. rewrite <- app_assoc in Ho. exact Ho.
      * exact H1.
      * intros o [Ho| ->%list_elem_of_singleton]%elem_of_app; [auto|].
        apply Float64.ltb_false; [| |exact E]; apply Hnan; set_solver.
      * exists l1', l2'. split; [|now split]. rewrite <- Heq, <- app_assoc. reflexivity.
Qed.

Lemma fold_better_elem rest : ∀ best, fold_left better rest best ∈ best :: rest.
Proof.
  induction rest as [|c rest IH]; intros best; simpl; [constructor|].
  pose proof (IH (better best c)) as [E|H]%elem_of_cons.
  - rewrite E. unfold better. destruct (Number.gt _ _); repeat constructor.
  - now repeat constructor.
Qed.

Lemma filter_app_cons_inv {A} (f : A → bool) (l : list A) :
  ∀ l1 x l2,
    List.filter f l = l1 ++ x :: l2 →
    ∃ k1 k2, l = k1 ++ x :: k2 ∧ List.filter f k1 = l1 ∧ List.filter f k2 = l2 ∧ f x = true.
Proof.
  induction l as [|a l IH]; simpl; intros l1 x l2 H.
  - now destruct l1.
  - destruct (f a) eqn:E.
    + destruct l1 as [|b l1]; simpl in H; injection H as <- H.
      * exists [], l. now rewrite H.
      * destruct (IH _ _ _ H) as (k1 & k2 & -> & <- & <- & Hx).
        exists (a :: k1), k2. simpl. now rewrite E.
    + destruct (IH _ _ _ H) as (k1 & k2 & -> & <- & <- & Hx).
      exists (a :: k1), k2. simpl. now rewrite E.
Qed.

Lemma elem_of_filter_bool {A} (f : A → bool) (l : list A) x :
  x ∈ List.filter f l ↔ x ∈ l ∧ f x = true.
Proof. rewrite !list_elem_of_In. apply filter_In. Qed.

Lemma distinct_filter (f : EvaluatedOption → bool) l :
  distinct l → distinct (List.filter f l).
Proof.
  unfold distinct. induction l as [|x l IH]; simpl; [auto|].
  intros [Hx Hl]%NoDup_cons. destruct (f x); simpl; [|auto].
  apply NoDup_cons. split; [|auto].
  intros (y & Hy & [Hin _]%elem_of_filter_bool)%list_elem_of_fmap.
  apply Hx. apply list_elem_of_fmap. eauto.
Qed.

(** Among two or more distinct objects, one is other than [topOption]. *)
Lemma calculateConfidence_returns topOption allOptions :
  distinct allOptions → ∃ c, calculateConfidence topOption allOptions = Ok c.
Proof.
  intros Hd. unfold calculateConfidence.
  destruct allOptions as [|x [|y l]]; simpl length; try (simpl; eauto; fail).
  change (length (x :: y :: l) <? 2)%nat with false. cbv iota.
  destruct (List.filter (other_than topOption) (x :: y :: l)) as [|z others] eqn:E; simpl; eauto.
  exfalso. simpl in E. unfold other_than in E at 1.
  apply NoDup_cons in Hd as [Hx _]. simpl in Hx.
  destruct (Nat.eqb_spec (ref x) (ref topOption)) as [Ex|]; simpl in E; [|discriminate].
  unfold other_than in E.
  destruct (Nat.eqb_spec (ref y) (ref topOption)) as [Ey|]; simpl in E; [|discriminate].
  apply Hx. rewrite Ex, <- Ey. constructor.
Qed.

(** C3, amended: when some option meets the constraints and no valid option
    has the [totalScore] NaN, the choice [generateRecommendation] returns is
    a valid option with the highest [totalScore] among the valid ones, the
    first such in the order of the list.  The entries of the list are
    distinct objects, as those [evaluateOptions] returns are. *)
Theorem choice_is_first_best evaluatedOptions constraints :
  distinct evaluatedOptions →
  (∀ o, o ∈ valid evaluatedOptions → is_nan (totalScore o) = false) →
  valid evaluatedOptions ≠ [] →
  ∃ r top,
    generateRecommendation evaluatedOptions constraints = Ok r
    ∧ choice r = Some top
    ∧ firstBestValid evaluatedOptions top.
Proof.
  intros Hd Hnan Hne. unfold RefereeEngine.generateRecommendation.
  fold (valid evaluatedOptions).
  destruct (valid evaluatedOptions) as [|x rest] eqn:Ev; [congruence|].
  change (length (x :: rest) =? 0)%nat with false. cbv iota. simpl reduce1. simpl bind.
  destruct (calculateConfidence_returns (fold_left better rest x) (x :: rest)) as [c ->].
  { rewrite <- Ev. now apply distinct_filter. }
  simpl. eexists _, _. split; [reflexivity|]. split; [reflexivity|].
  destruct (fold_better_first_max rest [] x []) as (l1 & l2 & Heq & H1 & H2);
    [exact Hnan | set_solver | set_solver |].
  simpl in Heq. rewrite Heq in Ev.
  apply filter_app_cons_inv in Ev as (k1 & k2 & -> & <- & <- & Hx).
  exists k1, k2. split; [reflexivity|]. split; [exact Hx|].
  split; intros o Ho Hm; [apply H1 | apply H2]; now apply elem_of_filter_bool.
Qed.

Lemma is_finite_not_nan x : is_finite x = true → is_nan x = false.
Proof. unfold is_finite. now destruct (is_nan x). Qed.

(** What [calculateConfidence] returns for an option no other outscores. *)
Lemma calculateConfidence_spec topOption allOptions :
  distinct allOptions →
  (∀ o, o ∈ allOptions → is_finite (totalScore o) = true) →
  is_finite (totalScore topOption) = true →
  (∀ o, o ∈ allOptions → (totalScore o <=? totalScore topOption) = true) →
  ∃ c,
    calculateConfidence topOption allOptions = Ok c
    ∧ (0.5 <=? c) = true ∧ (c <=? 1) = true
    ∧ ((length allOptions < 2)%nat → c = 1)
    ∧ ((2 ≤ length allOptions)%nat →
       ∃ second,
         second ∈ allOptions ∧ ref second ≠ ref topOption
         ∧ (∀ o, o ∈ allOptions → ref o ≠ ref topOption →
              (totalScore o <=? totalScore second) = true)
         ∧ c = Number.min (0.5 + (totalScore topOption - totalScore second) / 10) 1).
Proof.
  intros Hd Hfin Htop Hmax.
  destruct (calculateConfidence_returns topOption allOptions Hd) as [c Hc].
  exists c. split; [exact Hc|]. unfold calculateConfidence in Hc.
  destruct (length allOptions <? 2)%nat eqn:Hlen.
  - apply Nat.ltb_lt in Hlen. injection Hc as <-.
    split; [reflexivity|]. split; [reflexivity|]. split; [reflexivity|]. lia.
  - apply Nat.ltb_ge in Hlen.
    destruct (List.filter (other_than topOption) allOptions) as [|x rest] eqn:Eo;
      [discriminate|].
    simpl in Hc. injection Hc as <-.
    set (second := fold_left better rest x).
    destruct (fold_better_first_max rest [] x []) as (l1 & l2 & Heq & H1 & H2).
    { intros o Ho. apply is_finite_not_nan, Hfin.
      simpl in Ho. rewrite <- Eo in Ho. now apply elem_of_filter_bool in Ho as [? _]. }
    { intros o Ho. now apply elem_of_nil in Ho. }
    { intros o Ho. now apply elem_of_nil in Ho. }
    fold second in Heq, H1, H2. simpl in Heq.
    assert (second ∈ allOptions ∧ ref second ≠ ref topOption) as [Hin Href].
    { assert (second ∈ List.filter (other_than topOption) allOptions) as Hs
        by (rewrite Eo, Heq; set_solver).
      apply elem_of_filter_bool in Hs as [Hin Hs]. split; [exact Hin|].
      unfold other_than in Hs. now destruct (Nat.eqb_spec (ref second) (ref topOption)). }
    assert ((0.5 <=? Number.min (0.5 + (totalScore topOption - totalScore second) / 10) 1) = true
            ∧ (Number.min (0.5 + (totalScore topOption - totalScore second) / 10) 1 <=? 1) = true)
      as [Hlo Hhi] by (apply Float64.confidence_bounds; auto).
    split; [exact Hlo|]. split; [exact Hhi|]. split; [lia|].
    intros _. exists second. split; [exact Hin|]. split; [exact Href|]. split; [|reflexivity].
    intros o Ho Hne.
    assert (o ∈ x :: rest) as Hor.
    { rewrite <- Eo. apply elem_of_filter_bool. split; [exact Ho|].
      unfold other_than. now destruct (Nat.eqb_spec (ref o) (ref topOption)). }
    rewrite Heq in Hor. apply elem_of_app in Hor as [Hor|[->|Hor]%elem_of_cons].
    + now apply Float64.ltb_leb, H1.
    + now apply Float64.leb_refl, is_finite_not_nan, Hfin.
    + now apply H2.
Qed.

(** C4, amended: when the [totalScore] of every valid option is finite, a
    recommendation with a choice has the confidence [min(0.5 + gap/10, 1.0)],
    where [gap] is the [totalScore] of the choice less that of the best
    other valid option; it lies between 0.5 and 1, and is 1 when fewer than
    2 options are valid.  The entries of the list are distinct objects, as
    those [evaluateOptions] returns are. *)
Theorem confidence_of_choice evaluatedOptions constraints :
  distinct evaluatedOptions →
  (∀ o, o ∈ valid evaluatedOptions → is_finite (totalScore o) = true) →
  valid evaluatedOptions ≠ [] →
  ∃ r top c,
    generateRecommendation evaluatedOptions constraints = Ok r
    ∧ choice r = Some top
    ∧ confidence r = Some c
    ∧ (0.5 <=? c) = true ∧ (c <=? 1) = true
    ∧ ((length (valid evaluatedOptions) < 2)%nat → c = 1)
    ∧ ((2 ≤ length (valid evaluatedOptions))%nat →
       ∃ second,
         second ∈ valid evaluatedOptions ∧ ref second ≠ ref top
         ∧ (∀ o, o ∈ valid evaluatedOptions → ref o ≠ ref top →
              (totalScore o <=? totalScore second) = true)
         ∧ c = Number.min (0.5 + (totalScore top - totalScore second) / 10) 1).
Proof.
  intros Hd Hfin Hne. unfold RefereeEngine.generateRecommendation.
  fold (valid evaluatedOptions).
  destruct (valid evaluatedOptions) as [|x rest] eqn:Ev; [congruence|].
  change (length (x :: rest) =? 0)%nat with false. cbv iota. simpl reduce1. simpl bind.
  set (top := fold_left better rest x).
  destruct (fold_better_first_max rest [] x []) as (l1 & l2 & Heq & H1 & H2).
  { intros o Ho. now apply is_finite_not_nan, Hfin. }
  { intros o Ho. now apply elem_of_nil in Ho. }
  { intros o Ho. now apply elem_of_nil in Ho. }
  fold top in Heq, H1, H2. simpl in Heq.
  assert (top ∈ x :: rest) as Htop by apply fold_better_elem.
  destruct (calculateConfidence_spec top (x :: rest)) as (c & -> & Hc).
  { rewrite <- Ev. now apply distinct_filter. }
  { exact Hfin. }
  { now apply Hfin. }
  { intros o Ho. rewrite Heq in Ho.
    apply elem_of_app in Ho as [Ho|[->|Ho]%elem_of_cons].
    - now apply Float64.ltb_leb, H1.
    - now apply Float64.leb_refl, is_finite_not_nan, Hfin.
    - now apply H2. }
  simpl. exists {| choice := Some top;
                   reason := generateRecommendationReason toFixed top (x :: rest);
                   alternatives := None;
                   confidence := Some c |}, top, c.
  split; [reflexivity|]. split; [reflexivity|]. split; [reflexivity|]. exact Hc.
Qed.

(** *** Trade-offs *)

Lemma leads_partition A B c :
  differs A B c = leads A B c || leads B A c
  ∧ leads A B c && leads B A c = false.
Proof.
  unfold differs, leads, rawDiff.
  destruct (Scores.find c (scores A)) as [a|], (Scores.find c (scores B)) as [b|];
    try (split; reflexivity).
  rewrite <- (Float64.sub_swap_ltb (raw b) (raw a)).
  rewrite <- (Float64.abs_gt_one_pos (raw a - raw b)),
          <- (Float64.abs_gt_one_neg (raw a - raw b)).
  destruct (1 <? abs (raw a - raw b)), (0 <? raw a - raw b); split; reflexivity.
Qed.

(** One round of the loop of [compareTwo], when neither score is
    [undefined]: a value that is no score has no [raw], the difference is
    NaN, and the criterion goes to neither list. *)
Lemma strengthStep_spec A B c aStrengths bStrengths :
  Scores.get c (scores A) ≠ Scores.Undefined →
  Scores.get c (scores B) ≠ Scores.Undefined →
  strengthStep A B (aStrengths, bStrengths) c
    = Ok (aStrengths ++ List.filter (leads A B) [c],
          bStrengths ++ List.filter (leads B A) [c]).
Proof.
  intros HA HB. unfold strengthStep, Scores.rawOf, leads, rawDiff, Scores.find. simpl.
  destruct (Scores.get c (scores A)) as [a| |], (Scores.get c (scores B)) as [b| |];
    try congruence; simpl;
    rewrite ?Float64.sub_nan_l, ?Float64.sub_nan_r;
    try (change (Number.gt (abs nan) 1) with false; cbv iota; now rewrite !app_nil_r).
  unfold Number.gt.
  rewrite <- (Float64.sub_swap_ltb (raw b) (raw a)).
  rewrite <- (Float64.abs_gt_one_pos (raw a - raw b)),
          <- (Float64.abs_gt_one_neg (raw a - raw b)).
  destruct (1 <? abs (raw a - raw b)), (0 <? raw a - raw b); simpl;
    now rewrite ?app_nil_r.
Qed.

Lemma strengthLoop A B criteria :
  ∀ aStrengths bStrengths,
    (∀ c, In c criteria →
       Scores.get c (scores A) ≠ Scores.Undefined
       ∧ Scores.get c (scores B) ≠ Scores.Undefined) →
    forEach (strengthStep A B) criteria (aStrengths, bStrengths)
      = Ok (aStrengths ++ List.filter (leads A B) criteria,
            bStrengths ++ List.filter (leads B A) criteria).
Proof.
  induction criteria as [|c criteria IH]; intros aS bS H.
  - simpl. now rewrite !app_nil_r.
  - destruct (H c) as [HA HB]; [now left|].
    cbn [forEach]. rewrite strengthStep_spec by assumption. cbn [bind].
    rewrite IH by (intros; apply H; now right).
    rewrite <- !app_assoc, <- !List.filter_app. reflexivity.
Qed.

Lemma filter_nonempty {A} (f : A → bool) (l : list A) :
  (0 <? length (List.filter f l))%nat = existsb f l.
Proof. induction l as [|x l IH]; simpl; [reflexivity|]. now destruct (f x). Qed.

(** Whenever no score it reads is [undefined], [compareTwo] returns the
    record the specification describes. *)
Lemma compareTwo_defined A B :
  (∀ c, In c (Scores.keys (scores A)) → Scores.get c (scores B) ≠ Scores.Undefined) →
  compareTwo A B = Ok (expectedTradeoff A B).
Proof.
  intros H. unfold compareTwo. rewrite strengthLoop.
  - simpl. unfold expectedTradeoff. now rewrite !filter_nonempty.
  - intros c Hc. split; [|auto].
    destruct (ScoresFacts.get_key c (scores A) Hc) as [a ->]. discriminate.
Qed.

(** On two options scored on the same criteria [compareTwo] returns the
    record the specification describes. *)
Lemma compareTwo_spec A B :
  (∀ c, In c (Scores.keys (scores A)) → is_Some (Scores.find c (scores B))) →
  compareTwo A B = Ok (expectedTradeoff A B).
Proof.
  intros H. apply compareTwo_defined. intros c [b Hb%ScoresFacts.get_find]%H.
  rewrite Hb. discriminate.
Qed.

Lemma pushLoop A rest :
  ∀ tradeoffs,
    (∀ B, B ∈ rest → compareTwo A B = Ok (expectedTradeoff A B)) →
    forEach (pushTradeoff A) rest tradeoffs
      = Ok (tradeoffs ++ List.filter hasTradeoff (map (expectedTradeoff A) rest)).
Proof.
  induction rest as [|B rest IH]; intros ts H; simpl.
  - now rewrite app_nil_r.
  - unfold pushTradeoff at 1. rewrite (H B) by constructor. simpl.
    destruct (existsb _ _ && existsb _ _); simpl;
      rewrite IH by (intros; apply H; now constructor).
    + now rewrite <- app_assoc.
    + reflexivity.
Qed.

Lemma tradeoffLoop l suffix :
  ∀ k tradeoffs,
    drop k l = suffix →
    (∀ A B, A ∈ l → B ∈ l → compareTwo A B = Ok (expectedTradeoff A B)) →
    forEach (fun tradeoffs '(i, option) =>
               forEach (pushTradeoff option) (drop (i + 1) l) tradeoffs)
            (imap (fun i => pair (k + i)%nat) suffix) tradeoffs
      = Ok (tradeoffs
              ++ List.filter hasTradeoff
                   (map (fun p => expectedTradeoff p.1 p.2) (pairs suffix))).
Proof.
  induction suffix as [|x suffix IH]; intros k ts Hdrop H; simpl.
  - now rewrite app_nil_r.
  - assert (drop (k + 0 + 1) l = suffix) as ->.
    { replace (k + 0 + 1)%nat with (k + 1)%nat by lia. now rewrite <- drop_drop, Hdrop. }
    assert (∀ y, y ∈ x :: suffix → y ∈ l) as Hin.
    { intros y Hy. rewrite <- (take_drop k l), Hdrop. apply elem_of_app. now right. }
    rewrite pushLoop by (intros B HB; apply H; apply Hin; now constructor).
    simpl. rewrite (imap_ext _ (fun i => pair (S k + i)%nat))
      by (intros i y _; unfold compose; f_equal; lia).
    rewrite IH; [| |exact H].
    + rewrite List.map_app, List.filter_app, List.map_map, <- app_assoc. reflexivity.
    + replace (S k) with (k + 1)%nat by lia. now rewrite <- drop_drop, Hdrop.
Qed.


Lemma compareTwo_same evaluatedOptions A B :
  sameCriteria evaluatedOptions → A ∈ evaluatedOptions → B ∈ evaluatedOptions →
  compareTwo A B = Ok (expectedTradeoff A B).
Proof.
  intros Hsame HA HB. apply compareTwo_spec. intros c Hc. now apply (Hsame A B c).
Qed.

Lemma analyzeTradeoffs_pairs evaluatedOptions :
  sameCriteria evaluatedOptions →
  analyzeTradeoffs evaluatedOptions
    = Ok (List.filter hasTradeoff
            (map (fun p => expectedTradeoff p.1 p.2) (pairs evaluatedOptions))).
Proof.
  intros Hsame. unfold analyzeTradeoffs.
  rewrite (imap_ext _ (fun i => pair (0 + i)%nat)) by reflexivity.
  rewrite (tradeoffLoop evaluatedOptions evaluatedOptions 0%nat []);
    [reflexivity | reflexivity |].
  intros A B. now apply compareTwo_same.
Qed.


(** *** The summary *)

(** C7 fails on the code: on the empty list [generateSummary] throws, since
    [generateKeyInsight] reads [evaluatedOptions[0].scores], whereas
    [generateRecommendation] and [analyzeTradeoffs] return on it. *)
Theorem generateSummary_empty_throws constraints :
  generateSummary [] constraints = Throw TypeError
  ∧ generateKeyInsight [] constraints = Throw TypeError
  ∧ (∃ r, generateRecommendation [] constraints = Ok r)
  ∧ analyzeTradeoffs [] = Ok [].
Proof. repeat split. eexists. reflexivity. Qed.

(** *** What [evaluateOptions] returns *)

Lemma evaluateOption_fields criteria constraints i option :
  ref (evaluateOption criteria constraints i option) = i
  ∧ props (evaluateOption criteria constraints i option) = option
  ∧ meetsConstraints (evaluateOption criteria constraints i option)
      = checkConstraints option constraints.
Proof.
  unfold RefereeEngine.evaluateOption.
  now destruct (fold_left _ _ _) as [[scores' total'] k'].
Qed.

Lemma scoreLoop_keys i option constraints rest :
  ∀ scores total k scores' total' k',
    fold_left (scoreStep i option constraints) rest (scores, total, k)
      = (scores', total', k') →
    ∀ c, In c (Scores.keys scores')
           ↔ (In c rest ∧ c ≠ "__proto__"%string) ∨ In c (Scores.keys scores).
Proof.
  induction rest as [|c0 rest IH]; simpl; intros scores total k scores' total' k' H c.
  - injection H as <- _ _. tauto.
  - rewrite (IH _ _ _ _ _ _ H c), ScoresFacts.keys_set. intuition congruence.
Qed.

(** The keys of [scores] are the criteria, [__proto__] apart. *)
Lemma evaluateOption_keys criteria constraints i option c :
  In c (Scores.keys (scores (evaluateOption criteria constraints i option)))
    ↔ In c criteria ∧ c ≠ "__proto__"%string.
Proof.
  unfold RefereeEngine.evaluateOption.
  destruct (fold_left _ _ _) as [[scores' total'] k'] eqn:H. simpl.
  rewrite (scoreLoop_keys _ _ _ _ _ _ _ _ _ _ H c). simpl. tauto.
Qed.

Lemma evaluateOptions_distinct options criteria constraints :
  distinct (evaluateOptions options criteria constraints).
Proof.
  apply NoDup_alt. intros i j r Hi Hj.
  unfold RefereeEngine.evaluateOptions in *.
  rewrite list_lookup_fmap, list_lookup_imap in Hi, Hj.
  destruct (options !! i) as [oi|]; [|discriminate].
  destruct (options !! j) as [oj|]; [|discriminate].
  simpl in *.
  destruct (evaluateOption_fields criteria constraints i oi) as [Ei _].
  destruct (evaluateOption_fields criteria constraints j oj) as [Ej _].
  congruence.
Qed.

Lemma evaluateOptions_sameCriteria options criteria constraints :
  sameCriteria (evaluateOptions options criteria constraints).
Proof.
  intros A B c (i & oA & -> & _)%elem_of_lookup_imap (j & oB & -> & _)%elem_of_lookup_imap Hc.
  apply ScoresFacts.find_key. apply evaluateOption_keys.
  now apply evaluateOption_keys in Hc.
Qed.

(** *** The whole comparison *)

Lemma forEach_returns {A S} (f : S → A → result S) (l : list A) :
  (∀ s x, x ∈ l → ∃ s', f s x = Ok s') → ∀ s, ∃ s', forEach f l s = Ok s'.
Proof.
  induction l as [|x l IH]; intros H s; simpl; [eauto|].
  destruct (H s x) as [s' ->]; [constructor|]. simpl.
  apply IH. intros s0 y Hy. apply H. now constructor.
Qed.

Lemma generateRecommendation_returns evaluatedOptions constraints :
  distinct evaluatedOptions →
  ∃ r,
    generateRecommendation evaluatedOptions constraints = Ok r
    ∧ ∀ top, choice r = Some top → top ∈ evaluatedOptions ∧ meetsConstraints top = true.
Proof.
  intros Hd. unfold RefereeEngine.generateRecommendation.
  destruct (List.filter meetsConstraints evaluatedOptions) as [|x rest] eqn:Ev.
  - simpl. eexists. split; [reflexivity|]. discriminate.
  - change (length (x :: rest) =? 0)%nat with false. cbv iota. simpl reduce1. simpl bind.
    destruct (calculateConfidence_returns (fold_left better rest x) (x :: rest)) as [c ->].
    { rewrite <- Ev. now apply distinct_filter. }
    simpl. eexists. split; [reflexivity|]. simpl. intros top [= <-].
    apply elem_of_filter_bool. rewrite Ev. apply fold_better_elem.
Qed.

Lemma averages_return (evaluatedOptions : list EvaluatedOption) criteria :
  (∀ c opt, c ∈ criteria → opt ∈ evaluatedOptions → is_Some (Scores.find c (scores opt))) →
  ∀ avgScores0,
    ∃ avgScores,
      forEach (fun avgScores criterion =>
                 do total <-
                   forEach (fun sum opt =>
                              do score <- Scores.rawOf criterion (scores opt);
                              Ok (sum + Number.orNaN score))
                           evaluatedOptions 0;
                 Ok (Obj.set criterion
                       (total / Number.of_nat (length evaluatedOptions)) avgScores))
              criteria avgScores0 = Ok avgScores.
Proof.
  intros H. apply forEach_returns. intros avgScores c Hc.
  assert (∃ total,
    forEach (fun sum opt =>
               do score <- Scores.rawOf c (scores opt); Ok (sum + Number.orNaN score))
            evaluatedOptions 0 = Ok total) as [total ->].
  { apply forEach_returns. intros sum opt Hopt. unfold Scores.rawOf.
    destruct (H c opt Hc Hopt) as [score ->%ScoresFacts.get_find]. simpl. eauto. }
  simpl. eauto.
Qed.

Lemma generateKeyInsight_returns evaluatedOptions constraints :
  sameCriteria evaluatedOptions → evaluatedOptions ≠ [] →
  ∃ text, generateKeyInsight evaluatedOptions constraints = Ok text.
Proof.
  intros Hsame Hne. unfold RefereeEngine.generateKeyInsight.
  destruct evaluatedOptions as [|first l] eqn:El; [congruence|]. rewrite <- El in *.
  replace (evaluatedOptions !! 0%nat) with (Some first) by now rewrite El.
  simpl bind.
  assert (first ∈ evaluatedOptions) as Hfirst by (rewrite El; constructor).
  assert (∀ c opt, c ∈ Scores.keys (scores first) → opt ∈ evaluatedOptions →
            is_Some (Scores.find c (scores opt))) as Hall.
  { intros c opt Hc%list_elem_of_In Hopt. now apply (Hsame first opt c). }
  destruct (averages_return evaluatedOptions _ Hall []) as [avgScores ->].
  simpl. eauto.
Qed.

Lemma generateSummary_returns evaluatedOptions constraints :
  sameCriteria evaluatedOptions → evaluatedOptions ≠ [] →
  ∃ s, generateSummary evaluatedOptions constraints = Ok s.
Proof.
  intros Hsame Hne. unfold RefereeEngine.generateSummary.
  destruct (generateKeyInsight_returns _ constraints Hsame Hne) as [text ->].
  simpl. eauto.
Qed.

(** C2: when [compare] returns, which it does as soon as there is an option,
    each input option is in [comparison] at its own position, with its
    properties and the derived [meetsConstraints], and the choice of the
    recommendation, if there is one, is an entry of [comparison] whose
    [meetsConstraints] is true. *)
Theorem compare_keeps_options options criteria constraints :
  (options ≠ [] → ∃ r, compare options criteria constraints = Ok r)
  ∧ ∀ r,
      compare options criteria constraints = Ok r →
      length (comparison r) = length options
      ∧ (∀ i o, options !! i = Some o →
           ∃ e, comparison r !! i = Some e ∧ props e = o
                ∧ meetsConstraints e = checkConstraints o constraints)
      ∧ (∀ top, choice (recommendation r) = Some top →
           top ∈ comparison r ∧ meetsConstraints top = true).
Proof.
  unfold RefereeEngine.compare.
  set (evaluatedOptions := evaluateOptions options criteria constraints).
  pose proof (evaluateOptions_distinct options criteria constraints) as Hd.
  pose proof (evaluateOptions_sameCriteria options criteria constraints) as Hsame.
  fold evaluatedOptions in Hd, Hsame.
  destruct (generateRecommendation_returns evaluatedOptions constraints Hd)
    as (recommendation & -> & Hchoice).
  rewrite (analyzeTradeoffs_pairs _ Hsame). simpl bind.
  split.
  - intros Hne.
    destruct (generateSummary_returns evaluatedOptions constraints Hsame) as [s ->].
    { subst evaluatedOptions. unfold RefereeEngine.evaluateOptions.
      intros E. apply (f_equal length) in E. rewrite length_imap in E.
      now destruct options. }
    simpl. eauto.
  - intros r Hr.
    destruct (generateSummary evaluatedOptions constraints) as [s|]; [|discriminate].
    injection Hr as <-. simpl.
    split; [apply length_imap|]. split; [|exact Hchoice].
    intros i o Hi. exists (evaluateOption criteria constraints i o).
    subst evaluatedOptions. unfold RefereeEngine.evaluateOptions.
    rewrite list_lookup_imap, Hi. split; [reflexivity|].
    apply evaluateOption_fields.
Qed.

(** With no option at all [compare] throws, in [generateSummary]. *)
Lemma compare_nothing_throws criteria constraints :
  compare [] criteria constraints = Throw TypeError.
Proof. reflexivity. Qed.
End Properties.
End RefereeFacts.

(** ** The properties on the sample comparison *)

Module Witnesses.
Import RefereeEngine Spec RefereeFacts.
Local Open Scope float_scope.

Ltac elements H :=
  vm_compute in H;
  repeat (apply elem_of_cons in H as [->|H]);
  [.. | now apply elem_of_nil in H].

Lemma totalScore_is_sum_witness :
  sumInvariant Sample.criteria
    (RefereeEngine.evaluateOption Sample.random Sample.toFixed
       Sample.criteria Sample.noConstraints 0 Sample.optionA).
Proof.
  destruct (totalScore_is_sum Sample.random Sample.toFixed Sample.sort
              Sample.options Sample.criteria Sample.noConstraints) as [Hsum _].
  - apply (bool_decide_unpack _). vm_compute. exact I.
  - apply Hsum. apply (list_elem_of_lookup_2 _ 0%nat). reflexivity.
Defined.

(** C1 as stated fails when a criterion is listed twice: [scores] keeps the
    second score only, while [totalScore] has both. *)
Lemma totalScore_not_sum_with_duplicates :
  ∃ e,
    e ∈ RefereeEngine.evaluateOptions Sample.random Sample.toFixed
          [Sample.optionA] ["cost"; "cost"]%string Sample.noConstraints
    ∧ totalScore e = 1.875
    ∧ sumWeighted (scores e) ["cost"; "cost"]%string 0 = Some 2.5
    ∧ ¬ sumInvariant ["cost"; "cost"]%string e.
Proof.
  eexists. split; [apply (list_elem_of_lookup_2 _ 0%nat); reflexivity|].
  split; [reflexivity|]. split; [reflexivity|].
  unfold sumInvariant. vm_compute. intros [= H].
Qed.

Lemma compare_keeps_options_sample :
  ∃ r,
    RefereeEngine.compare Sample.random Sample.toFixed Sample.sort
      Sample.options Sample.criteria Sample.noConstraints = Ok r
    ∧ comparison r = Sample.evaluated
    ∧ (ref <$> choice (recommendation r)) = Some 1%nat.
Proof. eexists. split; [vm_compute; reflexivity|]. split; reflexivity. Qed.

Lemma choice_is_first_best_witness :
  ∃ r top,
    RefereeEngine.generateRecommendation Sample.toFixed Sample.evaluated
      Sample.noConstraints = Ok r
    ∧ choice r = Some top
    ∧ firstBestValid Sample.evaluated top.
Proof.
  apply (choice_is_first_best Sample.toFixed Sample.evaluated Sample.noConstraints).
  - apply (bool_decide_unpack _). vm_compute. exact I.
  - intros o Ho. elements Ho; reflexivity.
  - vm_compute. discriminate.
Defined.

(** C3 as stated fails when a total is NaN: with the weights 1e308 and
    -1e308 the first option totals infinity - infinity, the second 0, and
    the first is the choice although it does not score highest. *)
Lemma choice_not_best_with_nan :
  ∃ r top other,
    RefereeEngine.compare Cases.halfThenZero Sample.toFixed Sample.sort
      [Sample.optionA; Sample.optionB] ["performance"; "cost"]%string
      Cases.opposedWeights = Ok r
    ∧ choice (recommendation r) = Some top
    ∧ other ∈ valid (comparison r)
    ∧ is_nan (totalScore top) = true
    ∧ totalScore other = 0
    ∧ (totalScore other <=? totalScore top) = false
    ∧ ¬ firstBestValid (comparison r) top.
Proof.
  eexists _, _, _. split; [vm_compute; reflexivity|].
  split; [reflexivity|].
  split; [apply (list_elem_of_lookup_2 _ 1%nat); reflexivity|].
  split; [reflexivity|]. split; [reflexivity|]. split; [reflexivity|].
  intros (l1 & l2 & Heq & _ & _ & H2).
  destruct l1 as [|x [|y l1]].
  - apply (f_equal (@tl _)) in Heq. simpl in Heq. rewrite <- Heq in H2.
    specialize (H2 _ (list_elem_of_here _ _) eq_refl). discriminate.
  - apply (f_equal (fun l => ref <$> l !! 1%nat)) in Heq. discriminate.
  - apply (f_equal length) in Heq. simpl in Heq. rewrite length_app in Heq.
    simpl in Heq. lia.
Qed.

Lemma confidence_of_choice_witness :
  ∃ r top c,
    RefereeEngine.generateRecommendation Sample.toFixed Sample.evaluated
      Sample.noConstraints = Ok r
    ∧ choice r = Some top
    ∧ confidence r = Some c
    ∧ (0.5 <=? c) = true ∧ (c <=? 1) = true.
Proof.
  destruct (confidence_of_choice Sample.toFixed Sample.evaluated Sample.noConstraints)
    as (r & top & c & Hr & Htop & Hc & Hlo & Hhi & _).
  - apply (bool_decide_unpack _). vm_compute. exact I.
  - intros o Ho. elements Ho; reflexivity.
  - vm_compute. discriminate.
  - exists r, top, c. repeat split; assumption.
Defined.

(** C4 as stated fails when the scores are infinite: with the weight 1e308
    both options total infinity, the gap is infinity - infinity, and the
    confidence is NaN, outside [0.5, 1]. *)
Lemma confidence_nan_with_infinite_scores :
  ∃ r top c,
    RefereeEngine.compare Cases.half Sample.toFixed Sample.sort
      [Sample.optionA; Sample.optionB] ["performance"%string]
      Cases.hugeWeight = Ok r
    ∧ choice (recommendation r) = Some top
    ∧ totalScore top = infinity
    ∧ confidence (recommendation r) = Some c
    ∧ is_nan c = true
    ∧ (0.5 <=? c) = false
    ∧ (c <=? 1) = false.
Proof.
  eexists _, _, _. split; [vm_compute; reflexivity|].
  split; [reflexivity|]. split; [reflexivity|]. split; [reflexivity|].
  now repeat split.
Qed.

Lemma no_valid_option_witness :
  RefereeEngine.generateRecommendation Sample.toFixed Sample.overBudget
    (withMaxCost (Some 50) Sample.noConstraints)
    = Ok {| choice := None;
            reason := "No options meet the specified constraints";
            alternatives := Some (take 2 Sample.overBudget);
            confidence := None |}
  ∧ length (take 2 Sample.overBudget) = 2%nat.
Proof.
  destruct (no_valid_option Sample.toFixed Sample.overBudget
              (withMaxCost (Some 50) Sample.noConstraints)) as [Hr Hlen].
  - intros o Ho. elements Ho; reflexivity.
  - split; [exact Hr|]. apply Hlen. vm_compute. lia.
Defined.


Lemma default_weight_witness :
  criterionWeight Sample.noConstraints "performance" = Value.Number 0.3
  ∧ criterionWeight Sample.noConstraints "constructor" = Value.Inherited "constructor".
Proof.
  split.
  - apply (default_weight Sample.toFixed Sample.noConstraints "performance");
      reflexivity.
  - apply (default_weight Sample.toFixed Sample.noConstraints "constructor");
      reflexivity.
Defined.

(** C8 as stated fails: alone in the criteria and without a weight from the
    caller, "performance" weighs 0.3 and not 1/1. *)
Lemma default_weight_not_reciprocal :
  In "performance"%string ["performance"%string]
  ∧ weights Sample.noConstraints ≫= (.!! "performance"%string) = None
  ∧ criterionWeight Sample.noConstraints "performance" = Value.Number 0.3
  ∧ reciprocalWeight ["performance"%string] = 1
  ∧ criterionWeight Sample.noConstraints "performance"
      ≠ Value.Number (reciprocalWeight ["performance"%string]).
Proof.
  split; [now left|]. split; [reflexivity|]. split; [reflexivity|]. split; [reflexivity|].
  vm_compute. intros [= H].
Qed.

Lemma maxCost_monotone_witness :
  (validCount Sample.options (withMaxCost (Some 90%float) Sample.noConstraints)
     ≤ validCount Sample.options (withMaxCost (Some 120%float) Sample.noConstraints))%nat.
Proof.
  apply (maxCost_monotone Sample.options Sample.noConstraints 90 120); reflexivity.
Defined.

(** C9 as stated fails from the bound 0, which [checkConstraints] takes for
    no bound: all three options pass under [maxCost = 0], one under 90. *)
Lemma maxCost_zero_not_monotone :
  (0 <=? 90)%float = true
  ∧ validCount Sample.options (withMaxCost (Some 0%float) Sample.noConstraints) = 3%nat
  ∧ validCount Sample.options (withMaxCost (Some 90%float) Sample.noConstraints) = 1%nat
  ∧ ¬ (validCount Sample.options (withMaxCost (Some 0%float) Sample.noConstraints)
         ≤ validCount Sample.options (withMaxCost (Some 90%float) Sample.noConstraints))%nat.
Proof.
  split; [reflexivity|]. split; [reflexivity|]. split; [reflexivity|].
  vm_compute. lia.
Qed.

Lemma maxCost_zero_unconstrained_witness :
  checkConstraints Sample.optionA (withMaxCost (Some 0) Sample.noConstraints) = true.
Proof.
  rewrite (maxCost_zero_unconstrained Sample.optionA Sample.noConstraints 0); reflexivity.
Defined.
End Witnesses.

(** ** Ties and wide gaps

    What the two ends of the confidence scale need of the binary64
    operations: equal scores leave a gap of zero, and a gap of 5 or more
    fills the scale. *)

Module SFGap.
Import Binary64.
Local Open Scope Z_scope.

(** The difference of two equal finite numbers is a zero. *)
Lemma SFsub_equal x y :
  finite x = true → finite y = true → SFcompare x y = Some Eq →
  ∃ s, SF64sub x y = S754_zero s.
Proof.
  destruct x as [sx|sx| |sx mx ex], y as [sy|sy| |sy my ey]; try discriminate;
    intros _ _ H.
  - destruct sx, sy; eexists; reflexivity.
  - simpl in H. destruct sy; discriminate.
  - simpl in H. destruct sx; discriminate.
  - assert (sx = sy ∧ ex = ey ∧ mx = my) as (-> & -> & ->).
    { simpl in H. destruct sx, sy; try discriminate;
        SFArith.sf_compare_cases; try discriminate; auto. }
    exists false. unfold SF64sub, SFsub.
    rewrite Z.sub_diag. reflexivity.
Qed.

Lemma one_leb_finite (h : positive) p e :
  h = 4503599627370496%positive →
  -52 < e ∨ (e = -52 ∧ 4503599627370496 ≤ Zpos p) →
  SFleb (S754_finite false h (-52)) (S754_finite false p e) = true.
Proof.
  intros Eh H. unfold SFleb, SFcompare.
  destruct (Z.compare_spec (-52) e); [|reflexivity|lia].
  change (Pos.compare_cont Eq h p) with (h ?= p)%positive.
  destruct (Pos.compare_spec h p); [reflexivity|reflexivity|lia].
Qed.

(** Rounding a mantissa of at least 53 digits whose value is at least 1
    gives at least 1. *)
Lemma binary_round_aux_ge_one (h : positive) m e l :
  h = 4503599627370496%positive →
  53 ≤ Zpos (digits2_pos m) → 1 ≤ Zpos (digits2_pos m) + e →
  SFleb (S754_finite false h (-52)) (binary_round_aux prec emax false (Zpos m) e l) = true.
Proof.
  intros Eh Hd He. unfold binary_round_aux.
  pose proof (SFArith.digits2_pos_bounds m) as [Lm Um].
  set (d := Zpos (digits2_pos m)) in *.
  destruct (shr_fexp prec emax (Zpos m) e l) as [r1 e1] eqn:E1.
  apply SFArith.shr_fexp_spec in E1 as [H1 ->]; [|lia].
  simpl Zdigits2 in *. fold d in H1 |- *.
  assert (Z.max 0 (fexp prec emax (d + e) - e) = d - 53) as En
    by (unfold fexp, SpecFloat.emin, prec, emax; lia).
  rewrite En in *.
  assert (0 < 2 ^ (d - 53)) as Hpow by (apply Z.pow_pos_nonneg; lia).
  assert (4503599627370496 ≤ shr_m r1 < 9007199254740992) as [L1 U1].
  { rewrite H1. split.
    - apply Z.div_le_lower_bound; [assumption|].
      change 4503599627370496 with (2 ^ 52). rewrite <- Z.pow_add_r by lia.
      now replace (d - 53 + 52) with (d - 1) by lia.
    - apply Z.div_lt_upper_bound; [assumption|].
      change 9007199254740992 with (2 ^ 53). rewrite <- Z.pow_add_r by lia.
      now replace (d - 53 + 53) with d by lia. }
  pose proof (SFArith.round_nearest_even_bounds (shr_m r1) (loc_of_shr_record r1)) as [L2 U2].
  set (m2 := round_nearest_even _ _) in *.
  destruct (shr_fexp prec emax m2 (e + (d - 53)) loc_Exact) as [r2 e2] eqn:E2.
  apply SFArith.shr_fexp_spec in E2 as [H2 ->]; [|lia].
  destruct m2 as [|p2|p2]; [lia| |lia]. simpl Zdigits2 in *.
  destruct (Z.eq_dec (Zpos p2) 9007199254740992) as [E|N].
  - assert (Zpos (digits2_pos p2) = 54) as D2
      by (apply SFArith.digits2_pos_unique; rewrite E; simpl; lia).
    rewrite D2 in *.
    assert (Z.max 0 (fexp prec emax (54 + (e + (d - 53))) - (e + (d - 53))) = 1) as En2
      by (unfold fexp, SpecFloat.emin, prec, emax; lia).
    rewrite En2, E in *. change (9007199254740992 / 2 ^ 1) with 4503599627370496 in H2.
    rewrite H2. destruct (_ <=? _); [|reflexivity].
    apply one_leb_finite; [exact Eh | lia].
  - assert (Zpos (digits2_pos p2) = 53) as D2
      by (apply SFArith.digits2_pos_unique; simpl; lia).
    rewrite D2 in *.
    assert (Z.max 0 (fexp prec emax (53 + (e + (d - 53))) - (e + (d - 53))) = 0) as En2
      by (unfold fexp, SpecFloat.emin, prec, emax; lia).
    rewrite En2, Z.div_1_r in *.
    rewrite H2. destruct (_ <=? _); [|reflexivity].
    apply one_leb_finite; [exact Eh | lia].
Qed.

(** A valid number from 0.5 on has a full mantissa. *)
Lemma from_half m e :
  valid_binary (S754_finite false m e) = true →
  SFleb half (S754_finite false m e) = true →
  -53 ≤ e ∧ 4503599627370496 ≤ Zpos m.
Proof.
  intros (_ & _ & F)%SFArith.valid_finite H.
  unfold SFleb, half, SFcompare in H.
  pose proof (SFArith.digits2_pos_bounds m) as [L _].
  remember 4503599627370496%positive as h eqn:Eh.
  destruct (Z.compare_spec (-53) e) as [<-|Hlt|Hgt]; [| |discriminate].
  - rewrite F in L by lia. change (2 ^ (53 - 1)) with 4503599627370496 in L. lia.
  - rewrite F in L by lia. change (2 ^ (53 - 1)) with 4503599627370496 in L. lia.
Qed.

(** [0.5 + y] is at least 1 when [y] is at least 0.5. *)
Lemma SFadd_half_ge_one (h : positive) y :
  h = 4503599627370496%positive →
  valid_binary y = true → SFleb half y = true →
  SFleb (S754_finite false h (-52)) (SF64add half y) = true.
Proof.
  intros Eh Vy Hy.
  destruct y as [sy|[]| |[] my ey]; try discriminate; [reflexivity|].
  destruct (from_half my ey Vy Hy) as [He Hm].
  unfold SF64add, SFadd, half.
  replace (Z.min (-53) ey) with (-53) by lia.
  pose proof (SFArith.shl_align_value my ey (-53) ltac:(lia)) as Hy'.
  simpl cond_Zopp. rewrite <- Pos2Z.inj_add.
  change (fst (shl_align 4503599627370496 (-53) (-53))) with 4503599627370496%positive.
  remember (4503599627370496 + fst (shl_align my ey (-53)))%positive as M eqn:EM.
  assert (2 ^ 53 ≤ Zpos M) as HM.
  { rewrite EM, Pos2Z.inj_add, Hy'.
    assert (1 ≤ 2 ^ (ey - -53)) by (apply (Z.pow_le_mono_r 2 0); lia).
    change (2 ^ 53) with 9007199254740992. nia. }
  pose proof (SFArith.digits2_pos_bounds M) as [_ UM].
  assert (54 ≤ Zpos (digits2_pos M)) as HdM.
  { destruct (Z.le_gt_cases 54 (Zpos (digits2_pos M))); [assumption|].
    assert (2 ^ Zpos (digits2_pos M) ≤ 2 ^ 53) by (apply Z.pow_le_mono_r; lia). lia. }
  simpl binary_normalize. unfold binary_round.
  assert (shl_align M (-53) (fexp prec emax (Zpos (digits2_pos M) + -53)) = (M, -53)) as ->.
  { unfold shl_align.
    assert (0 ≤ fexp prec emax (Zpos (digits2_pos M) + -53) - -53) as Hn
      by (unfold fexp, SpecFloat.emin, prec, emax; lia).
    destruct (fexp prec emax (Zpos (digits2_pos M) + -53) - -53);
      [reflexivity|reflexivity|lia]. }
  apply binary_round_aux_ge_one; [exact Eh | lia | lia].
Qed.

(** A number from 5 on, divided by 10, is at least 0.5. *)
Lemma SFdiv_ten_ge_half (h : positive) x :
  h = 5629499534213120%positive →
  valid_binary x = true →
  SFleb (S754_finite false h (-50)) x = true →
  SFleb half (SF64div x (S754_finite false h (-49))) = true.
Proof.
  intros Eh Vx Hx.
  destruct x as [sx|[]| |[] mx ex]; try discriminate; [reflexivity|].
  assert (Zpos (digits2_pos h) = 53) as Dh by (rewrite Eh; reflexivity).
  assert (-50 < ex ∨ (ex = -50 ∧ Zpos h ≤ Zpos mx)) as He.
  { unfold SFleb, SFcompare in Hx.
    destruct (Z.compare_spec (-50) ex) as [<-|Hlt|Hgt]; [| lia | discriminate].
    change (Pos.compare_cont Eq h mx) with (h ?= mx)%positive in Hx.
    destruct (Pos.compare_spec h mx); [lia | lia | discriminate]. }
  apply SFArith.valid_finite in Vx as (_ & _ & Dx). specialize (Dx ltac:(lia)).
  pose proof (SFArith.digits2_pos_bounds mx) as [Lx Ux]. rewrite Dx in Lx, Ux.
  change (2 ^ (53 - 1)) with 4503599627370496 in Lx.
  unfold SF64div, SFdiv, SFdiv_core_binary. simpl Zdigits2. cbv zeta.
  rewrite Dx, Dh.
  assert (Z.min (fexp prec emax (53 + ex - (53 + -49))) (ex - -49) = ex - 4) as ->
    by (unfold fexp, SpecFloat.emin, prec, emax; lia).
  replace (ex - -49 - (ex - 4)) with 53 by lia.
  rewrite Z.shiftl_mul_pow2 by lia.
  pose proof (Z.div_le_lower_bound (Zpos mx * 2 ^ 53) (Zpos h)) as Hq.
  unfold Z.div in Hq.
  destruct (Z.div_eucl (Zpos mx * 2 ^ 53) (Zpos h)) as [q r]. simpl xorb.
  assert (4503599627370496 ≤ q) as Lq.
  { apply Hq; [lia|]. rewrite Eh. change (2 ^ 53) with 9007199254740992. lia. }
  destruct q as [|q|q]; [lia| |lia].
  pose proof (SFArith.digits2_pos_bounds q) as [_ Uq].
  assert (53 ≤ Zpos (digits2_pos q)) as Dq.
  { destruct (Z.le_gt_cases 53 (Zpos (digits2_pos q))); [assumption|].
    assert (2 ^ Zpos (digits2_pos q) ≤ 2 ^ 52) by (apply Z.pow_le_mono_r; lia).
    change (2 ^ 52) with 4503599627370496 in *. lia. }
  apply SFArith.binary_round_aux_ge_half; [exact Dq|].
  destruct He as [He|[-> Hm]]; [lia|].
  assert (9007199254740992 ≤ Zpos q) as Lq'.
  { apply Hq; [lia|]. change (2 ^ 53) with 9007199254740992. nia. }
  destruct (Z.le_gt_cases 54 (Zpos (digits2_pos q))); [lia|].
  assert (2 ^ Zpos (digits2_pos q) ≤ 2 ^ 53) by (apply Z.pow_le_mono_r; lia).
  change (2 ^ 53) with 9007199254740992 in *. lia.
Qed.
End SFGap.

Module Float64Gap.
Local Open Scope float_scope.

Lemma lex_le_trans a b c :
  Binary64.lex a b ≠ Gt → Binary64.lex b c ≠ Gt → Binary64.lex a c ≠ Gt.
Proof.
  destruct a as [[a1 a2] a3], b as [[b1 b2] b3], c as [[c1 c2] c3]; simpl.
  intros H1 H2. SF.lex_cases; congruence.
Qed.

Lemma leb_trans x y z : (x <=? y) = true → (y <=? z) = true → (x <=? z) = true.
Proof.
  intros (Hx & Hy & H1)%Float64.leb_true (_ & Hz & H2)%Float64.leb_true.
  apply Float64.leb_true. repeat split; try assumption.
  now apply lex_le_trans with (Binary64.rank y).
Qed.

Lemma leb_antisym x y :
  (x <=? y) = true → (y <=? x) = true →
  SFcompare (Prim2SF x) (Prim2SF y) = Some Eq.
Proof.
  intros (Hx & Hy & H1)%Float64.leb_true (_ & _ & H2)%Float64.leb_true.
  rewrite Float64.compare_by_key by assumption. rewrite SF.lex_antisym in H2.
  destruct (Binary64.lex (Binary64.rank x) (Binary64.rank y)); simpl in H2; congruence.
Qed.

(** Two equal finite scores give the confidence 0.5. *)
Lemma tie_confidence t s :
  is_finite t = true → is_finite s = true →
  (s <=? t) = true → (t <=? s) = true →
  Number.min (0.5 + (t - s) / 10) 1 = 0.5.
Proof.
  intros Ht Hs H1 H2.
  assert (0.5 + (t - s) / 10 = 0.5) as ->; [|reflexivity].
  apply Prim2SF_inj.
  rewrite add_spec, div_spec, sub_spec, Float64.Prim2SF_half, Float64.Prim2SF_ten.
  destruct (SFGap.SFsub_equal (Prim2SF t) (Prim2SF s)) as [sg ->];
    [now apply Float64.is_finite_spec | now apply Float64.is_finite_spec
    | now apply leb_antisym |].
  now destruct sg.
Qed.

(** The only number that is neither below nor above 1 is 1. *)
Lemma rank_one x :
  is_nan x = false → Binary64.lex (Binary64.rank 1) (Binary64.rank x) = Eq → x = 1.
Proof.
  intros Hx H. apply Prim2SF_inj. rewrite Float64.is_nan_spec in Hx.
  unfold Binary64.rank in H.
  change (Prim2SF 1) with (S754_finite false 4503599627370496 (-52)) in *.
  destruct (Prim2SF x) as [sx|[]| |[] m e]; try discriminate.
  unfold Binary64.key, Binary64.lex in H.
  rewrite Z.compare_refl in H.
  destruct (Z.compare_spec (-52) e) as [<-| |]; try discriminate.
  apply Z.compare_eq in H. now injection H as <-.
Qed.

Lemma min_from_one x : (1 <=? x) = true → Number.min x 1 = 1.
Proof.
  intros H. pose proof H as (_ & Hx & Hle)%Float64.leb_true.
  unfold Number.min. rewrite Hx. change (is_nan 1) with false. simpl orb. cbv iota.
  destruct (x <? 1) eqn:E1.
  { apply Float64.ltb_true in E1 as (_ & _ & E1).
    rewrite SF.lex_antisym, E1 in Hle. now destruct Hle. }
  destruct (1 <? x) eqn:E2; [reflexivity|].
  assert (x = 1) as ->; [|now destruct (get_sign 1)].
  apply rank_one; [exact Hx|].
  destruct (Binary64.lex (Binary64.rank 1) (Binary64.rank x)) eqn:E; [reflexivity| |congruence].
  assert ((1 <? x) = true) by (apply Float64.ltb_true; now repeat split). congruence.
Qed.

(** A gap of 5 or more gives the confidence 1. *)
Lemma wide_gap_confidence g : (5 <=? g) = true → Number.min (0.5 + g / 10) 1 = 1.
Proof.
  intros H. apply min_from_one.
  rewrite FloatAxioms.leb_spec in H |- *.
  rewrite add_spec, Float64.Prim2SF_half.
  change (Prim2SF 1) with (S754_finite false 4503599627370496 (-52)).
  apply SFGap.SFadd_half_ge_one; [reflexivity | apply Prim2SF_valid |].
  rewrite div_spec, Float64.Prim2SF_ten.
  apply SFGap.SFdiv_ten_ge_half; [reflexivity | apply Prim2SF_valid | exact H].
Qed.

(** Two numbers that compare equal differ by a zero, or by NaN if they are
    infinite: never by more than 1. *)
Lemma equal_not_apart x y : (x =? y) = true → (1 <? abs (x - y)) = false.
Proof.
  rewrite FloatAxioms.eqb_spec, FloatAxioms.ltb_spec, abs_spec, sub_spec.
  unfold SFeqb, SFltb.
  destruct (Prim2SF x) as [sx|sx| |sx mx ex], (Prim2SF y) as [sy|sy| |sy my ey];
    try discriminate; intros H;
    try (now destruct sx, sy); try (now destruct sx); try (now destruct sy).
  - destruct (SFcompare (S754_finite sx mx ex) (S754_finite sy my ey)) as [[]|] eqn:E;
      try discriminate.
    destruct (SFGap.SFsub_equal (S754_finite sx mx ex) (S754_finite sy my ey))
      as [sg ->]; [reflexivity | reflexivity | exact E |]. reflexivity.
Qed.
End Float64Gap.

(** ** Further properties of the engine *)

Module EngineFacts.
Import RefereeEngine Spec Notions.

Section More.
Local Open Scope float_scope.

Variable random : nat → nat → float.
Variable toFixed : float → nat → string.
Variable sort : ∀ A : Type, (A → A → float) → list A → list A.

Local Abbreviation evaluateCriterion := (RefereeEngine.evaluateCriterion toFixed).
Local Abbreviation scoreStep := (RefereeEngine.scoreStep random toFixed).
Local Abbreviation evaluateOption := (RefereeEngine.evaluateOption random toFixed).
Local Abbreviation evaluateOptions := (RefereeEngine.evaluateOptions random toFixed).
Local Abbreviation generateRecommendation := (RefereeEngine.generateRecommendation toFixed).

(** *** Constraints *)

Lemma includes_In feature present :
  existsb (String.eqb feature) present = true ↔ In feature present.
Proof.
  rewrite existsb_exists. split.
  - now intros (f & Hf & ->%String.eqb_eq).
  - intros H. exists feature. split; [exact H | apply String.eqb_refl].
Qed.

(** X1: requiring fewer features never excludes an option: an option that
    passes [checkConstraints] with the required features [required] passes
    with any list whose features are all in [required], the cost bound
    being the same. *)
Theorem fewer_features_pass option constraints required required' :
  (∀ feature, In feature required' → In feature required) →
  checkConstraints option (withFeatures (Some required) constraints) = true →
  checkConstraints option (withFeatures (Some required') constraints) = true.
Proof.
  intros Hsub. unfold checkConstraints. simpl.
  destruct (match maxCost constraints with Some m => _ | None => false end);
    [discriminate|].
  rewrite !forallb_forall. intros H feature Hf. apply H, Hsub, Hf.
Qed.

(** X2: the features test of [checkConstraints].  Without a cost bound, an
    option passes exactly when each required feature is among its
    [features]; so an option without [features] passes only the empty list
    of required features, which every option passes. *)
Theorem required_features_met option constraints required :
  (checkConstraints option (withFeatures (Some required) (withMaxCost None constraints)) = true
     ↔ hasFeatures option required)
  ∧ (features option = None →
     checkConstraints option (withFeatures (Some required) (withMaxCost None constraints))
       = match required with [] => true | _ => false end).
Proof.
  unfold checkConstraints, hasFeatures. simpl. split.
  - rewrite forallb_forall. split.
    + intros H feature Hf. specialize (H feature Hf).
      destruct (features option) as [present|]; [|discriminate].
      exists present. split; [reflexivity | now apply includes_In].
    + intros H feature Hf. destruct (H feature Hf) as (present & -> & Hin).
      now apply includes_In.
  - intros ->. now destruct required.
Qed.

(** X3: the cost test of [checkConstraints].  An option whose cost exceeds a
    bound other than 0 fails, whatever its features; an option without
    [cost], or whose cost does not exceed the bound, is judged as if there
    were no bound. *)
Theorem cost_bound option constraints m :
  (∀ c, cost option = Some c → (m <? c) = true → is_zero m = false →
     checkConstraints option (withMaxCost (Some m) constraints) = false)
  ∧ (cost option = None ∨ (∃ c, cost option = Some c ∧ (m <? c) = false) →
     checkConstraints option (withMaxCost (Some m) constraints)
       = checkConstraints option (withMaxCost None constraints)).
Proof.
  unfold checkConstraints. simpl. split.
  - intros c -> Hlt Hnz. simpl. unfold Number.gt, Number.truthy. rewrite Hlt, Hnz.
    apply Float64.ltb_true in Hlt as (Hnan & _). now rewrite Hnan.
  - intros [-> | (c & -> & Hc)]; simpl.
    + now rewrite andb_false_r.
    + unfold Number.gt. now rewrite Hc, andb_false_r.
Qed.

(** *** Weights *)

(** X4: a weight the caller gives for a criterion is the one
    [evaluateCriterion] multiplies the raw score by, unless it is 0 or NaN:
    then the engine falls back on its table of defaults, or on 0.1, or, for
    a property name of [Object.prototype], on the function or object of that
    name, whose product with the raw score is NaN. *)
Theorem supplied_weight constraints given criterion w :
  weights constraints = Some given → given !! criterion = Some w →
  (Number.truthy w = true → criterionWeight constraints criterion = Value.Number w)
  ∧ (Number.truthy w = false →
     criterionWeight constraints criterion
       = if Obj.inherited criterion then Value.Inherited criterion
         else Value.Number (default 0.1 (defaultWeights !! criterion)))
  ∧ ∀ r option,
      weighted (evaluateCriterion r option criterion constraints)
        = r * 10 * Value.toNumber (criterionWeight constraints criterion).
Proof.
  intros Hw Hc. split; [|split; [|reflexivity]]; intros Ht;
    unfold criterionWeight; rewrite Hw, Hc; unfold Value.or at 2; simpl; rewrite Ht.
  - unfold Value.or. simpl. now rewrite Ht.
  - unfold Value.read.
    destruct (defaultWeights !! criterion) as [d|] eqn:Hd.
    + rewrite (RefereeFacts.defaultWeights_own _ _ Hd).
      unfold Value.or. simpl. now rewrite (RefereeFacts.defaultWeights_truthy _ _ Hd).
    + now destruct (Obj.inherited criterion).
Qed.

(** *** The scores of an evaluated option *)

(** The state of the criteria loop, by components. *)
Lemma scoreLoop_step i option constraints c rest scores total k :
  fold_left (scoreStep i option constraints) (c :: rest) (scores, total, k)
    = fold_left (scoreStep i option constraints) rest
        (Scores.set c (evaluateCriterion (random i k) option c constraints) scores,
         total + weightedAt random toFixed i option constraints k c, S k).
Proof. reflexivity. Qed.

Lemma scoreLoop_keys_ext constraints rest :
  ∀ i1 option1 scores1 total1 k1 i2 option2 scores2 total2 k2,
    Scores.keys scores1 = Scores.keys scores2 →
    Scores.keys (fold_left (scoreStep i1 option1 constraints) rest (scores1, total1, k1)).1.1
      = Scores.keys (fold_left (scoreStep i2 option2 constraints) rest (scores2, total2, k2)).1.1.
Proof.
  induction rest as [|c rest IH]; intros i1 o1 s1 t1 k1 i2 o2 s2 t2 k2 H; [exact H|].
  rewrite !scoreLoop_step. apply IH. now apply ScoresFacts.keys_set_ext.
Qed.

Lemma scoreLoop_NoDup i option constraints rest :
  ∀ scores total k,
    NoDup (Scores.keys scores) →
    NoDup (Scores.keys (fold_left (scoreStep i option constraints) rest (scores, total, k)).1.1).
Proof.
  induction rest as [|c rest IH]; intros s t k H; [exact H|].
  rewrite scoreLoop_step. apply IH. now apply ScoresFacts.keys_set_NoDup.
Qed.

Lemma evaluateOption_scores criteria constraints i option :
  scores (evaluateOption criteria constraints i option)
    = (fold_left (scoreStep i option constraints) criteria (Scores.empty, 0, 0%nat)).1.1
  ∧ totalScore (evaluateOption criteria constraints i option)
    = (fold_left (scoreStep i option constraints) criteria (Scores.empty, 0, 0%nat)).1.2.
Proof.
  unfold RefereeEngine.evaluateOption.
  now destruct (fold_left _ _ _) as [[scores' total'] k'].
Qed.

(** The prototype of [scores] is replaced exactly by a criterion named
    [__proto__]. *)
Lemma scoreLoop_proto i option constraints rest :
  ∀ scores total k,
    ¬ In "__proto__"%string (Scores.keys scores) →
    Scores.proto (fold_left (scoreStep i option constraints) rest (scores, total, k)).1.1
      = None
    ↔ Scores.proto scores = None ∧ ¬ In "__proto__"%string rest.
Proof.
  induction rest as [|c rest IH]; intros s t k Hown; [simpl; tauto|].
  rewrite scoreLoop_step, IH.
  - unfold Scores.set. simpl In.
    destruct (String.eqb_spec c "__proto__") as [->|Hc].
    + apply ObjFacts.get_None in Hown. unfold Scores.keys in Hown. rewrite Hown.
      simpl. split; [intros [[=] _] | intros [_ H]; exfalso; apply H; now left].
    + destruct (Obj.get c (Scores.own s)); simpl; intuition congruence.
  - rewrite ScoresFacts.keys_set. intros [[E H]|H]; [congruence | now apply Hown].
Qed.

(** X5: the [scores] of every option [evaluateOptions] returns has one key
    for each criterion of the list other than [__proto__], however often
    the list names it, and no other key; all the options returned list
    their keys in the same order; and the prototype of [scores] is replaced
    exactly when the list names [__proto__]. *)
Theorem scores_keys options criteria constraints :
  ∀ e, e ∈ evaluateOptions options criteria constraints →
    NoDup (Scores.keys (scores e))
    ∧ (∀ c, In c (Scores.keys (scores e)) ↔ In c criteria ∧ c ≠ "__proto__"%string)
    ∧ (Scores.proto (scores e) = None ↔ ¬ In "__proto__"%string criteria)
    ∧ ∀ e', e' ∈ evaluateOptions options criteria constraints →
        Scores.keys (scores e') = Scores.keys (scores e).
Proof.
  intros e (i & option & -> & _)%elem_of_lookup_imap.
  split; [|split; [|split]].
  - rewrite (proj1 (evaluateOption_scores _ _ _ _)).
    apply scoreLoop_NoDup. constructor.
  - intros c. apply RefereeFacts.evaluateOption_keys.
  - rewrite (proj1 (evaluateOption_scores _ _ _ _)), scoreLoop_proto by (intros []).
    simpl. tauto.
  - intros e' (j & option' & -> & _)%elem_of_lookup_imap.
    rewrite !(proj1 (evaluateOption_scores _ _ _ _)).
    now apply scoreLoop_keys_ext.
Qed.

Lemma scoreLoop_position i option constraints rest :
  ∀ scores total k,
    (fold_left (scoreStep i option constraints) rest (scores, total, k)).2
      = (k + length rest)%nat.
Proof.
  induction rest as [|c rest IH]; intros s t k; simpl length.
  - simpl. lia.
  - rewrite scoreLoop_step, IH. lia.
Qed.

Lemma scoreLoop_get_other i option constraints c rest :
  ∀ scores total k,
    ¬ In c rest →
    Scores.find c (fold_left (scoreStep i option constraints) rest (scores, total, k)).1.1
      = Scores.find c scores.
Proof.
  induction rest as [|c' rest IH]; intros s t k H; [reflexivity|].
  rewrite scoreLoop_step, IH by (intros ?; apply H; now right).
  apply ScoresFacts.find_set_ne. intros ->. apply H. now left.
Qed.

(** X6: [scores[c]] is the score drawn at the last place where the criteria
    list names [c]: an earlier score of the same criterion is overwritten. *)
Theorem last_score_kept earlier c later constraints i option :
  ¬ In c later →
  Scores.find c (scores (evaluateOption (earlier ++ c :: later) constraints i option))
    = Some (evaluateCriterion (random i (length earlier)) option c constraints).
Proof.
  intros H. rewrite (proj1 (evaluateOption_scores _ _ _ _)), fold_left_app.
  pose proof (scoreLoop_position i option constraints earlier Scores.empty 0 0%nat) as Hk.
  destruct (fold_left _ earlier _) as [[scores1 total1] k1]. simpl in Hk. subst k1.
  rewrite scoreLoop_step, scoreLoop_get_other by exact H.
  apply ScoresFacts.find_set_eq.
Qed.

Lemma scoreLoop_total i option constraints rest :
  ∀ scores total k,
    (fold_left (scoreStep i option constraints) rest (scores, total, k)).1.2
      = fold_left PrimFloat.add
          (imap (fun j => weightedAt random toFixed i option constraints (k + j)) rest)
          total.
Proof.
  induction rest as [|c rest IH]; intros s t k; [reflexivity|].
  rewrite scoreLoop_step, IH. simpl. rewrite Nat.add_0_r.
  f_equal. apply imap_ext. intros j c' _. simpl. f_equal. lia.
Qed.

(** X7: [totalScore] is the sum, from 0 and in the order of the list, of the
    weighted scores of all the draws, one for each entry of the criteria
    list, repeated criteria included. *)
Theorem totalScore_adds_every_draw options criteria constraints :
  map totalScore (evaluateOptions options criteria constraints)
    = imap (fun i option =>
              fold_left PrimFloat.add
                (imap (weightedAt random toFixed i option constraints) criteria) 0)
           options.
Proof.
  unfold RefereeEngine.evaluateOptions.
  change (map totalScore) with (fmap (M := list) totalScore). rewrite fmap_imap.
  apply imap_ext. intros i option _. simpl.
  rewrite (proj2 (evaluateOption_scores _ _ _ _)).
  apply scoreLoop_total.
Qed.
(** *** The recommendation *)

(** X8: on distinct objects [generateRecommendation] does not throw, and
    the shape of what it returns tells whether an option is valid: [choice]
    is null, and [confidence] missing, exactly when none is, and only then
    are there [alternatives], the first two entries of the list. *)
Theorem recommendation_shape evaluatedOptions constraints :
  distinct evaluatedOptions →
  ∃ r,
    generateRecommendation evaluatedOptions constraints = Ok r
    ∧ (choice r = None ↔ valid evaluatedOptions = [])
    ∧ (confidence r = None ↔ valid evaluatedOptions = [])
    ∧ (alternatives r = None ↔ valid evaluatedOptions ≠ [])
    ∧ (∀ others, alternatives r = Some others →
         others = take 2 evaluatedOptions
         ∧ length others = Nat.min 2 (length evaluatedOptions)).
Proof.
  intros Hd. unfold RefereeEngine.generateRecommendation. fold (valid evaluatedOptions).
  destruct (valid evaluatedOptions) as [|x rest] eqn:Ev.
  - simpl. eexists. split; [reflexivity|]. simpl.
    split; [tauto|]. split; [tauto|]. split; [split; [discriminate | congruence]|].
    intros others [= <-]. split; [reflexivity | now rewrite length_take].
  - change (length (x :: rest) =? 0)%nat with false. cbv iota. simpl reduce1. simpl bind.
    destruct (RefereeFacts.calculateConfidence_returns (fold_left better rest x) (x :: rest))
      as [c ->].
    { rewrite <- Ev. now apply RefereeFacts.distinct_filter. }
    simpl. eexists. split; [reflexivity|]. simpl.
    split; [split; discriminate|]. split; [split; discriminate|].
    split; [split; [discriminate | reflexivity]|]. discriminate.
Qed.

(** X9: when the valid entries are two or more and all one and the same
    object, [generateRecommendation] throws a TypeError: nothing is left
    for [calculateConfidence] to take the second best from. *)
Theorem same_object_throws evaluatedOptions constraints (i : nat) :
  (2 ≤ length (valid evaluatedOptions))%nat →
  (∀ o, o ∈ valid evaluatedOptions → ref o = i) →
  generateRecommendation evaluatedOptions constraints = Throw TypeError.
Proof.
  intros Hlen Hsame. unfold RefereeEngine.generateRecommendation.
  fold (valid evaluatedOptions).
  destruct (valid evaluatedOptions) as [|x [|y rest]]; simpl in Hlen; try lia.
  change (length (x :: y :: rest) =? 0)%nat with false. cbv iota.
  simpl reduce1. simpl bind.
  set (top := fold_left better rest (better x y)).
  assert (top ∈ x :: y :: rest) as Htop by apply (RefereeFacts.fold_better_elem (y :: rest) x).
  unfold calculateConfidence.
  change (length (x :: y :: rest) <? 2)%nat with false. cbv iota.
  rewrite RefereeFacts.filter_none; [reflexivity|].
  intros o Ho. unfold other_than. rewrite (Hsame o Ho), (Hsame top Htop).
  now rewrite Nat.eqb_refl.
Qed.

(** The choice and its confidence, for distinct objects with finite valid
    scores. *)
Lemma chosen_confidence evaluatedOptions constraints :
  distinct evaluatedOptions →
  (∀ o, o ∈ valid evaluatedOptions → is_finite (totalScore o) = true) →
  valid evaluatedOptions ≠ [] →
  ∃ r top c,
    generateRecommendation evaluatedOptions constraints = Ok r
    ∧ choice r = Some top ∧ confidence r = Some c
    ∧ top ∈ valid evaluatedOptions
    ∧ (∀ o, o ∈ valid evaluatedOptions → (totalScore o <=? totalScore top) = true)
    ∧ ((length (valid evaluatedOptions) < 2)%nat → c = 1)
    ∧ ((2 ≤ length (valid evaluatedOptions))%nat →
       ∃ second,
         second ∈ valid evaluatedOptions ∧ ref second ≠ ref top
         ∧ (∀ o, o ∈ valid evaluatedOptions → ref o ≠ ref top →
              (totalScore o <=? totalScore second) = true)
         ∧ c = Number.min (0.5 + (totalScore top - totalScore second) / 10) 1).
Proof.
  intros Hd Hfin Hne. unfold RefereeEngine.generateRecommendation.
  fold (valid evaluatedOptions).
  destruct (valid evaluatedOptions) as [|x rest] eqn:Ev; [congruence|].
  change (length (x :: rest) =? 0)%nat with false. cbv iota. simpl reduce1. simpl bind.
  set (top := fold_left better rest x).
  destruct (RefereeFacts.fold_better_first_max rest [] x []) as (l1 & l2 & Heq & H1 & H2).
  { intros o Ho. now apply RefereeFacts.is_finite_not_nan, Hfin. }
  { intros o Ho. now apply elem_of_nil in Ho. }
  { intros o Ho. now apply elem_of_nil in Ho. }
  fold top in Heq, H1, H2. simpl in Heq.
  assert (top ∈ x :: rest) as Htop by apply RefereeFacts.fold_better_elem.
  assert (∀ o, o ∈ x :: rest → (totalScore o <=? totalScore top) = true) as Hmax.
  { intros o Ho. rewrite Heq in Ho.
    apply elem_of_app in Ho as [Ho|[->|Ho]%elem_of_cons].
    - now apply Float64.ltb_leb, H1.
    - now apply Float64.leb_refl, RefereeFacts.is_finite_not_nan, Hfin.
    - now apply H2. }
  destruct (RefereeFacts.calculateConfidence_spec top (x :: rest))
    as (c & -> & _ & _ & Hone & Hsecond).
  { rewrite <- Ev. now apply RefereeFacts.distinct_filter. }
  { exact Hfin. }
  { now apply Hfin. }
  { exact Hmax. }
  simpl. eexists _, top, c.
  split; [reflexivity|]. split; [reflexivity|]. split; [reflexivity|].
  split; [exact Htop|]. split; [exact Hmax|]. split; [exact Hone | exact Hsecond].
Qed.

(** X10: when another valid option scores as much as the choice, the
    confidence is exactly 0.5, the least there is. *)
Theorem confidence_of_tie evaluatedOptions constraints :
  distinct evaluatedOptions →
  (∀ o, o ∈ valid evaluatedOptions → is_finite (totalScore o) = true) →
  valid evaluatedOptions ≠ [] →
  ∃ r top,
    generateRecommendation evaluatedOptions constraints = Ok r
    ∧ choice r = Some top
    ∧ ((∃ o, o ∈ valid evaluatedOptions ∧ ref o ≠ ref top
             ∧ (totalScore top <=? totalScore o) = true) →
       confidence r = Some 0.5).
Proof.
  intros Hd Hfin Hne.
  destruct (chosen_confidence evaluatedOptions constraints Hd Hfin Hne)
    as (r & top & c & Hr & Htop & Hc & Hin & Hmax & _ & Hsecond).
  exists r, top. split; [exact Hr|]. split; [exact Htop|].
  intros (o & Ho & Href & Hle). rewrite Hc. f_equal.
  destruct Hsecond as (second & Hs & _ & Hbest & ->).
  { destruct (valid evaluatedOptions) as [|x [|y rest]]; simpl; try lia.
    - now apply elem_of_nil in Ho.
    - apply list_elem_of_singleton in Ho, Hin. congruence. }
  apply Float64Gap.tie_confidence; auto.
  apply Float64Gap.leb_trans with (totalScore o); auto.
Qed.

(** X11: when the choice is 5 or more ahead of every other valid option,
    the confidence is exactly 1. *)
Theorem confidence_of_wide_gap evaluatedOptions constraints :
  distinct evaluatedOptions →
  (∀ o, o ∈ valid evaluatedOptions → is_finite (totalScore o) = true) →
  valid evaluatedOptions ≠ [] →
  ∃ r top,
    generateRecommendation evaluatedOptions constraints = Ok r
    ∧ choice r = Some top
    ∧ ((∀ o, o ∈ valid evaluatedOptions → ref o ≠ ref top →
          (5 <=? totalScore top - totalScore o) = true) →
       confidence r = Some 1).
Proof.
  intros Hd Hfin Hne.
  destruct (chosen_confidence evaluatedOptions constraints Hd Hfin Hne)
    as (r & top & c & Hr & Htop & Hc & Hin & Hmax & Hone & Hsecond).
  exists r, top. split; [exact Hr|]. split; [exact Htop|].
  intros Hgap. rewrite Hc. f_equal.
  destruct (Nat.lt_ge_cases (length (valid evaluatedOptions)) 2) as [Hlen|Hlen];
    [now apply Hone|].
  destruct (Hsecond Hlen) as (second & Hs & Href & _ & ->).
  apply Float64Gap.wide_gap_confidence. now apply Hgap.
Qed.
End More.
End EngineFacts.

(** ** Further properties of the trade-offs *)

Module TradeoffFacts.
Import RefereeEngine Spec Notions.
Local Open Scope float_scope.

(** *** Loops that may throw *)

Lemma forEach_app {A S} (f : S → A → result S) l1 l2 s :
  forEach f (l1 ++ l2) s = do s' <- forEach f l1 s; forEach f l2 s'.
Proof.
  revert s. induction l1 as [|x l1 IH]; intros s; simpl; [reflexivity|].
  destruct (f s x); simpl; [apply IH | reflexivity].
Qed.

Lemma forEach_map {A B S} (f : S → B → result S) (g : A → B) l s :
  forEach f (map g l) s = forEach (fun s x => f s (g x)) l s.
Proof.
  revert s. induction l as [|x l IH]; intros s; simpl; [reflexivity|].
  destruct (f s (g x)); simpl; [apply IH | reflexivity].
Qed.

(** A loop returns only if each of its steps did. *)
Lemma forEach_steps {A S} (f : S → A → result S) l :
  ∀ s s', forEach f l s = Ok s' → ∀ x, x ∈ l → ∃ s0 s1, f s0 x = Ok s1.
Proof.
  induction l as [|y l IH]; intros s s' H x Hx; [now apply elem_of_nil in Hx|].
  simpl in H. destruct (f s y) as [s1|] eqn:E; [|discriminate]. simpl in H.
  apply elem_of_cons in Hx as [->|Hx]; [eauto | now apply (IH s1 s')].
Qed.

(** What holds at the start of a loop and is kept by its steps holds at
    its end. *)
Lemma forEach_invariant {A S} (P : S → Prop) (f : S → A → result S) l :
  (∀ s x s', x ∈ l → P s → f s x = Ok s' → P s') →
  ∀ s s', P s → forEach f l s = Ok s' → P s'.
Proof.
  induction l as [|y l IH]; intros Hstep s s' Hs H; simpl in H.
  - now injection H as <-.
  - destruct (f s y) as [s1|] eqn:E; [|discriminate]. simpl in H.
    apply (IH (fun s0 x s0' Hx => Hstep s0 x s0' (list_elem_of_further _ _ _ Hx)) s1 s');
      [|exact H].
    apply (Hstep s y s1); [constructor | exact Hs | exact E].
Qed.

(** *** One pair *)

Lemma strengthStep_throws A B c st :
  Scores.get c (scores B) = Scores.Undefined → strengthStep A B st c = Throw TypeError.
Proof.
  intros H. destruct st as [aS bS]. unfold strengthStep, Scores.rawOf. rewrite H.
  now destruct (Scores.get c (scores A)).
Qed.

Lemma covers_defined A B : covers A B → defined A B.
Proof. intros H c [b Hb%ScoresFacts.get_find]%H. rewrite Hb. discriminate. Qed.

(** [compareTwo] returns exactly when, for each criterion of the first
    option, what the second has under that name is not [undefined]. *)
Lemma compareTwo_returns A B : (∃ t, compareTwo A B = Ok t) ↔ defined A B.
Proof.
  split.
  - intros [t H] c Hc Hget. unfold compareTwo in H.
    destruct (forEach _ _ _) as [st|] eqn:E; [|discriminate].
    destruct (forEach_steps _ _ _ _ E c) as (s0 & s1 & Hstep);
      [now apply list_elem_of_In|].
    now rewrite strengthStep_throws in Hstep.
  - intros H. exists (expectedTradeoff A B). now apply RefereeFacts.compareTwo_defined.
Qed.

(** *** All pairs *)

(** The two nested loops of [analyzeTradeoffs] are one loop over the pairs. *)
Lemma tradeoffLoop_pairs l suffix :
  ∀ k tradeoffs,
    drop k l = suffix →
    forEach (fun tradeoffs '(i, option) =>
               forEach (pushTradeoff option) (drop (i + 1) l) tradeoffs)
            (imap (fun i => pair (k + i)%nat) suffix) tradeoffs
      = forEach (fun tradeoffs p => pushTradeoff p.1 tradeoffs p.2) (pairs suffix) tradeoffs.
Proof.
  induction suffix as [|x suffix IH]; intros k ts Hdrop; [reflexivity|].
  simpl.
  assert (drop (k + 0 + 1) l = suffix) as ->.
  { replace (k + 0 + 1)%nat with (k + 1)%nat by lia. now rewrite <- drop_drop, Hdrop. }
  rewrite forEach_app, forEach_map. simpl.
  destruct (forEach (pushTradeoff x) suffix ts) as [ts'|]; simpl; [|reflexivity].
  rewrite (imap_ext _ (fun i => pair (S k + i)%nat))
    by (intros i y _; unfold compose; f_equal; lia).
  apply IH. replace (S k) with (k + 1)%nat by lia. now rewrite <- drop_drop, Hdrop.
Qed.

Lemma analyzeTradeoffs_flat l :
  analyzeTradeoffs l
    = forEach (fun tradeoffs p => pushTradeoff p.1 tradeoffs p.2) (pairs l) [].
Proof.
  unfold analyzeTradeoffs.
  rewrite (imap_ext _ (fun i => pair (0 + i)%nat)) by reflexivity.
  now apply tradeoffLoop_pairs.
Qed.

Lemma pushTradeoff_returns A B tradeoffs :
  (∃ tradeoffs', pushTradeoff A tradeoffs B = Ok tradeoffs') ↔ defined A B.
Proof.
  rewrite <- compareTwo_returns. unfold pushTradeoff. split.
  - intros [ts' H]. destruct (compareTwo A B) as [t|]; [eauto | discriminate].
  - intros [t ->]. simpl. destruct (hasTradeoff t); eauto.
Qed.

(** X12: [analyzeTradeoffs] returns exactly when, in every pair of positions
    [i < j] and for each criterion of the earlier option, what the scores of
    the later option hold under that name, their own or inherited, is not
    [undefined]; [undefined] there makes it throw a TypeError, while a name
    missing from the earlier option of a pair goes unnoticed. *)
Theorem analyzeTradeoffs_returns evaluatedOptions :
  ((∃ tradeoffs, analyzeTradeoffs evaluatedOptions = Ok tradeoffs)
     ↔ ∀ A B, (A, B) ∈ pairs evaluatedOptions → defined A B)
  ∧ (∀ A B c, (A, B) ∈ pairs evaluatedOptions →
       In c (Scores.keys (scores A)) → Scores.get c (scores B) = Scores.Undefined →
       analyzeTradeoffs evaluatedOptions = Throw TypeError).
Proof.
  assert ((∃ tradeoffs, analyzeTradeoffs evaluatedOptions = Ok tradeoffs)
            ↔ ∀ A B, (A, B) ∈ pairs evaluatedOptions → defined A B) as Hiff.
  { rewrite analyzeTradeoffs_flat. split.
    - intros [ts H] A B HAB.
      destruct (forEach_steps _ _ _ _ H (A, B) HAB) as (s0 & s1 & Hstep).
      apply (pushTradeoff_returns A B s0). eauto.
    - intros H. apply RefereeFacts.forEach_returns.
      intros ts [A B] HAB. apply pushTradeoff_returns. now apply H. }
  split; [exact Hiff|].
  intros A B c HAB Hc Hget.
  destruct (analyzeTradeoffs evaluatedOptions) as [ts|[]] eqn:E; [|reflexivity].
  exfalso. destruct Hiff as [Hdef _].
  now apply (Hdef (ex_intro _ ts eq_refl) A B HAB c Hc).
Qed.

Lemma pairs_length {A} (l : list A) :
  (2 * length (pairs l) = length l * (length l - 1))%nat.
Proof.
  induction l as [|x l IH]; [reflexivity|].
  simpl pairs. rewrite length_app, length_map. simpl length.
  replace (S (length l) - 1)%nat with (length l) by lia.
  destruct (length l) as [|n] eqn:E; [simpl in *; lia|].
  replace (S n - 1)%nat with n in IH by lia. lia.
Qed.

Lemma expectedTradeoff_twoSided A B :
  hasTradeoff (expectedTradeoff A B) = true → twoSided (expectedTradeoff A B).
Proof.
  intros H. split; [exact H|]. simpl in *.
  apply andb_prop in H as [Ha Hb].
  rewrite <- RefereeFacts.filter_nonempty in Ha, Hb.
  split; [|split].
  - intros E. now rewrite E in Ha.
  - intros E. now rewrite E in Hb.
  - intros c [_ Hab]%filter_In [_ Hba]%filter_In.
    destruct (RefereeFacts.leads_partition A B c) as [_ Hex].
    now rewrite Hab, Hba in Hex.
Qed.

Lemma pushTradeoff_step A B tradeoffs tradeoffs' :
  pushTradeoff A tradeoffs B = Ok tradeoffs' →
  tradeoffs' = tradeoffs ∨ ∃ t, tradeoffs' = (tradeoffs ++ [t])%list ∧ twoSided t.
Proof.
  intros Hpush.
  assert (defined A B) as Hdef by (apply (pushTradeoff_returns A B tradeoffs); eauto).
  unfold pushTradeoff in Hpush.
  rewrite (RefereeFacts.compareTwo_defined A B Hdef) in Hpush.
  pose proof (expectedTradeoff_twoSided A B) as Htwo.
  destruct (expectedTradeoff A B) as [has a b aS bS text]. simpl in Hpush.
  destruct has; injection Hpush as <-.
  - right. eexists. split; [reflexivity|]. now apply Htwo.
  - now left.
Qed.

Lemma tradeoffs_count evaluatedOptions tradeoffs :
  analyzeTradeoffs evaluatedOptions = Ok tradeoffs →
  (2 * length tradeoffs ≤ length evaluatedOptions * (length evaluatedOptions - 1))%nat.
Proof.
  rewrite analyzeTradeoffs_flat, <- pairs_length. intros H.
  enough (∀ l ts ts',
            forEach (fun tradeoffs p => pushTradeoff p.1 tradeoffs p.2) l ts = Ok ts' →
            (length ts' ≤ length ts + length l)%nat) as Hlen.
  { specialize (Hlen _ _ _ H). simpl in Hlen. lia. }
  induction l as [|p l IH]; intros ts ts' Hl; simpl in Hl.
  - injection Hl as <-. lia.
  - destruct (pushTradeoff p.1 ts p.2) as [ts1|] eqn:E; [|discriminate]. simpl in Hl.
    specialize (IH _ _ Hl). simpl length.
    destruct (pushTradeoff_step _ _ _ _ E) as [->|(t & -> & _)]; [lia|].
    rewrite length_app in IH. simpl in IH. lia.
Qed.

(** X13: the records [analyzeTradeoffs] returns are trade-offs with two
    sides: each has [hasTradeoff] true, strengths for both options, and no
    criterion among the strengths of both; and there are no more of them
    than the n(n-1)/2 pairs of options. *)
Theorem tradeoffs_two_sided evaluatedOptions tradeoffs :
  analyzeTradeoffs evaluatedOptions = Ok tradeoffs →
  (∀ t, t ∈ tradeoffs → twoSided t)
  ∧ (2 * length tradeoffs ≤ length evaluatedOptions * (length evaluatedOptions - 1))%nat.
Proof.
  intros H. split; [|now apply tradeoffs_count].
  rewrite analyzeTradeoffs_flat in H. revert H.
  apply (forEach_invariant (fun ts => ∀ t, t ∈ ts → twoSided t)).
  - intros ts p ts' _ Hts Hpush.
    destruct (pushTradeoff_step _ _ _ _ Hpush) as [->|(t & -> & Ht)]; [exact Hts|].
    intros t' [Ht'| ->%list_elem_of_singleton]%elem_of_app; auto.
  - intros t Ht. now apply elem_of_nil in Ht.
Qed.

(** X14: for two options whose [scores] list the same keys in the same
    order, as those [evaluateOptions] returns do, comparing them the other
    way round gives the same record with the two sides exchanged. *)
Theorem compareTwo_mirrored A B :
  Scores.keys (scores A) = Scores.keys (scores B) →
  ∃ t t', compareTwo A B = Ok t ∧ compareTwo B A = Ok t' ∧ mirrored t t'.
Proof.
  intros Hkeys.
  assert (covers A B) as HAB.
  { intros c Hc. apply ScoresFacts.find_key. now rewrite <- Hkeys. }
  assert (covers B A) as HBA.
  { intros c Hc. apply ScoresFacts.find_key. now rewrite Hkeys. }
  exists (expectedTradeoff A B), (expectedTradeoff B A).
  split; [now apply RefereeFacts.compareTwo_spec|].
  split; [now apply RefereeFacts.compareTwo_spec|].
  unfold mirrored. simpl. rewrite Hkeys.
  split; [apply andb_comm|]. now repeat split.
Qed.

Lemma self_not_apart x : (1 <? abs (x - x)) = false.
Proof.
  destruct (x =? x) eqn:E; [now apply Float64Gap.equal_not_apart|].
  rewrite FloatAxioms.ltb_spec, abs_spec, sub_spec.
  rewrite FloatAxioms.eqb_spec in E. unfold SFeqb in E.
  destruct (Prim2SF x) as [sx|sx| |sx mx ex]; try reflexivity.
  - now destruct sx.
  - now destruct sx.
  - rewrite SF.compare_key, SF.lex_refl in E by reflexivity. discriminate.
Qed.

(** X15: two options with the same raw score on every criterion show no
    trade-off: both lists of strengths are empty, whatever the scores are,
    infinite or NaN included. *)
Theorem same_scores_no_tradeoff A B :
  covers A B →
  (∀ c a b, In c (Scores.keys (scores A)) →
     Scores.find c (scores A) = Some a → Scores.find c (scores B) = Some b →
     raw a = raw b) →
  ∃ t,
    compareTwo A B = Ok t
    ∧ hasTradeoff t = false ∧ aStrengths t = [] ∧ bStrengths t = [].
Proof.
  intros Hcov Hsame. exists (expectedTradeoff A B).
  split; [now apply RefereeFacts.compareTwo_spec|].
  assert (∀ c, In c (Scores.keys (scores A)) →
            leads A B c = false ∧ leads B A c = false) as Hnone.
  { intros c Hc. destruct (RefereeFacts.leads_partition A B c) as [Hd _].
    apply orb_false_elim. rewrite <- Hd. unfold differs, rawDiff.
    destruct (Scores.find c (scores A)) as [a|] eqn:Ha; [|reflexivity].
    destruct (Scores.find c (scores B)) as [b|] eqn:Hb; [|reflexivity].
    rewrite (Hsame c a b Hc Ha Hb). apply self_not_apart. }
  assert (List.filter (leads A B) (Scores.keys (scores A)) = []
          ∧ List.filter (leads B A) (Scores.keys (scores A)) = []) as [Ea Eb].
  { split; apply RefereeFacts.filter_none; intros c Hc%list_elem_of_In;
      now apply Hnone. }
  simpl. rewrite <- !RefereeFacts.filter_nonempty. rewrite Ea, Eb. now repeat split.
Qed.
End TradeoffFacts.

(** ** The summary, the whole comparison and its caller *)

Module SummaryFacts.
Import RefereeEngine Spec Notions.

Section Summary.
Local Open Scope float_scope.

Variable random : nat → nat → float.
Variable toFixed : float → nat → string.
Variable sort : ∀ A : Type, (A → A → float) → list A → list A.

Local Abbreviation generateRecommendation := (RefereeEngine.generateRecommendation toFixed).
Local Abbreviation generateKeyInsight := (RefereeEngine.generateKeyInsight toFixed).
Local Abbreviation generateSummary := (RefereeEngine.generateSummary toFixed sort).
Local Abbreviation evaluateOptions := (RefereeEngine.evaluateOptions random toFixed).
Local Abbreviation compare := (RefereeEngine.compare random toFixed sort).

(** *** The key strength *)

(** [strongest] keeps the first of the highest scores. *)
Lemma fold_strongest_first_max rest :
  ∀ l1 best l2,
    (∀ e, e ∈ l1 ++ best :: l2 ++ rest → is_nan e.2 = false) →
    (∀ e, e ∈ l1 → (e.2 <? best.2) = true) →
    (∀ e, e ∈ l2 → (e.2 <=? best.2) = true) →
    ∃ l1' l2',
      l1 ++ best :: l2 ++ rest = l1' ++ fold_left strongest rest best :: l2'
      ∧ (∀ e, e ∈ l1' → (e.2 <? (fold_left strongest rest best).2) = true)
      ∧ (∀ e, e ∈ l2' → (e.2 <=? (fold_left strongest rest best).2) = true).
Proof.
  induction rest as [|c rest IH]; intros l1 best l2 Hnan H1 H2; simpl.
  - exists l1, l2. now rewrite app_nil_r.
  - unfold strongest at 2 4 6. unfold Number.gt.
    destruct (best.2 <? c.2) eqn:E.
    + destruct (IH (l1 ++ best :: l2) c []) as (l1' & l2' & Heq & H1' & H2').
      * intros e He. apply Hnan. rewrite <- app_assoc in He. exact He.
      * intros e [He|[->|He]%elem_of_cons]%elem_of_app.
        -- apply Float64.ltb_leb_trans with best.2; [auto|now apply Float64.ltb_leb].
        -- exact E.
        -- now apply Float64.leb_ltb_trans with best.2; auto.
      * intros e He. now apply elem_of_nil in He.
      * exists l1', l2'. split; [|now split]. rewrite <- Heq, <- app_assoc. reflexivity.
    + destruct (IH l1 best (l2 ++ [c])) as (l1' & l2' & Heq & H1' & H2').
      * intros e He. apply Hnan. rewrite <- app_assoc in He. exact He.
      * exact H1.
      * intros e [He| ->%list_elem_of_singleton]%elem_of_app; [auto|].
        apply Float64.ltb_false; [| |exact E]; apply Hnan; set_solver.
      * exists l1', l2'. split; [|now split]. rewrite <- Heq, <- app_assoc. reflexivity.
Qed.

Lemma getKeyStrength_fold option :
  getKeyStrength option
    = (fold_left strongest (map (fun e => (e.1, raw e.2)) (Scores.entries (scores option))) (""%string, 0)).1.
Proof.
  unfold getKeyStrength, Scores.entries, Obj.entries. f_equal.
  generalize (""%string, 0). induction (Scores.own (scores option)) as [|[c s] l IH]; intros best;
    [reflexivity | apply IH].
Qed.

(** X16: [getKeyStrength] names the criterion with the highest raw score
    among those above 0, the first such in the order of [scores]; when no
    raw score is above 0 it returns the empty string.  No raw score is NaN. *)
Theorem keyStrength_first_highest option :
  (∀ e, e ∈ Scores.entries (scores option) → is_nan (raw e.2) = false) →
  (getKeyStrength option = ""%string
     ∧ ∀ e, e ∈ Scores.entries (scores option) → (raw e.2 <=? 0) = true)
  ∨ ∃ l1 c s l2,
      Scores.entries (scores option) = l1 ++ (c, s) :: l2
      ∧ getKeyStrength option = c
      ∧ (0 <? raw s) = true
      ∧ (∀ e, e ∈ l1 → (raw e.2 <? raw s) = true)
      ∧ (∀ e, e ∈ l2 → (raw e.2 <=? raw s) = true).
Proof.
  intros Hnan. rewrite getKeyStrength_fold.
  set (g := fun e : string * CriterionScore => (e.1, raw e.2)).
  destruct (fold_strongest_first_max (map g (Scores.entries (scores option))) [] (""%string, 0) [])
    as (l1' & l2' & Heq & H1 & H2).
  { intros e [->|(e' & -> & He')%list_elem_of_fmap]%elem_of_cons; [reflexivity|].
    now apply Hnan. }
  { intros e He. now apply elem_of_nil in He. }
  { intros e He. now apply elem_of_nil in He. }
  simpl in Heq. set (best := fold_left strongest _ _) in *.
  destruct l1' as [|first l1']; simpl in Heq; injection Heq as Hfirst Heq.
  - left. rewrite <- Hfirst. split; [reflexivity|].
    intros e He. specialize (H2 (g e)). rewrite <- Hfirst in H2. apply H2.
    rewrite <- Heq. apply list_elem_of_fmap. eauto.
  - right.
    apply map_eq_app in Heq as (k1 & k2' & Hl & Hk1 & Hk2).
    apply map_eq_cons in Hk2 as ([c s] & k2 & -> & Hbest & Hk2).
    exists k1, c, s, k2. rewrite <- Hbest in H1, H2 |- *. simpl in *.
    split; [exact Hl|]. split; [reflexivity|].
    split; [|split].
    + apply (H1 (""%string, 0)). rewrite <- Hfirst. constructor.
    + intros e He. apply (H1 (g e)). apply list_elem_of_further.
      rewrite <- Hk1. apply list_elem_of_fmap. eauto.
    + intros e He. apply (H2 (g e)). rewrite <- Hk2. apply list_elem_of_fmap. eauto.
Qed.

(** *** The summary *)

(** X17: on options scored on the same criteria, [generateSummary] throws
    exactly on the empty list; otherwise [totalOptions] is the length of the
    list, [validOptions] the number of valid entries, and, [sort] returning
    a permutation of the array, [topChoices] has min(3, validOptions)
    entries, each with the name and the key strength of a valid option. *)
Theorem summary_counts evaluatedOptions constraints :
  sameCriteria evaluatedOptions →
  (∀ l : list EvaluatedOption, sort _ (fun a b => totalScore b - totalScore a) l ≡ₚ l) →
  match generateSummary evaluatedOptions constraints with
  | Ok s =>
      evaluatedOptions ≠ []
      ∧ totalOptions s = length evaluatedOptions
      ∧ validOptions s = length (valid evaluatedOptions)
      ∧ validOptions s ≤ totalOptions s
      ∧ length (topChoices s) = Nat.min 3 (validOptions s)
      ∧ ∀ t, t ∈ topChoices s →
          ∃ o, o ∈ valid evaluatedOptions
               ∧ top_name t = name (props o) ∧ keyStrength t = getKeyStrength o
  | Throw _ => evaluatedOptions = []
  end.
Proof.
  intros Hsame Hsort. destruct evaluatedOptions as [|first l] eqn:El; [reflexivity|].
  rewrite <- El in *.
  assert (evaluatedOptions ≠ []) as Hne by (rewrite El; discriminate).
  unfold RefereeEngine.generateSummary.
  destruct (RefereeFacts.generateKeyInsight_returns toFixed _ constraints Hsame Hne)
    as [text ->].
  simpl. fold (valid evaluatedOptions).
  split; [exact Hne|]. split; [reflexivity|]. split; [reflexivity|].
  split; [apply List.filter_length_le|].
  split.
  - now rewrite length_map, length_take, Hsort.
  - intros t (o & -> & Ho)%list_elem_of_fmap. exists o. split; [|split; reflexivity].
    rewrite <- (Hsort (valid evaluatedOptions)).
    now apply (subseteq_take 3).
Qed.

(** *** The whole comparison *)

Lemma filter_imap_length {A B} (p : B → bool) (q : A → bool) (l : list A) :
  ∀ f : nat → A → B,
    (∀ i x, p (f i x) = q x) →
    length (List.filter p (imap f l)) = length (List.filter q l).
Proof.
  induction l as [|x l IH]; intros f H; [reflexivity|].
  simpl. rewrite H. destruct (q x); simpl; rewrite (IH (f ∘ S)); auto;
    intros i y; apply H.
Qed.

Lemma evaluateOptions_validCount options criteria constraints :
  length (valid (evaluateOptions options criteria constraints))
    = validCount options constraints.
Proof.
  apply filter_imap_length. intros i option.
  apply RefereeFacts.evaluateOption_fields.
Qed.

Lemma choice_none evaluatedOptions constraints r :
  generateRecommendation evaluatedOptions constraints = Ok r →
  (choice r = None ↔ valid evaluatedOptions = [])
  ∧ (alternatives r = None ↔ valid evaluatedOptions ≠ []).
Proof.
  unfold RefereeEngine.generateRecommendation. fold (valid evaluatedOptions).
  destruct (valid evaluatedOptions) as [|x rest].
  - simpl. intros [= <-]. simpl. split; [tauto|]. split; [discriminate | congruence].
  - change (length (x :: rest) =? 0)%nat with false. cbv iota. simpl reduce1. simpl bind.
    destruct (calculateConfidence _ _); [|discriminate]. simpl. intros [= <-]. simpl.
    split; split; (discriminate || reflexivity).
Qed.

(** The two outcomes of [compare]. *)
Lemma compare_cases options criteria constraints :
  match compare options criteria constraints with
  | Ok r =>
      options ≠ []
      ∧ totalOptions (summary r) = length options
      ∧ validOptions (summary r) = validCount options constraints
      ∧ (choice (recommendation r) = None ↔ validCount options constraints = 0%nat)
      ∧ (alternatives (recommendation r) = None ↔ validCount options constraints ≠ 0%nat)
      ∧ (2 * length (tradeoffs r) ≤ length options * (length options - 1))%nat
  | Throw _ => options = []
  end.
Proof.
  unfold RefereeEngine.compare.
  set (evaluatedOptions := evaluateOptions options criteria constraints).
  pose proof (RefereeFacts.evaluateOptions_distinct random toFixed options criteria constraints)
    as Hd.
  pose proof (RefereeFacts.evaluateOptions_sameCriteria random toFixed options criteria constraints)
    as Hsame.
  pose proof (evaluateOptions_validCount options criteria constraints) as Hcount.
  assert (length evaluatedOptions = length options) as Hlen by apply length_imap.
  fold evaluatedOptions in Hd, Hsame, Hcount.
  destruct (RefereeFacts.generateRecommendation_returns toFixed evaluatedOptions constraints Hd)
    as (chosen & Hr & _).
  rewrite Hr. simpl bind.
  apply choice_none in Hr as [Hchoice Halt].
  destruct (analyzeTradeoffs evaluatedOptions) as [ts|] eqn:Ha;
    [|now rewrite RefereeFacts.analyzeTradeoffs_pairs in Ha].
  simpl bind. apply TradeoffFacts.tradeoffs_count in Ha. rewrite Hlen in Ha.
  destruct options as [|option options'] eqn:Eo; [reflexivity|]. rewrite <- Eo in *.
  assert (evaluatedOptions ≠ []) as Hne.
  { intros E. rewrite E, Eo in Hlen. discriminate. }
  unfold RefereeEngine.generateSummary.
  destruct (RefereeFacts.generateKeyInsight_returns toFixed _ constraints Hsame Hne)
    as [text ->].
  simpl bind. cbv beta iota.
  cbn [summary recommendation tradeoffs totalOptions validOptions].
  split; [rewrite Eo; discriminate|]. split; [exact Hlen|]. split; [exact Hcount|].
  rewrite <- Hcount. split; [|split; [|exact Ha]].
  - rewrite Hchoice. now destruct (valid evaluatedOptions).
  - rewrite Halt. now destruct (valid evaluatedOptions).
Qed.

(** X18: [compare] throws exactly when there is no option.  When it
    returns, the summary counts the options and those that pass
    [checkConstraints], the recommendation has a choice exactly when one
    passes and alternatives exactly when none does, and the trade-offs are
    no more than the pairs of options. *)
Theorem compare_outcome options criteria constraints :
  (compare options criteria constraints = Throw TypeError ↔ options = [])
  ∧ ∀ r,
      compare options criteria constraints = Ok r →
      totalOptions (summary r) = length options
      ∧ validOptions (summary r) = validCount options constraints
      ∧ (choice (recommendation r) = None ↔ validCount options constraints = 0%nat)
      ∧ (alternatives (recommendation r) = None ↔ validCount options constraints ≠ 0%nat)
      ∧ (2 * length (tradeoffs r) ≤ length options * (length options - 1))%nat.
Proof.
  pose proof (compare_cases options criteria constraints) as H.
  destruct (compare options criteria constraints) as [r|[]].
  - split; [split; [discriminate | now intros ?]|].
    intros r' [= <-]. apply H.
  - split; [now split|]. discriminate.
Qed.

(** *** The caller *)

Lemma checkConstraints_empty option : checkConstraints option Referee.empty = true.
Proof. reflexivity. Qed.

(** X19: [Referee.compareOptions] without constraints compares under [{}]:
    with at least one option it returns, every entry of the comparison
    meets the constraints, all options count as valid and the
    recommendation has a choice.  With [null] for constraints it throws. *)
Theorem compareOptions_unconstrained options criteria :
  Referee.compareOptions random toFixed sort options criteria Null = Throw TypeError
  ∧ Referee.compareOptions random toFixed sort options criteria Undefined
      = compare options criteria Referee.empty
  ∧ (options ≠ [] →
     ∃ r,
       Referee.compareOptions random toFixed sort options criteria Undefined = Ok r
       ∧ (∀ e, e ∈ comparison r → meetsConstraints e = true)
       ∧ validOptions (summary r) = length options
       ∧ is_Some (choice (recommendation r))).
Proof.
  split; [reflexivity|]. split; [reflexivity|]. intros Hne.
  change (Referee.compareOptions random toFixed sort options criteria Undefined)
    with (compare options criteria Referee.empty).
  pose proof (compare_cases options criteria Referee.empty) as H.
  destruct (compare options criteria Referee.empty) as [r|] eqn:Hr; [|contradiction].
  destruct H as (_ & _ & Hvalid & Hchoice & _).
  assert (validCount options Referee.empty = length options) as Hall.
  { unfold validCount. clear. induction options as [|o l IH]; [reflexivity|].
    simpl. now rewrite IH. }
  exists r. split; [reflexivity|]. split; [|split].
  - intros e He. rewrite (RefereeFacts.compare_comparison _ _ _ _ _ _ _ Hr) in He.
    apply elem_of_lookup_imap in He as (i & option & -> & _).
    now rewrite (proj2 (proj2 (RefereeFacts.evaluateOption_fields random toFixed _ _ _ _))).
  - now rewrite Hvalid.
  - destruct (choice (recommendation r)); [eauto|].
    destruct Hchoice as [Hzero _]. specialize (Hzero eq_refl).
    rewrite Hall in Hzero. now destruct options.
Qed.
End Summary.
End SummaryFacts.

(** ** The 0-10 scale

    A draw of [0, 1) times 10 stays within 0 and 10 after rounding. *)

Module SFScale.
Import Binary64.
Local Open Scope Z_scope.

Lemma finite_leb_finite m1 e1 m2 e2 :
  e1 < e2 ∨ (e1 = e2 ∧ Zpos m1 ≤ Zpos m2) →
  SFleb (S754_finite false m1 e1) (S754_finite false m2 e2) = true.
Proof.
  intros H. unfold SFleb, SFcompare.
  destruct (Z.compare_spec e1 e2); [|reflexivity|lia].
  change (Pos.compare_cont Eq m1 m2) with (m1 ?= m2)%positive.
  destruct (Pos.compare_spec m1 m2); [reflexivity|reflexivity|lia].
Qed.

Lemma digits_le m k : 0 ≤ k → Zpos m < 2 ^ k → Zpos (digits2_pos m) ≤ k.
Proof.
  intros Hk H. pose proof (SFArith.digits2_pos_bounds m) as [L _].
  destruct (Z.le_gt_cases (Zpos (digits2_pos m)) k); [assumption|].
  assert (2 ^ k ≤ 2 ^ (Zpos (digits2_pos m) - 1)) by (apply Z.pow_le_mono_r; lia). lia.
Qed.

(** Rounding a number strictly below a binary64 number gives at most that
    number. *)
Lemma binary_round_aux_le (h : positive) eh m e l :
  Zpos h < 2 ^ 53 → -1074 ≤ eh ≤ 971 → e ≤ eh →
  Zpos m < Zpos h * 2 ^ (eh - e) →
  SFleb (binary_round_aux prec emax false (Zpos m) e l) (S754_finite false h eh) = true.
Proof.
  intros Hh Heh He Hm. unfold binary_round_aux.
  pose proof (SFArith.digits2_pos_bounds m) as [Lm Um].
  set (d := Zpos (digits2_pos m)) in *.
  assert (0 < 2 ^ (eh - e)) as Hp by (apply Z.pow_pos_nonneg; lia).
  assert (d + e - 53 ≤ eh) as Hd.
  { assert (Zpos m < 2 ^ (53 + (eh - e))) as Hlt.
    { rewrite Z.pow_add_r by lia. nia. }
    pose proof (digits_le m (53 + (eh - e)) ltac:(lia) Hlt). lia. }
  destruct (shr_fexp prec emax (Zpos m) e l) as [r1 e1] eqn:E1.
  apply SFArith.shr_fexp_spec in E1 as [H1 He1]; [|lia].
  simpl Zdigits2 in *. fold d in H1, He1.
  set (n1 := Z.max 0 (fexp prec emax (d + e) - e)) in *.
  assert (0 ≤ n1 ∧ e1 ≤ eh) as [Hn1 He1'].
  { subst n1 e1. unfold fexp, SpecFloat.emin, prec, emax. lia. }
  assert (0 < 2 ^ n1) as Hp1 by (apply Z.pow_pos_nonneg; lia).
  assert (0 < 2 ^ (eh - e1)) as Hp2 by (apply Z.pow_pos_nonneg; lia).
  assert (0 ≤ shr_m r1 < Zpos h * 2 ^ (eh - e1)) as [L1 U1].
  { rewrite H1. split; [apply Z.div_pos; lia|].
    apply Z.div_lt_upper_bound; [assumption|].
    replace (eh - e) with (n1 + (eh - e1)) in Hm by lia.
    rewrite Z.pow_add_r in Hm by lia. lia. }
  pose proof (SFArith.round_nearest_even_bounds (shr_m r1) (loc_of_shr_record r1)) as [L2 U2].
  set (m2 := round_nearest_even _ _) in *.
  destruct (shr_fexp prec emax m2 e1 loc_Exact) as [r2 e2] eqn:E2.
  apply SFArith.shr_fexp_spec in E2 as [H2 He2]; [|lia].
  destruct m2 as [|p2|p2]; [| |lia].
  - simpl in H2. rewrite H2. reflexivity.
  - simpl Zdigits2 in *.
    set (d2 := Zpos (digits2_pos p2)) in *.
    set (n2 := Z.max 0 (fexp prec emax (d2 + e1) - e1)) in *.
    assert (d2 + e1 - 53 ≤ eh) as Hd2.
    { assert (Zpos p2 < 2 ^ (53 + (eh - e1))) as Hlt.
      { rewrite Z.pow_add_r by lia. nia. }
      pose proof (digits_le p2 (53 + (eh - e1)) ltac:(lia) Hlt). lia. }
    assert (0 ≤ n2 ∧ e2 ≤ eh) as [Hn2 He2'].
    { subst n2 e2. unfold fexp, SpecFloat.emin, prec, emax. lia. }
    assert (0 < 2 ^ n2) as Hp3 by (apply Z.pow_pos_nonneg; lia).
    assert (0 ≤ shr_m r2) as L3 by (rewrite H2; apply Z.div_pos; lia).
    destruct (shr_m r2) as [|p3|p3] eqn:E3; [reflexivity| |lia].
    assert ((e2 <=? emax - prec) = true) as -> by (apply Z.leb_le; unfold emax, prec; lia).
    apply finite_leb_finite.
    destruct (Z.eq_dec e2 eh) as [Ee|Ne]; [right|left; lia].
    split; [exact Ee|].
    rewrite H2. apply Z.div_le_upper_bound; [assumption|].
    replace (eh - e1) with n2 in U1 by lia. lia.
Qed.

Lemma nonneg_leb x : nonneg x = true ↔ SFleb (S754_zero false) x = true.
Proof. destruct x as [[]|[]| |[] m e]; simpl; split; (reflexivity || discriminate). Qed.

(** A number of [0, 1) times 10 is not negative and at most 10. *)
Lemma SFmul_ten_bounds (h : positive) x :
  h = 5629499534213120%positive →
  valid_binary x = true → nonneg x = true →
  SFltb x (S754_finite false 4503599627370496 (-52)) = true →
  nonneg (SF64mul x (S754_finite false h (-49))) = true
  ∧ SFleb (SF64mul x (S754_finite false h (-49))) (S754_finite false h (-49)) = true.
Proof.
  intros Eh Vx Hx Hlt.
  destruct x as [sx|[]| |[] mx ex]; try discriminate; [split; reflexivity|].
  unfold SF64mul, SFmul. simpl xorb. split; [now apply SFArith.binary_round_aux_nonneg|].
  apply SFArith.valid_finite in Vx as (_ & Dx & Fx).
  pose proof (SFArith.digits2_pos_bounds mx) as [Lx Ux].
  assert (ex ≤ -53) as He.
  { unfold SFltb, SFcompare in Hlt.
    remember 4503599627370496%positive as one eqn:E1.
    destruct (Z.compare_spec ex (-52)) as [->|?|?]; [|lia|discriminate].
    change (Pos.compare_cont Eq mx one) with (mx ?= one)%positive in Hlt.
    destruct (Pos.compare_spec mx one) as [?|Hm|?]; try discriminate.
    rewrite Fx in Lx by lia. change (2 ^ (53 - 1)) with 4503599627370496 in Lx.
    apply Pos2Z.pos_lt_pos in Hm. rewrite E1 in Hm. lia. }
  assert (Zpos mx < 2 ^ 53) as Hmx.
  { eapply Z.lt_le_trans; [exact Ux|]. apply Z.pow_le_mono_r; lia. }
  apply binary_round_aux_le.
  - rewrite Eh. reflexivity.
  - lia.
  - lia.
  - replace (-49 - (ex + -49)) with (- ex) by lia.
    assert (2 ^ 53 ≤ 2 ^ (- ex)) by (apply Z.pow_le_mono_r; lia).
    rewrite Pos2Z.inj_mul. nia.
Qed.
End SFScale.

Module Float64Scale.
Local Open Scope float_scope.

(** [Math.random() * 10] is on the 0-10 scale. *)
Lemma scale_bounds r :
  (0 <=? r) = true → (r <? 1) = true →
  (0 <=? r * 10) = true ∧ (r * 10 <=? 10) = true.
Proof.
  rewrite !FloatAxioms.leb_spec, FloatAxioms.ltb_spec, mul_spec, Float64.Prim2SF_ten.
  change (Prim2SF 0) with (S754_zero false).
  change (Prim2SF 1) with (S754_finite false 4503599627370496 (-52)).
  intros H0%SFScale.nonneg_leb H1.
  destruct (SFScale.SFmul_ten_bounds 5629499534213120 (Prim2SF r)) as [Hlo Hhi];
    [reflexivity | apply Prim2SF_valid | exact H0 | exact H1 |].
  split; [now apply SFScale.nonneg_leb | exact Hhi].
Qed.
End Float64Scale.

(** ** The scores and their explanations *)

Module ScaleFacts.
Import RefereeEngine Spec Notions.

Section Scale.
Local Open Scope float_scope.

Variable random : nat → nat → float.
Variable toFixed : float → nat → string.

Local Abbreviation evaluateCriterion := (RefereeEngine.evaluateCriterion toFixed).
Local Abbreviation scoreStep := (RefereeEngine.scoreStep random toFixed).
Local Abbreviation evaluateOption := (RefereeEngine.evaluateOption random toFixed).
Local Abbreviation evaluateOptions := (RefereeEngine.evaluateOptions random toFixed).
Local Abbreviation generateCriterionExplanation :=
  (RefereeEngine.generateCriterionExplanation toFixed).

(** What holds of every score drawn holds of every score kept, as an own
    property or as the prototype. *)
Lemma scoreLoop_all (P : CriterionScore → Prop) i option constraints :
  (∀ k c, P (evaluateCriterion (random i k) option c constraints)) →
  ∀ rest scores total k,
    (∀ e, e ∈ Scores.entries scores → P e.2) →
    (∀ score, Scores.proto scores = Some score → P score) →
    let scores' := (fold_left (scoreStep i option constraints) rest (scores, total, k)).1.1 in
    (∀ e, e ∈ Scores.entries scores' → P e.2)
    ∧ (∀ score, Scores.proto scores' = Some score → P score).
Proof.
  intros HP. induction rest as [|c rest IH]; intros s t k Hs Hp; [now split|].
  apply IH.
  - intros e [->|He]%ScoresFacts.entries_set; [apply HP | now apply Hs].
  - intros score. unfold Scores.set.
    destruct (Obj.get c (Scores.own s)); simpl; [apply Hp|].
    destruct (String.eqb c "__proto__"); simpl; [|apply Hp].
    intros [= <-]. apply HP.
Qed.

(** X21: with [Math.random] in [0, 1), every raw score of every option
    [evaluateOptions] returns is on the scale from 0 to 10, both ends
    included: the product with 10 can round up to 10.  So is the raw score
    of the score that a criterion named [__proto__] made the prototype. *)
Theorem raw_on_scale options criteria constraints :
  (∀ i k, (0 <=? random i k) = true ∧ (random i k <? 1) = true) →
  ∀ e, e ∈ evaluateOptions options criteria constraints →
    (∀ entry, entry ∈ Scores.entries (scores e) →
       (0 <=? raw entry.2) = true ∧ (raw entry.2 <=? 10) = true)
    ∧ (∀ score, Scores.proto (scores e) = Some score →
         (0 <=? raw score) = true ∧ (raw score <=? 10) = true).
Proof.
  intros Hrandom e (i & option & -> & _)%elem_of_lookup_imap.
  unfold RefereeEngine.evaluateOption.
  pose proof (scoreLoop_all
                (fun s => (0 <=? raw s) = true ∧ (raw s <=? 10) = true)
                i option constraints) as Hall.
  specialize (Hall (fun k c => Float64Scale.scale_bounds _ (proj1 (Hrandom i k))
                                                        (proj2 (Hrandom i k)))).
  specialize (Hall criteria Scores.empty 0 0%nat).
  destruct (fold_left _ _ _) as [[scores' total'] k']. simpl in *.
  apply Hall; [|discriminate]. intros e He. now apply elem_of_nil in He.
Qed.

(** X22: the explanation of a score.  For the four criteria of the table it
    is the text the table gives, which is never empty.  For a property name
    of [Object.prototype] it is no text but the function, or the object, of
    that name.  For any other criterion, [community_support] included
    although it has a default weight, it is the score itself, written with
    [toFixed]. *)
Theorem explanation_of_criterion option criterion score :
  (In criterion (Obj.keys (explanations score)) →
     ∃ text, Obj.get criterion (explanations score) = Some text
             ∧ generateCriterionExplanation option criterion score = Text text
             ∧ text ≠ ""%string)
  ∧ (Obj.inherited criterion = true →
     generateCriterionExplanation option criterion score = InheritedProperty criterion)
  ∧ (¬ In criterion (Obj.keys (explanations score)) → Obj.inherited criterion = false →
     generateCriterionExplanation option criterion score
       = Text ("Score: " ++ toFixed score 1 ++ "/10"))
  ∧ is_Some (defaultWeights !! "community_support"%string)
  ∧ generateCriterionExplanation option "community_support" score
      = Text ("Score: " ++ toFixed score 1 ++ "/10").
Proof.
  split; [|split; [|split; [|split; [eexists; reflexivity | reflexivity]]]].
  - intros Hin. unfold RefereeEngine.generateCriterionExplanation.
    simpl in Hin.
    destruct Hin as [<-|[<-|[<-|[<-|[]]]]]; simpl; unfold Number.gt;
      destruct (7 <? score), (5 <? score); eexists; (split; [reflexivity|]);
      (split; [reflexivity | discriminate]).
  - intros Hin. unfold RefereeEngine.generateCriterionExplanation.
    destruct (Obj.get criterion (explanations score)) as [text|] eqn:E;
      [|now rewrite Hin].
    exfalso. assert (In criterion (Obj.keys (explanations score))) as Hkey
      by (apply ObjFacts.get_is_Some; rewrite E; eauto).
    simpl in Hkey. destruct Hkey as [<-|[<-|[<-|[<-|[]]]]]; discriminate.
  - intros Hout Hin. unfold RefereeEngine.generateCriterionExplanation.
    destruct (Obj.get criterion (explanations score)) as [text|] eqn:E;
      [|now rewrite Hin].
    exfalso. apply Hout. apply ObjFacts.get_is_Some. rewrite E. eauto.
Qed.
End Scale.
End ScaleFacts.

(** ** The further properties on concrete comparisons *)

Module Instances.
Import RefereeEngine Spec Notions.
Import EngineFacts TradeoffFacts SummaryFacts ScaleFacts.
Local Open Scope float_scope.

Ltac members H :=
  vm_compute in H;
  repeat (apply elem_of_cons in H as [->|H]);
  [.. | now apply elem_of_nil in H].

Ltac decided := apply (bool_decide_unpack _); vm_compute; exact I.

(** The three evaluated options of the sample. *)
Local Abbreviation first :=
  (RefereeEngine.evaluateOption Sample.random Sample.toFixed
     Sample.criteria Sample.noConstraints 0 Sample.optionA).
Local Abbreviation second :=
  (RefereeEngine.evaluateOption Sample.random Sample.toFixed
     Sample.criteria Sample.noConstraints 1 Sample.optionB).
Local Abbreviation third :=
  (RefereeEngine.evaluateOption Sample.random Sample.toFixed
     Sample.criteria Sample.noConstraints 2 Sample.optionC).

Lemma sample_sameCriteria : sameCriteria Sample.evaluated.
Proof.
  intros A B c HA HB Hc.
  members HA; members HB; vm_compute in Hc;
    destruct Hc as [<-|[<-|[<-|[]]]]; vm_compute; eauto.
Qed.

Lemma insert_perm {A} (f : A → A → float) x l : Sample.insert f x l ≡ₚ x :: l.
Proof.
  induction l as [|y l IH]; simpl; [reflexivity|].
  destruct (Number.gt (f x y) 0); [|reflexivity].
  rewrite IH. apply Permutation_swap.
Qed.

Lemma sample_sort_perm {A} (f : A → A → float) l : Sample.sort A f l ≡ₚ l.
Proof.
  unfold Sample.sort. induction l as [|x l IH]; simpl; [reflexivity|].
  now rewrite insert_perm, IH.
Qed.

Lemma fewer_features_pass_witness :
  checkConstraints Cases.managed (withFeatures (Some ["sso"%string]) Cases.needsAll) = true.
Proof.
  apply (fewer_features_pass Cases.managed Cases.needsAll
           ["sso"; "backup"]%string ["sso"%string]).
  - intros feature [<-|[]]. now left.
  - reflexivity.
Defined.

Lemma supplied_weight_witness :
  criterionWeight Cases.ownWeights "performance" = Value.Number 1
  ∧ criterionWeight Cases.ownWeights "cost" = Value.Number 0.25.
Proof.
  split.
  - apply (supplied_weight Sample.toFixed Cases.ownWeights _ "performance" 1 eq_refl);
      reflexivity.
  - apply (supplied_weight Sample.toFixed Cases.ownWeights _ "cost" 0 eq_refl);
      reflexivity.
Defined.

Lemma scores_keys_witness :
  NoDup (Scores.keys (scores first))
  ∧ Scores.keys (scores third) = Scores.keys (scores first).
Proof.
  destruct (scores_keys Sample.random Sample.toFixed
              Sample.options Sample.criteria Sample.noConstraints first)
    as (Hnd & _ & _ & Hsame).
  - apply (list_elem_of_lookup_2 _ 0%nat). reflexivity.
  - split; [exact Hnd|]. apply Hsame.
    apply (list_elem_of_lookup_2 _ 2%nat). reflexivity.
Defined.

Lemma last_score_kept_witness :
  Scores.find "cost"
    (scores (RefereeEngine.evaluateOption Sample.random Sample.toFixed
               ["cost"; "cost"]%string Sample.noConstraints 0 Sample.optionA))
    = Some (RefereeEngine.evaluateCriterion Sample.toFixed (Sample.random 0 1)
              Sample.optionA "cost" Sample.noConstraints).
Proof.
  apply (last_score_kept Sample.random Sample.toFixed ["cost"%string] "cost" []).
  intros [].
Defined.

Lemma recommendation_shape_witness :
  ∃ r,
    RefereeEngine.generateRecommendation Sample.toFixed Sample.evaluated
      Sample.noConstraints = Ok r
    ∧ alternatives r = None.
Proof.
  destruct (recommendation_shape Sample.toFixed Sample.evaluated Sample.noConstraints)
    as (r & Hr & _ & _ & Halt & _).
  - decided.
  - exists r. split; [exact Hr|]. apply Halt. vm_compute. discriminate.
Defined.

Lemma same_object_throws_witness :
  RefereeEngine.generateRecommendation Sample.toFixed Cases.twice Sample.noConstraints
    = Throw TypeError.
Proof.
  apply (same_object_throws Sample.toFixed Cases.twice Sample.noConstraints 0).
  - vm_compute. lia.
  - intros o Ho. members Ho; reflexivity.
Defined.

Lemma confidence_of_tie_witness :
  ∃ r,
    RefereeEngine.generateRecommendation Sample.toFixed Sample.evaluated
      Sample.noConstraints = Ok r
    ∧ confidence r = Some 0.5.
Proof.
  destruct (confidence_of_tie Sample.toFixed Sample.evaluated Sample.noConstraints)
    as (r & top & Hr & Htop & Htie).
  - decided.
  - intros o Ho. members Ho; reflexivity.
  - vm_compute. discriminate.
  - exists r. split; [exact Hr|]. apply Htie.
    vm_compute in Hr. injection Hr as <-. injection Htop as <-.
    exists third. split; [apply (list_elem_of_lookup_2 _ 2%nat); reflexivity|].
    split; [vm_compute; lia | reflexivity].
Defined.

Lemma confidence_of_wide_gap_witness :
  ∃ r,
    RefereeEngine.generateRecommendation Sample.toFixed Cases.decisive
      Cases.ownWeights = Ok r
    ∧ confidence r = Some 1.
Proof.
  destruct (confidence_of_wide_gap Sample.toFixed Cases.decisive Cases.ownWeights)
    as (r & top & Hr & Htop & Hgap).
  - decided.
  - intros o Ho. members Ho; reflexivity.
  - vm_compute. discriminate.
  - exists r. split; [exact Hr|]. apply Hgap.
    vm_compute in Hr. injection Hr as <-. injection Htop as <-.
    intros o Ho Href. members Ho; [|reflexivity].
    exfalso. now apply Href.
Defined.

Lemma tradeoffs_two_sided_witness :
  ∃ tradeoffs,
    analyzeTradeoffs Sample.evaluated = Ok tradeoffs
    ∧ length tradeoffs = 2%nat
    ∧ ∀ t, t ∈ tradeoffs → twoSided t.
Proof.
  destruct (analyzeTradeoffs Sample.evaluated) as [tradeoffs|] eqn:E;
    [|vm_compute in E; discriminate].
  exists tradeoffs. split; [reflexivity|].
  split; [|apply (tradeoffs_two_sided Sample.evaluated tradeoffs E)].
  vm_compute in E. now injection E as <-.
Defined.

Lemma compareTwo_mirrored_witness :
  ∃ t t', compareTwo first second = Ok t ∧ compareTwo second first = Ok t' ∧ mirrored t t'.
Proof. apply (compareTwo_mirrored first second). reflexivity. Defined.

Lemma same_scores_no_tradeoff_witness :
  ∃ t,
    compareTwo second third = Ok t
    ∧ hasTradeoff t = false ∧ aStrengths t = [] ∧ bStrengths t = [].
Proof.
  apply (same_scores_no_tradeoff second third).
  - intros c Hc. vm_compute in Hc. destruct Hc as [<-|[<-|[<-|[]]]]; vm_compute; eauto.
  - intros c a b _ Ha Hb.
    assert (scores third = scores second) as E by (vm_compute; reflexivity).
    rewrite E in Hb. congruence.
Defined.

Lemma keyStrength_first_highest_witness :
  ∃ l1 s l2,
    Scores.entries (scores first) = l1 ++ ("ease_of_use"%string, s) :: l2
    ∧ getKeyStrength first = "ease_of_use"%string
    ∧ (0 <? raw s) = true.
Proof.
  destruct (keyStrength_first_highest first) as [[_ Hnone]|(l1 & c & s & l2 & Hl & Hc & Hs & _)].
  - intros e He. members He; reflexivity.
  - exfalso.
    specialize (Hnone _ (list_elem_of_lookup_2 (Scores.entries (scores first)) 0%nat _ eq_refl)).
    vm_compute in Hnone. discriminate.
  - exists l1, s, l2. assert (c = "ease_of_use"%string) as <- by (rewrite <- Hc; reflexivity).
    now repeat split.
Defined.

Lemma summary_counts_witness :
  ∃ s,
    RefereeEngine.generateSummary Sample.toFixed Sample.sort Sample.evaluated
      Sample.noConstraints = Ok s
    ∧ totalOptions s = 3%nat ∧ validOptions s = 3%nat ∧ length (topChoices s) = 3%nat.
Proof.
  pose proof (summary_counts Sample.toFixed Sample.sort Sample.evaluated Sample.noConstraints
                sample_sameCriteria (fun l => sample_sort_perm _ l)) as H.
  destruct (RefereeEngine.generateSummary _ _ _ _) as [s|]; [|vm_compute in H; discriminate].
  destruct H as (_ & Htotal & Hvalid & _ & Htop & _).
  exists s. split; [reflexivity|].
  rewrite Htop, Hvalid, Htotal. now repeat split.
Defined.

Lemma raw_on_scale_witness :
  (0 <=? raw (RefereeEngine.evaluateCriterion Sample.toFixed (Sample.random 0 1)
                Sample.optionA "cost" Sample.noConstraints)) = true
  ∧ (raw (RefereeEngine.evaluateCriterion Sample.toFixed (Sample.random 0 1)
            Sample.optionA "cost" Sample.noConstraints) <=? 10) = true.
Proof.
  destruct (raw_on_scale Sample.random Sample.toFixed
              Sample.options Sample.criteria Sample.noConstraints) with (e := first)
    as [Hown _].
  - intros [|i] [|[|k]]; split; reflexivity.
  - apply (list_elem_of_lookup_2 _ 0%nat). reflexivity.
  - apply (Hown ("cost"%string,
                 RefereeEngine.evaluateCriterion Sample.toFixed (Sample.random 0 1)
                   Sample.optionA "cost" Sample.noConstraints)).
    apply (list_elem_of_lookup_2 _ 1%nat). reflexivity.
Defined.
End Instances.
